(** * PiFrame: the download subsystem of [client/main.c] and its client

    A shallow embedding of the asynchronous download pipeline: the job,
    results, progress and recycle queues of [gDownload], the foreground
    functions [DownloadNew] and [onDownloadQueuePoll], and the worker
    [curlThread] with its libcurl callbacks [onCURLDownloadSegment] and
    [onCURLDownloadProgress]; and of the application on top of it: the
    [ImageDownload] callbacks, the request cycle of [onNextDownloadDelay]
    and [onNextDownloadComplete], and [parseOptions].

    The two threads are modelled by one program counter each and a step
    function over a shared state; a step is at most one access to an object
    the threads share.  The sequential functions of the source are obtained
    by running one thread alone until the function returns.

    A [Download] lives in a heap and is named by a handle; [malloc] hands
    out a handle never used before, so that a handle names one submission.
    Callbacks are recorded in a trace, together with the pushes of chunks and
    results and the [memcpy] calls.  Line numbers are those of
    [client/main.c]. *)

From stdpp Require Import gmap strings list sorting.
From Stdlib Require Import ZArith Lia.
Local Open Scope Z_scope.

(** * The model *)

(** ** Constants and machine integers *)

(** [#define kMaxChunksize (128 * 1024)] *)
Definition kMaxChunksize : Z := 128 * 1024.

(** libcurl's success code, [CURLE_OK] of [<curl/curl.h>]. *)
Definition CURLE_OK : Z := 0.

(** [unsigned int] and [int] are 32 bits wide on every target of the program;
    [size_t] is as wide as the platform says ([bits]).  Unsigned arithmetic
    wraps around; signed overflow is undefined, and an [int] operation is
    only carried out when its result is an [int]. *)
Definition wrap (bits x : Z) : Z := x mod 2 ^ bits.

Definition wrap_uint (x : Z) : Z := wrap 32 x.

(** The range of [int]. *)
Definition INT_MIN : Z := - 2 ^ 31.

Definition INT_MAX : Z := 2 ^ 31 - 1.

Definition is_int (x : Z) : bool := (INT_MIN <=? x) && (x <=? INT_MAX).

(** GLib's [MIN(a, b)]: [(((a) < (b)) ? (a) : (b))]. *)
Definition MIN (a b : Z) : Z := if a <? b then a else b.

(** ** Data model *)

(** A [Download*] is the identity of a heap object; a chunk buffer is the
    identity of a block returned by [malloc(kMaxChunksize)]. *)
Abbreviation handle := nat.

Abbreviation buffer := nat.

Module DownloadOptions.
(** A function pointer is [None] when null. [context] is opaque. *)
Record t := mk {
  url : string;
  progressCallback : option nat;
  completeCallback : option nat;
  context : Z
}.
End DownloadOptions.

Module Item.
(** [struct DownloadProgressItem].  Every item is owned by one holder at a
    time (a [currentProgressItem] slot, a queue, or a local variable), so
    it is kept by value where the source keeps a pointer. [context],
    [bytesExpected] and [bytesLoaded] are indeterminate after [malloc];
    they read [None] and [0] until [downloadPushProgressItem] sets them. *)
Record t := mk {
  context : option handle;
  chunk : buffer;
  length : Z;
  bytesExpected : Z;
  bytesLoaded : Z
}.

Definition with_length (v : Z) (i : t) : t :=
  let '(mk c b _ e l) := i in mk c b v e l.
Definition with_context (c : option handle) (i : t) : t :=
  let '(mk _ b n e l) := i in mk c b n e l.
End Item.

Module Download.
(** [struct Download]. [reason] is a pointer to a static string, [None]
    when null. *)
Record t := mk {
  options : DownloadOptions.t;
  result : Z;
  reason : option string;
  bytesExpected : Z;
  bytesLoaded : Z;
  currentProgressItem : option Item.t;
  outstandingProgressItems : Z
}.

Definition with_result (r : Z) (why : option string) (d : t) : t :=
  let '(mk o _ _ e l i n) := d in mk o r why e l i n.
Definition with_totals (e l : Z) (d : t) : t :=
  let '(mk o r why _ _ i n) := d in mk o r why e l i n.
Definition with_bytesLoaded (l : Z) (d : t) : t :=
  let '(mk o r why e _ i n) := d in mk o r why e l i n.
Definition with_currentProgressItem (i : option Item.t) (d : t) : t :=
  let '(mk o r why e l _ n) := d in mk o r why e l i n.
Definition with_outstandingProgressItems (n : Z) (d : t) : t :=
  let '(mk o r why e l i _) := d in mk o r why e l i n.
End Download.

(** ** Queues

    A [GAsyncQueue] wraps a [GQueue]; GLib's [g_async_queue_push] is
    [g_queue_push_head] and its pops are [g_queue_pop_tail].  A queue is
    listed from its tail to its head, so the first element of the list is
    the next one popped. *)

Section Queues.
Context {A : Type}.

Definition g_queue_push_head (q : list A) (x : A) : list A := q ++ [x].

Definition g_queue_push_tail (q : list A) (x : A) : list A := x :: q.

Definition g_queue_pop_tail (q : list A) : option (A * list A) :=
  match q with
  | [] => None
  | x :: q' => Some (x, q')
  end.

Definition g_async_queue_push := g_queue_push_head.

Definition g_async_queue_try_pop := g_queue_pop_tail.

(** The patch of lines 111-123: [g_queue_push_tail] under the mutex. *)
Definition g_async_queue_push_front := g_queue_push_tail.

End Queues.

(** ** Program counters, events and inputs *)

(** Where [downloadPushProgressItem] returns to. *)
Inductive Kont :=
| KSegment (segment segmentLength : Z)  (* line 374, inside the segment loop *)
| KPerformed (result : Z).              (* line 466, after curl_easy_perform *)

(** The worker thread, [curlThread].  No caller queues the shutdown token
    (a null job, which [g_async_queue_push] rejects), so the test of line
    433 never succeeds and the job queue holds handles only. *)
Inductive CurlPC :=
| CWait                                          (* line 429 *)
| CInit (download : handle)                      (* line 439 *)
| CPerform (download : handle)                   (* line 463, between callbacks *)
| CSegment (download : handle) (segment segmentLength : Z)   (* line 356 *)
| CPush (download : handle) (k : Kont)           (* line 331 *)
| CPushStore (download : handle) (v : Z) (k : Kont)  (* line 338, value read *)
| CPushQueue (download : handle) (k : Kont)      (* line 340 *)
| CDone (download : handle) (result : Z).        (* line 468 *)

(** The foreground thread, inside or outside [onDownloadQueuePoll].  The
    statement [outstandingProgressItems--] of line 267 is a read and a write
    of an [int] field the worker writes too, with no lock held; so is the
    [outstandingProgressItems++] of line 338 on the worker. *)
Inductive MainPC :=
| MIdle                                          (* in gtk_main *)
| MProgressPop                                   (* line 257 *)
| MProgressLoad (progressItem : Item.t)          (* line 267, before the read *)
| MProgressStore (progressItem : Item.t) (v : Z) (* line 267, value read *)
| MResultsPop                                    (* line 276 *)
| MResultsTest (completeItem : handle)           (* line 279 *)
| MFault.                         (* undefined: freed Download, int overflow *)

(** What the program did, most recent first. *)
Inductive Event :=
| Submitted (d : handle)                                     (* line 237 *)
| PerformStarted (d : handle)                                (* line 463 *)
| Memcpy (d : handle) (dst src n : Z)                        (* line 365 *)
| ChunkPushed (d : handle) (length : Z)                      (* line 340 *)
| ResultPushed (d : handle)                                  (* lines 445, 473 *)
| ProgressCallback (d : handle) (length received expected : Z) (* line 263 *)
| ChunkDropped (d : handle)                                  (* line 260, no callback *)
| CompleteCallback (d : handle) (result : Z) (reason : option string). (* line 287 *)

(** What the worker's environment decides: the job queue wakes it up, and
    libcurl initialises or not, delivers a segment, reports totals, or ends
    the transfer with a result code. *)
Inductive Input :=
| Next
| InitFailed
| InitOk
| Segment (length : Z)
| Totals (dlTotal dlCurrent : Z)
| Performed (result : Z).

(** What happens next in the program: the foreground thread submits a
    download (from [gtk_main] or from inside a callback), GLib calls
    [onDownloadQueuePoll], the foreground thread executes the next statement
    of [onDownloadQueuePoll], or the worker executes its next statement. *)
Inductive Label :=
| CallDownloadNew (options : DownloadOptions.t)
| Timeout
| Main
| Curl (i : Input).

(** ** State: [gDownload], the heap, both threads *)

Record State := mkState {
  heap : gmap handle Download.t;       (* live Download objects *)
  nextHandle : handle;                 (* identity of the next malloc(Download) *)
  jobQueue : list handle;
  resultsQueue : list handle;
  progressQueue : list Item.t;
  progressRecycleQueue : list Item.t;
  count : Z;
  timeouts : nat;                      (* onDownloadQueuePoll timeouts registered *)
  mallocs : buffer;                    (* chunk buffers allocated so far *)
  freed : list buffer;                 (* chunk buffers passed to free *)
  main : MainPC;
  curl : CurlPC;
  trace : list Event
}.

(** Field updates take the record apart, so that a chain of updates is
    evaluated inside out. *)
Definition with_heap (v : gmap handle Download.t) (s : State) : State :=
  let '(mkState _ nh jq rq pq rcq cnt tmo ml fr mn cl tr) := s in
  mkState v nh jq rq pq rcq cnt tmo ml fr mn cl tr.

Definition with_nextHandle (v : handle) (s : State) : State :=
  let '(mkState hp _ jq rq pq rcq cnt tmo ml fr mn cl tr) := s in
  mkState hp v jq rq pq rcq cnt tmo ml fr mn cl tr.

Definition with_jobQueue (v : list handle) (s : State) : State :=
  let '(mkState hp nh _ rq pq rcq cnt tmo ml fr mn cl tr) := s in
  mkState hp nh v rq pq rcq cnt tmo ml fr mn cl tr.

Definition with_resultsQueue (v : list handle) (s : State) : State :=
  let '(mkState hp nh jq _ pq rcq cnt tmo ml fr mn cl tr) := s in
  mkState hp nh jq v pq rcq cnt tmo ml fr mn cl tr.

Definition with_progressQueue (v : list Item.t) (s : State) : State :=
  let '(mkState hp nh jq rq _ rcq cnt tmo ml fr mn cl tr) := s in
  mkState hp nh jq rq v rcq cnt tmo ml fr mn cl tr.

Definition with_progressRecycleQueue (v : list Item.t) (s : State) : State :=
  let '(mkState hp nh jq rq pq _ cnt tmo ml fr mn cl tr) := s in
  mkState hp nh jq rq pq v cnt tmo ml fr mn cl tr.

Definition with_count (v : Z) (s : State) : State :=
  let '(mkState hp nh jq rq pq rcq _ tmo ml fr mn cl tr) := s in
  mkState hp nh jq rq pq rcq v tmo ml fr mn cl tr.

Definition with_timeouts (v : nat) (s : State) : State :=
  let '(mkState hp nh jq rq pq rcq cnt _ ml fr mn cl tr) := s in
  mkState hp nh jq rq pq rcq cnt v ml fr mn cl tr.

Definition with_mallocs (v : buffer) (s : State) : State :=
  let '(mkState hp nh jq rq pq rcq cnt tmo _ fr mn cl tr) := s in
  mkState hp nh jq rq pq rcq cnt tmo v fr mn cl tr.

Definition with_freed (v : list buffer) (s : State) : State :=
  let '(mkState hp nh jq rq pq rcq cnt tmo ml _ mn cl tr) := s in
  mkState hp nh jq rq pq rcq cnt tmo ml v mn cl tr.

Definition with_main (v : MainPC) (s : State) : State :=
  let '(mkState hp nh jq rq pq rcq cnt tmo ml fr _ cl tr) := s in
  mkState hp nh jq rq pq rcq cnt tmo ml fr v cl tr.

Definition with_curl (v : CurlPC) (s : State) : State :=
  let '(mkState hp nh jq rq pq rcq cnt tmo ml fr mn _ tr) := s in
  mkState hp nh jq rq pq rcq cnt tmo ml fr mn v tr.

Definition emit (e : Event) (s : State) : State :=
  let '(mkState hp nh jq rq pq rcq cnt tmo ml fr mn cl tr) := s in
  mkState hp nh jq rq pq rcq cnt tmo ml fr mn cl (e :: tr).

(** Write [d] back to the object [h] points to. *)
Definition store (h : handle) (d : Download.t) (s : State) : State :=
  let '(mkState hp nh jq rq pq rcq cnt tmo ml fr mn cl tr) := s in
  mkState (<[h := d]> hp) nh jq rq pq rcq cnt tmo ml fr mn cl tr.

(** [DownloadInit], and both threads at rest. *)
Definition DownloadInit : State :=
  mkState ∅ 0%nat [] [] [] [] 0 0%nat 0%nat [] MIdle CWait [].

(** ** The foreground thread *)

(** [DownloadNew], lines 215-249.  [strdup] gives the object its own copy of
    the URL. *)
Definition DownloadNew (options : DownloadOptions.t) (s : State)
  : handle * State :=
  let download := nextHandle s in
  let d :=
    Download.mk
      (DownloadOptions.mk (DownloadOptions.url options)
         (DownloadOptions.progressCallback options)
         (DownloadOptions.completeCallback options)
         (DownloadOptions.context options))
      0 None 0 0 None 0 in
  let s := store download d (with_nextHandle (S download) s) in
  let s := emit (Submitted download)
             (with_jobQueue (g_async_queue_push (jobQueue s) download) s) in
  let s := if count s =? 0 then with_timeouts (S (timeouts s)) s else s in
  let s := with_count (wrap_uint (count s + 1)) s in
  (download, s).

(** One statement of [onDownloadQueuePoll], lines 251-310; the second
    component is the value returned when the function returns. *)
Definition onDownloadQueuePoll_step (s : State) : State * option bool :=
  match main s with
  | MProgressPop =>
      match g_async_queue_try_pop (progressQueue s) with
      | Some (progressItem, q) =>
          let s := with_progressQueue q s in
          match Item.context progressItem with
          | Some h =>
              match heap s !! h with
              | Some d =>
                  let e :=
                    match DownloadOptions.progressCallback (Download.options d) with
                    | Some _ =>
                        ProgressCallback h (Item.length progressItem)
                          (Item.bytesLoaded progressItem)
                          (Item.bytesExpected progressItem)
                    | None => ChunkDropped h
                    end in
                  (with_main (MProgressLoad progressItem) (emit e s), None)
              | None => (with_main MFault s, None)
              end
          | None => (with_main MFault s, None)
          end
      | None => (with_main MResultsPop s, None)
      end
  | MProgressLoad progressItem =>
      match Item.context progressItem ≫= (heap s !!.) with
      | Some d =>
          (with_main
             (MProgressStore progressItem (Download.outstandingProgressItems d))
             s, None)
      | None => (with_main MFault s, None)
      end
  | MProgressStore progressItem v =>
      match Item.context progressItem with
      | Some h =>
          match heap s !! h with
          | Some d =>
              if is_int (v - 1) then
                let s :=
                  store h (Download.with_outstandingProgressItems (v - 1) d) s in
                let s :=
                  with_progressRecycleQueue
                    (g_async_queue_push (progressRecycleQueue s)
                       (Item.with_context None progressItem)) s in
                (with_main MProgressPop s, None)
              else (with_main MFault s, None)
          | None => (with_main MFault s, None)
          end
      | None => (with_main MFault s, None)
      end
  | MResultsPop =>
      match g_async_queue_try_pop (resultsQueue s) with
      | Some (completeItem, q) =>
          (with_main (MResultsTest completeItem) (with_resultsQueue q s), None)
      | None => (with_main MIdle s, Some (0 <? count s))
      end
  | MResultsTest completeItem =>
      match heap s !! completeItem with
      | Some d =>
          if Download.outstandingProgressItems d =? 0 then
            let s :=
              match DownloadOptions.completeCallback (Download.options d) with
              | Some _ =>
                  emit (CompleteCallback completeItem (Download.result d)
                          (Download.reason d)) s
              | None => s
              end in
            let s := with_heap (delete completeItem (heap s)) s in
            let s := with_count (wrap_uint (count s - 1)) s in
            (with_main MResultsPop s, None)
          else
            (with_main MResultsPop
               (with_resultsQueue
                  (g_async_queue_push_front (resultsQueue s) completeItem) s),
             None)
      | None => (with_main MFault s, None)
      end
  | MIdle | MFault => (s, None)
  end.

(** [onDownloadQueuePoll] run to its return, on the foreground thread alone. *)
Fixpoint onDownloadQueuePoll_from (fuel : nat) (s : State)
  : option (bool * State) :=
  match fuel with
  | O => None
  | S fuel =>
      match onDownloadQueuePoll_step s with
      | (s', Some b) => Some (b, s')
      | (s', None) =>
          match main s' with
          | MFault => None
          | _ => onDownloadQueuePoll_from fuel s'
          end
      end
  end.

Definition onDownloadQueuePoll (fuel : nat) (s : State) : option (bool * State) :=
  onDownloadQueuePoll_from fuel (with_main MProgressPop s).

(** ** The worker thread *)

(** [downloadRecycleProgressItems], lines 312-325: every item the foreground
    thread handed back is popped and freed, chunk buffer first. *)
Definition downloadRecycleProgressItems (s : State) : State :=
  with_progressRecycleQueue []
    (with_freed
       (fold_left (fun f progressItem => Item.chunk progressItem :: f)
          (progressRecycleQueue s) (freed s)) s).

(** Lines 380-392: a new item and a new buffer when the slot is empty. *)
Definition reload (download : handle) (s : State) : option State :=
  d ← heap s !! download;
  match Download.currentProgressItem d with
  | Some _ => Some s
  | None =>
      let progressItem := Item.mk None (mallocs s) 0 0 0 in
      Some (store download
              (Download.with_currentProgressItem (Some progressItem) d)
              (with_mallocs (S (mallocs s)) s))
  end.

(** Return from [downloadPushProgressItem]: to the rest of the loop body of
    [onCURLDownloadSegment], or to [curlThread] after the transfer. *)
Definition resume (download : handle) (k : Kont) (s : State) : option State :=
  match k with
  | KSegment segment segmentLength =>
      s ← reload download s;
      Some (with_curl (CSegment download segment segmentLength) s)
  | KPerformed result => Some (with_curl (CDone download result) s)
  end.

Section Platform.

(** The width of [size_t]. *)
Variable size_bits : Z.

Definition size_t (x : Z) : Z := wrap size_bits x.

(** One iteration of the loop of [onCURLDownloadSegment], lines 356-395, up
    to the call of [downloadPushProgressItem]. [segment] is the offset of
    the source pointer from the start of the segment. *)
Definition onCURLDownloadSegment_step (download : handle)
    (segment segmentLength : Z) (s : State) : option State :=
  if 0 <? segmentLength then
    d ← heap s !! download;
    match Download.currentProgressItem d with
    | Some progressItem =>
        let chunkSize :=
          MIN (size_t (kMaxChunksize - Item.length progressItem))
              segmentLength in
        let progressItem' :=
          Item.with_length (size_t (Item.length progressItem + segmentLength))
            progressItem in
        let d :=
          Download.with_bytesLoaded
            (size_t (Download.bytesLoaded d + chunkSize))
            (Download.with_currentProgressItem (Some progressItem') d) in
        let segmentLength := size_t (segmentLength - chunkSize) in
        let s :=
          emit (Memcpy download (Item.length progressItem) segment chunkSize)
            (store download d s) in
        let segment := segment + segmentLength in
        if Item.length progressItem' =? kMaxChunksize then
          Some (with_curl (CPush download (KSegment segment segmentLength)) s)
        else resume download (KSegment segment segmentLength) s
    | None => resume download (KSegment segment segmentLength) s
    end
  else Some (with_curl (CPerform download) s).

(** One statement of [curlThread] or of a callback libcurl runs on it,
    lines 329-476. *)
Definition curlThread (i : Input) (s : State) : option State :=
  match curl s, i with
  | CWait, Next =>
      '(download, q) ← g_async_queue_try_pop (jobQueue s);
      Some (with_curl (CInit download) (with_jobQueue q s))
  | CInit download, InitFailed =>
      d ← heap s !! download;
      let s :=
        store download
          (Download.with_result 0 (Some "curl-init-error"%string) d) s in
      let s :=
        with_resultsQueue (g_async_queue_push (resultsQueue s) download) s in
      Some (with_curl CWait (emit (ResultPushed download) s))
  | CInit download, InitOk =>
      Some (with_curl (CPerform download) (emit (PerformStarted download) s))
  | CPerform download, Segment length =>
      if (0 <=? length) && (length <? 2 ^ size_bits) then
        Some (with_curl (CSegment download 0 length)
                (downloadRecycleProgressItems s))
      else None
  | CPerform download, Totals dlTotal dlCurrent =>
      d ← heap s !! download;
      Some (store download
              (Download.with_totals (size_t dlTotal) (size_t dlCurrent) d) s)
  | CPerform download, Performed result =>
      Some (with_curl (CPush download (KPerformed result)) s)
  | CSegment download segment segmentLength, Next =>
      onCURLDownloadSegment_step download segment segmentLength s
  | CPush download k, Next =>
      d ← heap s !! download;
      match Download.currentProgressItem d with
      | Some progressItem =>
          let progressItem :=
            Item.mk (Some download) (Item.chunk progressItem)
              (Item.length progressItem) (Download.bytesExpected d)
              (Download.bytesLoaded d) in
          Some (with_curl
                  (CPushStore download (Download.outstandingProgressItems d) k)
                  (store download
                     (Download.with_currentProgressItem (Some progressItem) d)
                     s))
      | None => resume download k s
      end
  | CPushStore download v k, Next =>
      d ← heap s !! download;
      if is_int (v + 1) then
        Some (with_curl (CPushQueue download k)
                (store download
                   (Download.with_outstandingProgressItems (v + 1) d) s))
      else None
  | CPushQueue download k, Next =>
      d ← heap s !! download;
      progressItem ← Download.currentProgressItem d;
      let s :=
        with_progressQueue
          (g_async_queue_push (progressQueue s) progressItem) s in
      let s := store download (Download.with_currentProgressItem None d) s in
      resume download k
        (emit (ChunkPushed download (Item.length progressItem)) s)
  | CDone download result, Next =>
      d ← heap s !! download;
      let s :=
        store download (Download.with_result result (Some "curl-done"%string) d)
          s in
      let s :=
        with_resultsQueue (g_async_queue_push (resultsQueue s) download) s in
      Some (with_curl CWait
              (downloadRecycleProgressItems (emit (ResultPushed download) s)))
  | _, _ => None
  end.

End Platform.

(** ** The program: both threads interleaved *)

(** One step of the program.  After undefined behaviour on the foreground
    thread nothing more is said about it.  The timeout fires in [gtk_main]
    only, and is removed when [onDownloadQueuePoll] returns false. *)
Definition step (size_bits : Z) (l : Label) (s : State) : option State :=
  match l with
  | CallDownloadNew options =>
      match main s with
      | MFault => None
      | _ => Some (DownloadNew options s).2
      end
  | Timeout =>
      match main s, timeouts s with
      | MIdle, S _ => Some (with_main MProgressPop s)
      | _, _ => None
      end
  | Main =>
      match main s with
      | MIdle | MFault => None
      | _ =>
          match onDownloadQueuePoll_step s with
          | (s, Some false) => Some (with_timeouts (Nat.pred (timeouts s)) s)
          | (s, _) => Some s
          end
      end
  | Curl i => curlThread size_bits i s
  end.

(** A run: the steps [ls] in turn.  A label list is a schedule of the two
    threads together with what libcurl and the application do. *)
Fixpoint run (size_bits : Z) (ls : list Label) (s : State) : option State :=
  match ls with
  | [] => Some s
  | l :: ls => s ← step size_bits l s; run size_bits ls s
  end.

(** The states of the program, from [DownloadInit] on. *)
Definition reachable (size_bits : Z) (s : State) : Prop :=
  ∃ ls, run size_bits ls DownloadInit = Some s.

(** ** The worker's functions, run on the worker thread alone *)

(** The worker alone, until its program counter satisfies [stop]. *)
Fixpoint curl_until (size_bits : Z) (stop : CurlPC → bool) (fuel : nat)
    (s : State) : option State :=
  if stop (curl s) then Some s
  else
    match fuel with
    | O => None
    | S fuel =>
        s ← curlThread size_bits Next s; curl_until size_bits stop fuel s
    end.

(** Back in [curl_easy_perform]; back at the wait for a job. *)
Definition in_perform (pc : CurlPC) : bool :=
  match pc with CPerform _ => true | _ => false end.

Definition in_wait (pc : CurlPC) : bool :=
  match pc with CWait => true | _ => false end.

(** [onCURLDownloadSegment(segment, count, elements, download)] with
    [count * elements = length], from the call to the return. *)
Definition onCURLDownloadSegment (size_bits : Z) (fuel : nat)
    (download : handle) (length : Z) (s : State) : option State :=
  s ← curlThread size_bits (Segment length) (with_curl (CPerform download) s);
  curl_until size_bits in_perform fuel s.

(** [curl_easy_perform] delivering the segments [lengths] in turn. *)
Fixpoint segments (size_bits : Z) (fuel : nat) (download : handle)
    (lengths : list Z) (s : State) : option State :=
  match lengths with
  | [] => Some s
  | length :: lengths =>
      s ← onCURLDownloadSegment size_bits fuel download length s;
      segments size_bits fuel download lengths s
  end.

(** Lines 466-475: the rest of the loop body of [curlThread] once
    [curl_easy_perform] has returned [result]. *)
Definition finish (size_bits : Z) (fuel : nat) (download : handle)
    (result : Z) (s : State) : option State :=
  s ← curlThread size_bits (Performed result)
        (with_curl (CPerform download) s);
  curl_until size_bits in_wait fuel s.

(** One whole job: the worker takes the next job, libcurl initialises,
    delivers [lengths] and ends with [result]. *)
Definition transfer (size_bits : Z) (fuel : nat) (lengths : list Z)
    (result : Z) (s : State) : option State :=
  s ← curlThread size_bits Next (with_curl CWait s);
  match curl s with
  | CInit download =>
      s ← curlThread size_bits InitOk s;
      s ← segments size_bits fuel download lengths s;
      finish size_bits fuel download result s
  | _ => None
  end.

(** ** Runs in which the counter is updated atomically *)

(** In the runs below each of lines 267 and 338 is carried out in one go:
    a step that reads the counter is completed by the step that writes it,
    before the other thread runs. *)
Definition main_updating (pc : MainPC) : bool :=
  match pc with MProgressStore _ _ => true | _ => false end.

Definition curl_updating (pc : CurlPC) : bool :=
  match pc with CPushStore _ _ _ => true | _ => false end.

(** Complete an update of the counter that has read its value. *)
Definition finish_update (size_bits : Z) (s : State) : option State :=
  if main_updating (main s) then step size_bits Main s
  else if curl_updating (curl s) then step size_bits (Curl Next) s
  else Some s.

(** A step, with the update of the counter it may have begun completed. *)
Definition step_atomic (size_bits : Z) (l : Label) (s : State) : option State :=
  s ← step size_bits l s; finish_update size_bits s.

(** A run in which both updates of the counter are atomic. *)
Fixpoint run_atomic (size_bits : Z) (ls : list Label) (s : State)
  : option State :=
  match ls with
  | [] => Some s
  | l :: ls => s ← step_atomic size_bits l s; run_atomic size_bits ls s
  end.

(** ** Observations *)

(** The [Download] the worker is working on. *)
Definition curl_handle (pc : CurlPC) : option handle :=
  match pc with
  | CWait => None
  | CInit d | CPerform d | CSegment d _ _ | CPush d _ | CPushStore d _ _
  | CPushQueue d _ | CDone d _ => Some d
  end.

(** The lengths of the chunks waiting in the progress queue, oldest first. *)
Definition chunk_lengths (s : State) : list Z :=
  map Item.length (progressQueue s).

(** The [memcpy] calls of line 365 that write past the end of the
    [kMaxChunksize]-byte buffer they write to. *)
Definition overflowing (e : Event) : bool :=
  match e with
  | Memcpy _ dst _ n => kMaxChunksize <? dst + n
  | _ => false
  end.

Definition sum (l : list Z) : Z := foldr Z.add 0 l.


(** Pushes and callbacks. *)
Definition is_delivery (e : Event) : bool :=
  match e with
  | ChunkPushed _ _ | ResultPushed _ | ProgressCallback _ _ _ _
  | ChunkDropped _ | CompleteCallback _ _ _ => true
  | _ => false
  end.

(** The pushes and callbacks of a run, oldest first. *)
Definition deliveries (s : State) : list Event :=
  filter is_delivery (rev (trace s)).

(** The [Download] a queued chunk belongs to. *)
Definition contexts (s : State) : list (option handle) :=
  map Item.context (progressQueue s).

(** Is [c] a reference to [h]? *)
Definition is_handle (h : handle) (c : option handle) : bool :=
  bool_decide (c = Some h).

(** How many elements of [l] satisfy [f]. *)
Fixpoint tally {A} (f : A → bool) (l : list A) : nat :=
  match l with
  | [] => 0
  | x :: l => ((if f x then 1 else 0) + tally f l)%nat
  end.

(** Chunks of [h] in the progress queue. *)
Definition queued (h : handle) (s : State) : nat :=
  tally (is_handle h) (contexts s).

(** The chunk the tick has popped and not yet counted off (line 267). *)
Definition held (s : State) : option handle :=
  match main s with
  | MProgressLoad progressItem => Item.context progressItem
  | _ => None
  end.

(** The chunk the worker has counted and not yet pushed (line 340). *)
Definition pending (s : State) : option handle :=
  match curl s with
  | CPushQueue h _ => Some h
  | _ => None
  end.

(** 1 when [o] refers to [h], else 0. *)
Definition one_if (o : option handle) (h : handle) : Z :=
  if is_handle h o then 1 else 0.

(** The outstanding-chunk counter of [h], when [h] is live. *)
Definition counter (s : State) (h : handle) : option Z :=
  Download.outstandingProgressItems <$> heap s !! h.

(** The push of a chunk of [h]; the delivery of a chunk of [h]. *)
Definition is_pushed (h : handle) (e : Event) : bool :=
  match e with
  | ChunkPushed h' _ => bool_decide (h' = h)
  | _ => false
  end.

Definition is_drained (h : handle) (e : Event) : bool :=
  match e with
  | ProgressCallback h' _ _ _ | ChunkDropped h' => bool_decide (h' = h)
  | _ => false
  end.

(** Chunks of [h] pushed, and delivered (to the progress callback, or
    dropped for want of one), in a trace. *)
Definition pushed (h : handle) (t : list Event) : nat := tally (is_pushed h) t.

Definition drained (h : handle) (t : list Event) : nat := tally (is_drained h) t.

(** The [Download] an event is about. *)
Definition event_handle (e : Event) : handle :=
  match e with
  | Submitted d | PerformStarted d | Memcpy d _ _ _ | ChunkPushed d _
  | ResultPushed d | ProgressCallback d _ _ _ | ChunkDropped d
  | CompleteCallback d _ _ => d
  end.

(** Events that are neither a push nor a delivery of a chunk, nor a
    completion. *)
Definition silent (e : Event) : Prop :=
  match e with
  | ChunkPushed _ _ | ProgressCallback _ _ _ _ | ChunkDropped _
  | CompleteCallback _ _ _ => False
  | _ => True
  end.

(** Events that neither submit, nor start a transfer, nor queue a result. *)
Definition quiet (e : Event) : Prop :=
  match e with
  | Submitted _ | PerformStarted _ | ResultPushed _ => False
  | _ => True
  end.

(** ** What the specification says *)

(** What the specification says a transfer of [N] bytes emits:
    [N / kMaxChunksize] full chunks, then one chunk of the remainder when
    there is one. *)
Definition spec_chunk_lengths (N : Z) : list Z :=
  replicate (Z.to_nat (N / kMaxChunksize)) kMaxChunksize
  ++ (if N mod kMaxChunksize =? 0 then [] else [N mod kMaxChunksize]).

(** ** Inputs and runs *)

(** A download with both callbacks registered, and the state just after its
    submission. *)
Definition test_options : DownloadOptions.t :=
  DownloadOptions.mk "http://test/ok" (Some 1%nat) (Some 2%nat) 0.

Definition test_job : State := (DownloadNew test_options DownloadInit).2.

(** The scenario of the specification: 300 KB in three segments of 100 KB. *)
Definition three_segments : list Z := [102400; 102400; 102400].

(** libcurl's default: segments of at most 16384 bytes; one byte, then
    eight full segments. *)
Definition nine_segments : list Z := 1 :: replicate 8 16384.

(** Exactly one chunk's worth of bytes, in eight segments. *)
Definition eight_segments : list Z := replicate 8 16384.

(** The chunk lengths in the progress queue after one whole job that
    delivers [lengths] and succeeds, the foreground thread not running. *)
Definition emitted (size_bits : Z) (lengths : list Z) : option (list Z) :=
  chunk_lengths <$> transfer size_bits 8 lengths CURLE_OK test_job.

(** The out-of-bounds copies of the same job, most recent first. *)
Definition overflows (size_bits : Z) (lengths : list Z) : option (list Event) :=
  (filter overflowing ∘ trace)
    <$> transfer size_bits 8 lengths CURLE_OK test_job.

(** One job for which [curl_easy_init] fails, then one tick. *)
Definition init_failure : list Label :=
  [CallDownloadNew test_options; Curl Next; Curl InitFailed; Timeout]
  ++ replicate 4 Main.

(** One job whose transfer succeeds without a byte, then one tick. *)
Definition empty_success : list Label :=
  [CallDownloadNew test_options; Curl Next; Curl InitOk;
   Curl (Performed CURLE_OK); Curl Next; Curl Next; Timeout]
  ++ replicate 4 Main.

(** One finished download whose chunk the foreground thread has handed back,
    then a second job about to receive its first segment: the recycle queue
    holds buffer 0 and the second [Download] has no current chunk. *)
Definition second_job : list Label :=
  [CallDownloadNew test_options; Curl Next; Curl InitOk; Curl (Segment 100)]
  ++ replicate 3 (Curl Next)
  ++ [Curl (Performed CURLE_OK)]
  ++ replicate 4 (Curl Next)
  ++ [Timeout]
  ++ replicate 7 Main
  ++ [CallDownloadNew test_options; Curl Next; Curl InitOk].

(** The transfer of one segment of 1000 bytes ends, and its chunk and its
    completion record are queued, just after the tick has found the progress
    queue empty and before it pops the results queue. *)
Definition early_dequeue : list Label :=
  [CallDownloadNew test_options; Curl Next; Curl InitOk; Curl (Segment 1000)]
  ++ replicate 3 (Curl Next)
  ++ [Timeout; Main]
  ++ [Curl (Performed CURLE_OK)]
  ++ replicate 4 (Curl Next).

(** One segment of libcurl's default size, on a chunk with room for it. *)
Definition one_segment : list Label :=
  Curl (Segment 16384) :: replicate 2 (Curl Next).

(** [context->outstandingProgressItems++] on the worker (line 338) and
    [progressItem->context->outstandingProgressItems--] on the foreground
    thread (line 267) are plain read-modify-write statements on an [int]
    field: no lock is held and no atomic operation is used, so each is a
    read followed by a write, and the other thread may run in between.

    Eight segments of 16384 bytes fill the first chunk, which is pushed; 1000
    more bytes go to a second chunk.  The tick pops the first chunk, calls
    the progress callback and reads the counter (1).  The transfer ends; the
    worker reads the counter (1) and writes 2.  The tick writes 0, finds the
    progress queue empty and goes on to the results.  The worker pushes the
    second chunk and the completion record.  The tick pops the record, reads
    0 and completes. *)
Definition lost_update : list Label :=
  [CallDownloadNew test_options; Curl Next; Curl InitOk]
  ++ [Curl (Segment 16384)] ++ replicate 3 (Curl Next)
  ++ mjoin (replicate 6 one_segment)
  ++ [Curl (Segment 16384)] ++ replicate 5 (Curl Next)
  ++ [Curl (Segment 1000)] ++ replicate 2 (Curl Next)
  ++ [Timeout; Main; Main]
  ++ [Curl (Performed CURLE_OK); Curl Next; Curl Next]
  ++ [Main; Main]
  ++ [Curl Next; Curl Next]
  ++ [Main; Main; Main].

(** The next submission re-arms the timeout, and the next tick pops the
    chunk left behind. *)
Definition after_lost_update : list Label :=
  lost_update ++ [CallDownloadNew test_options; Timeout; Main].

(** Two submissions back to back; the worker finishes the first job (an
    empty transfer) and starts the second transfer. *)
Definition two_jobs : list Label :=
  [CallDownloadNew test_options; CallDownloadNew test_options;
   Curl Next; Curl InitOk; Curl (Performed CURLE_OK); Curl Next; Curl Next;
   Curl Next; Curl InitOk].

(** The state [two_jobs] leads to. *)
Definition two_jobs_state : State :=
  default DownloadInit (run 32 two_jobs DownloadInit).

(** One chunk pushed, delivered, and the completion after it, with both
    updates of the counter atomic. *)
Definition atomic_job : list Label :=
  [CallDownloadNew test_options; Curl Next; Curl InitOk; Curl (Segment 1000)]
  ++ replicate 3 (Curl Next)
  ++ [Curl (Performed CURLE_OK)]
  ++ replicate 3 (Curl Next)
  ++ [Timeout]
  ++ replicate 6 Main.

(** ** Invariants and outcomes *)

(** No [Download] lives at a handle that [DownloadNew] has not handed out. *)
Definition fresh (s : State) : Prop :=
  ∀ h, (nextHandle s ≤ h)%nat → heap s !! h = None.

(** The results loop has dequeued, or is about to dequeue, the [Download] [h]
    whose outstanding-chunk counter is not zero, and the worker has moved on
    from [h]. *)
Definition spinning (h : handle) (s : State) : Prop :=
  (∃ d, heap s !! h = Some d ∧ Download.outstandingProgressItems d ≠ 0)
  ∧ (h < nextHandle s)%nat
  ∧ (h ∉ jobQueue s)
  ∧ curl_handle (curl s) ≠ Some h
  ∧ (main s = MResultsTest h
     ∨ main s = MResultsPop ∧ ∃ q, resultsQueue s = h :: q).

(** From [s] on, [onDownloadQueuePoll] does not return, whether the
    foreground thread runs alone or the worker and new submissions are
    interleaved with it in any way [ls]: it stays in the loop of lines
    276-305, popping [h] and pushing it back. *)
Definition never_returns (size_bits : Z) (h : handle) (s : State) : Prop :=
  (∀ fuel, onDownloadQueuePoll_from fuel s = None)
  ∧ ∀ ls s', run size_bits ls s = Some s' →
      main s' = MResultsTest h
      ∨ main s' = MResultsPop ∧ ∃ q, resultsQueue s' = h :: q.

(** Where [early_dequeue] leads: the tick is about to pop the completion
    record of a [Download] whose chunk is still queued. *)
Definition early_dequeue_outcome (size_bits : Z) : Prop :=
  ∃ s,
    run size_bits early_dequeue DownloadInit = Some s
    ∧ main s = MResultsPop
    ∧ resultsQueue s = [0%nat]
    ∧ chunk_lengths s = [1000]
    ∧ Download.outstandingProgressItems <$> heap s !! 0%nat = Some 1
    ∧ never_returns size_bits 0 s.

(** Where [lost_update] leads: the completion callback has been called and
    the [Download] freed with its last chunk still in the progress queue. *)
Definition lost_update_outcome (size_bits : Z) : Prop :=
  deliveries <$> run size_bits lost_update DownloadInit
    = Some [ChunkPushed 0 131072; ProgressCallback 0 131072 131072 0;
            ChunkPushed 0 1000; ResultPushed 0;
            CompleteCallback 0 CURLE_OK (Some "curl-done"%string)]
  ∧ progressQueue <$> run size_bits lost_update DownloadInit
    = Some [Item.mk (Some 0%nat) 1 1000 0 132072]
  ∧ (λ s, heap s !! 0%nat) <$> run size_bits lost_update DownloadInit
    = Some None
  ∧ (λ s, (main s, timeouts s)) <$> run size_bits lost_update DownloadInit
    = Some (MIdle, 0%nat)
  ∧ main <$> run size_bits after_lost_update DownloadInit = Some MFault.

(** What a step does to the job queue, the worker's current [Download] and
    the trace. *)
Inductive view_step (s s' : State) : Prop :=
| view_quiet :
    nextHandle s' = nextHandle s →
    jobQueue s' = jobQueue s →
    curl_handle (curl s') = curl_handle (curl s) →
    trace s' = trace s ∨ (∃ e, quiet e ∧ trace s' = e :: trace s) →
    view_step s s'
| view_submit :
    nextHandle s' = S (nextHandle s) →
    jobQueue s' = jobQueue s ++ [nextHandle s] →
    curl_handle (curl s') = curl_handle (curl s) →
    trace s' = Submitted (nextHandle s) :: trace s →
    view_step s s'
| view_claim (h : handle) :
    nextHandle s' = nextHandle s →
    jobQueue s = h :: jobQueue s' →
    curl_handle (curl s) = None →
    curl_handle (curl s') = Some h →
    trace s' = trace s →
    view_step s s'
| view_start (h : handle) :
    nextHandle s' = nextHandle s →
    jobQueue s' = jobQueue s →
    curl_handle (curl s) = Some h →
    curl_handle (curl s') = Some h →
    trace s' = PerformStarted h :: trace s →
    view_step s s'
| view_result (h : handle) :
    nextHandle s' = nextHandle s →
    jobQueue s' = jobQueue s →
    curl_handle (curl s) = Some h →
    curl_handle (curl s') = None →
    trace s' = ResultPushed h :: trace s →
    view_step s s'.

(** Handles are numbered in the order of submission, jobs wait in that order,
    and the worker has queued the result of every earlier job before it
    turns to the next one. *)
Record ordered (s : State) : Prop := {
  ordered_submitted :
    ∀ h, Submitted h ∈ trace s → (h < nextHandle s)%nat;
  ordered_submissions :
    ∀ newer older h2, trace s = newer ++ Submitted h2 :: older →
      ∀ h1, Submitted h1 ∈ older → (h1 < h2)%nat;
  ordered_jobs : StronglySorted lt (jobQueue s);
  ordered_jobs_submitted :
    Forall (λ h, (h < nextHandle s)%nat) (jobQueue s);
  ordered_whereabouts :
    ∀ h, (h < nextHandle s)%nat →
      h ∈ jobQueue s ∨ curl_handle (curl s) = Some h
      ∨ ResultPushed h ∈ trace s;
  ordered_current :
    ∀ h2, curl_handle (curl s) = Some h2 →
      ∀ h1, (h1 < h2)%nat → ResultPushed h1 ∈ trace s;
  ordered_transfers :
    ∀ newer older h2, trace s = newer ++ PerformStarted h2 :: older →
      ∀ h1, (h1 < h2)%nat → ResultPushed h1 ∈ older
}.

(** [s] is between two statements of each thread, not inside an update of
    the counter. *)
Definition atomic (s : State) : Prop :=
  main_updating (main s) = false ∧ curl_updating (curl s) = false.

(** A step that submits nothing: no new handle, no new job, and the worker
    on the [Download] it was on or on one taken from the job queue. *)
Definition same_bounds (s s' : State) : Prop :=
  nextHandle s' = nextHandle s
  ∧ (∀ h, h ∈ jobQueue s' → h ∈ jobQueue s)
  ∧ ∀ h, curl_handle (curl s') = Some h →
      curl_handle (curl s) = Some h ∨ h ∈ jobQueue s.

(** What an atomic step does to the counters, to the chunks on their way
    and to the trace. *)
Inductive count_step (s s' : State) : Prop :=
| cs_quiet :
    same_bounds s s' →
    (∀ h, counter s' h = counter s h) →
    contexts s' = contexts s →
    held s' = held s →
    pending s' = pending s →
    pending s' = None ∨ heap s' = heap s →
    trace s' = trace s ∨ (∃ e, silent e ∧ trace s' = e :: trace s) →
    count_step s s'
| cs_fault :
    same_bounds s s' →
    main s' = MFault →
    heap s' = heap s →
    pending s' = pending s →
    trace s' = trace s →
    (held s = None
     ∧ (contexts s' = contexts s
        ∨ ∃ c, contexts s = c :: contexts s'
               ∧ ∀ h, c = Some h → heap s !! h = None))
    ∨ (contexts s' = contexts s
       ∧ ∀ h n, held s = Some h → counter s h = Some n →
           is_int (n - 1) = false) →
    count_step s s'
| cs_submit (d : Download.t) :
    nextHandle s' = S (nextHandle s) →
    heap s' = <[nextHandle s := d]> (heap s) →
    Download.outstandingProgressItems d = 0 →
    jobQueue s' = jobQueue s ++ [nextHandle s] →
    curl s' = curl s →
    contexts s' = contexts s →
    held s' = held s →
    trace s' = Submitted (nextHandle s) :: trace s →
    count_step s s'
| cs_deliver (h : handle) (e : Event) :
    same_bounds s s' →
    heap s' = heap s →
    contexts s = Some h :: contexts s' →
    is_Some (heap s !! h) →
    held s = None →
    held s' = Some h →
    pending s' = pending s →
    is_drained h e = true →
    trace s' = e :: trace s →
    count_step s s'
| cs_dec (h : handle) (d : Download.t) :
    same_bounds s s' →
    held s = Some h →
    heap s !! h = Some d →
    heap s' =
      <[h := Download.with_outstandingProgressItems
               (Download.outstandingProgressItems d - 1) d]> (heap s) →
    held s' = None →
    contexts s' = contexts s →
    pending s' = pending s →
    trace s' = trace s →
    count_step s s'
| cs_complete (h : handle) (d : Download.t) :
    same_bounds s s' →
    heap s !! h = Some d →
    Download.outstandingProgressItems d = 0 →
    heap s' = delete h (heap s) →
    held s = None →
    held s' = None →
    contexts s' = contexts s →
    pending s' = pending s →
    trace s' = trace s
    ∨ (∃ r why, trace s' = CompleteCallback h r why :: trace s) →
    count_step s s'
| cs_inc (h : handle) (d d' : Download.t) (progressItem : Item.t) :
    same_bounds s s' →
    heap s !! h = Some d →
    heap s' = <[h := d']> (heap s) →
    Download.outstandingProgressItems d'
      = Download.outstandingProgressItems d + 1 →
    Download.outstandingProgressItems d' ≤ INT_MAX →
    Download.currentProgressItem d' = Some progressItem →
    Item.context progressItem = Some h →
    pending s = None →
    pending s' = Some h →
    contexts s' = contexts s →
    held s' = held s →
    trace s' = trace s →
    count_step s s'
| cs_enqueue (h : handle) (d : Download.t) (progressItem : Item.t) :
    same_bounds s s' →
    pending s = Some h →
    heap s !! h = Some d →
    Download.currentProgressItem d = Some progressItem →
    contexts s' = contexts s ++ [Item.context progressItem] →
    (∀ h, counter s' h = counter s h) →
    pending s' = None →
    held s' = held s →
    trace s' = ChunkPushed h (Item.length progressItem) :: trace s →
    count_step s s'.

(** Every handle in use has been handed out by [DownloadNew], and the chunk
    the worker is about to push refers to the worker's [Download]. *)
Record bounded (s : State) : Prop := {
  bounded_alive : ∀ h, is_Some (heap s !! h) → (h < nextHandle s)%nat;
  bounded_events :
    ∀ e, e ∈ trace s → ¬ silent e → (event_handle e < nextHandle s)%nat;
  bounded_contexts : ∀ h, Some h ∈ contexts s → (h < nextHandle s)%nat;
  bounded_held : ∀ h, held s = Some h → (h < nextHandle s)%nat;
  bounded_curl : ∀ h, curl_handle (curl s) = Some h → (h < nextHandle s)%nat;
  bounded_jobs : ∀ h, h ∈ jobQueue s → (h < nextHandle s)%nat;
  bounded_slot :
    ∀ h d progressItem,
      pending s = Some h →
      heap s !! h = Some d →
      Download.currentProgressItem d = Some progressItem →
      Item.context progressItem = Some h
}.

(** Every chunk of a completed [Download] was delivered before its
    completion, and none was pushed or delivered after. *)
Definition completions_last (t : list Event) : Prop :=
  ∀ newer older h r why,
    t = newer ++ CompleteCallback h r why :: older →
    pushed h older = drained h older
    ∧ pushed h newer = 0%nat ∧ drained h newer = 0%nat.

(** The counter of a live [Download] is the number of its chunks that are
    queued, held by the tick or about to be pushed; the chunks pushed are
    those delivered and those queued; a completed [Download] is gone. *)
Record counted (s : State) : Prop := {
  counted_counter :
    ∀ h n, counter s h = Some n →
      n = Z.of_nat (queued h s) + one_if (held s) h + one_if (pending s) h
      ∧ n ≤ INT_MAX;
  counted_balance :
    ∀ h, is_Some (heap s !! h) →
      pushed h (trace s) = (drained h (trace s) + queued h s)%nat;
  counted_completed :
    ∀ h r why, CompleteCallback h r why ∈ trace s → heap s !! h = None;
  counted_completions : completions_last (trace s)
}.

(** ** The count of live downloads *)

(** [gDownload.count] is the number of live [Download]s, as an
    [unsigned int]. *)
Definition counts_live (s : State) : Prop :=
  count s = wrap_uint (Z.of_nat (size (heap s))).

(** A poller is registered while a [Download] is live or a tick runs. *)
Definition polled (s : State) : Prop :=
  0 < count s ∨ main s ≠ MIdle → (0 < timeouts s)%nat.

(** ** Ownership along the pipeline *)

(** The completion record the tick has popped and is testing (line 279). *)
Definition tested (pc : MainPC) : option handle :=
  match pc with
  | MResultsTest completeItem => Some completeItem
  | _ => None
  end.

(** The [Download]s on their way through the pipeline: waiting in the job
    queue, with the worker, waiting in the results queue, or just popped by
    the tick. *)
Definition owners (s : State) : list handle :=
  jobQueue s ++ option_list (curl_handle (curl s))
  ++ resultsQueue s ++ option_list (tested (main s)).

(** Each of them is there once, and is a live object. *)
Record owned (s : State) : Prop := {
  owned_once : NoDup (owners s);
  owned_alive : ∀ h, h ∈ owners s → is_Some (heap s !! h)
}.

(** What a step does to them. *)
Inductive own_step (s s' : State) : Prop :=
| own_keep :
    owners s' ⊆+ owners s →
    (∀ h, is_Some (heap s !! h) → is_Some (heap s' !! h)) →
    own_step s s'
| own_submit (d : Download.t) :
    owners s' ≡ₚ nextHandle s :: owners s →
    heap s' = <[nextHandle s := d]> (heap s) →
    own_step s s'
| own_free (h : handle) :
    owners s ≡ₚ h :: owners s' →
    heap s' = delete h (heap s) →
    own_step s s'.

(** ** The life of a download *)




(** ** The order of the chunks *)

(** The chunk a push puts in the progress queue: its [Download] and its
    length. *)
Definition chunk_of_push (e : Event) : option (handle * Z) :=
  match e with
  | ChunkPushed h n => Some (h, n)
  | _ => None
  end.

(** The chunks pushed in a trace, oldest first. *)
Definition pushes (t : list Event) : list (handle * Z) :=
  omap chunk_of_push (reverse t).

(** The hand-over of a chunk to the application: the progress callback, or
    the drop when there is none. *)
Definition is_drain (e : Event) : bool :=
  match e with
  | ProgressCallback _ _ _ _ | ChunkDropped _ => true
  | _ => false
  end.

(** The hand-overs of a trace, oldest first. *)
Definition drains (t : list Event) : list Event :=
  filter is_drain (reverse t).

(** [e] hands over the chunk [c]: the callback gets the chunk's length. *)
Definition delivers (c : handle * Z) (e : Event) : Prop :=
  match e with
  | ProgressCallback h n _ _ => c = (h, n)
  | ChunkDropped h => c.1 = h
  | _ => False
  end.

(** A queued item as a chunk. *)
Definition queued_chunk (i : Item.t) : option handle * Z :=
  (Item.context i, Item.length i).

Definition pushed_chunk (c : handle * Z) : option handle * Z :=
  (Some c.1, c.2).

(** The [Download] whose chunk the worker is pushing (lines 338-340). *)
Definition pushing (pc : CurlPC) : option handle :=
  match pc with
  | CPushStore h _ _ | CPushQueue h _ => Some h
  | _ => None
  end.

(** The chunk being pushed refers to the worker's [Download]. *)
Definition slot_ok (s : State) : Prop :=
  ∀ h d, pushing (curl s) = Some h → heap s !! h = Some d →
    ∃ i, Download.currentProgressItem d = Some i ∧ Item.context i = Some h.

(** The foreground thread leaves the current chunk of every [Download]
    alone. *)
Definition slot_keep (s s' : State) : Prop :=
  curl s' = curl s
  ∧ ∀ h d', heap s' !! h = Some d' →
      heap s !! h = None
      ∨ ∃ d, heap s !! h = Some d
             ∧ Download.currentProgressItem d' = Download.currentProgressItem d.

(** What a step does to the progress queue and to the trace. *)
Inductive fifo_step (s s' : State) : Prop :=
| fifo_keep :
    progressQueue s' = progressQueue s →
    trace s' = trace s
    ∨ (∃ e, trace s' = e :: trace s
            ∧ chunk_of_push e = None ∧ is_drain e = false) →
    (main s = MFault → main s' = MFault) →
    fifo_step s s'
| fifo_push (h : handle) (i : Item.t) :
    progressQueue s' = progressQueue s ++ [i] →
    trace s' = ChunkPushed h (Item.length i) :: trace s →
    Item.context i = Some h →
    main s' = main s →
    fifo_step s s'
| fifo_deliver (h : handle) (i : Item.t) (e : Event) :
    progressQueue s = i :: progressQueue s' →
    Item.context i = Some h →
    delivers (h, Item.length i) e →
    is_drain e = true →
    chunk_of_push e = None →
    trace s' = e :: trace s →
    main s ≠ MFault →
    fifo_step s s'
| fifo_lose (i : Item.t) :
    progressQueue s = i :: progressQueue s' →
    trace s' = trace s →
    main s' = MFault →
    fifo_step s s'.

(** The chunks pushed are those handed over, then those a fault has lost,
    then those in the progress queue, in this order. *)
Definition fifo (s : State) : Prop :=
  ∃ done lost rest,
    pushes (trace s) = done ++ lost ++ rest
    ∧ Forall2 delivers done (drains (trace s))
    ∧ pushed_chunk <$> rest = queued_chunk <$> progressQueue s
    ∧ (main s ≠ MFault → lost = []).

(** ** Segments inside a chunk *)

(** The fill level of the current chunk; zero when there is none yet. *)
Definition fill (d : Download.t) : Z :=
  from_option Item.length 0 (Download.currentProgressItem d).

(** The buffer of the current chunk, or the one [malloc] returns next. *)
Definition fill_chunk (s : State) (d : Download.t) : buffer :=
  from_option Item.chunk (mallocs s) (Download.currentProgressItem d).

(** [size_t] can hold the size of a chunk. *)
Definition wide (size_bits : Z) : Prop := kMaxChunksize < 2 ^ size_bits.

(** Segments none of which straddles the end of a chunk: each fits in the
    room its predecessors have left in the current chunk. *)
Fixpoint aligned (len : Z) (lengths : list Z) : Prop :=
  match lengths with
  | [] => True
  | n :: lengths =>
      0 < n ≤ kMaxChunksize - len
      ∧ aligned ((len + n) mod kMaxChunksize) lengths
  end.

(** ** What a tick calls *)

(** What the tick does with a chunk of [d]: the progress callback, or
    nothing when there is none. *)
Definition delivery (h : handle) (d : Download.t) (progressItem : Item.t)
  : Event :=
  match DownloadOptions.progressCallback (Download.options d) with
  | Some _ =>
      ProgressCallback h (Item.length progressItem)
        (Item.bytesLoaded progressItem) (Item.bytesExpected progressItem)
  | None => ChunkDropped h
  end.

(** What the tick does with the completion record of [d]. *)
Definition completion (h : handle) (d : Download.t) : list Event :=
  match DownloadOptions.completeCallback (Download.options d) with
  | Some _ => [CompleteCallback h (Download.result d) (Download.reason d)]
  | None => []
  end.

(** ** Chunk buffers *)

(** The chunk the tick has popped and not yet handed back (lines 257-269). *)
Definition held_item (pc : MainPC) : option Item.t :=
  match pc with
  | MProgressLoad progressItem | MProgressStore progressItem _ =>
      Some progressItem
  | _ => None
  end.

(** The current chunk of [h]. *)
Definition slot (s : State) (h : handle) : option Item.t :=
  heap s !! h ≫= Download.currentProgressItem.

(** The chunk the worker is filling. *)
Definition current_item (s : State) : option Item.t :=
  curl_handle (curl s) ≫= slot s.

(** The chunk buffers in use: the one being filled, those queued for the
    foreground thread, the one in its hands, and those handed back. *)
Definition in_use (s : State) : list buffer :=
  Item.chunk
    <$> (option_list (current_item s) ++ progressQueue s
         ++ option_list (held_item (main s)) ++ progressRecycleQueue s).

(** Only the [Download] the worker is transferring has a current chunk,
    and not before the transfer starts nor after it has ended. *)
Definition idle (pc : CurlPC) : option handle :=
  match pc with
  | CInit h | CDone h _ => Some h
  | _ => None
  end.

Record slots_ok (s : State) : Prop := {
  slots_others :
    ∀ h, curl_handle (curl s) ≠ Some h → slot s h = None;
  slots_idle : ∀ h, idle (curl s) = Some h → slot s h = None
}.

(** What a step does to the chunk buffers. *)
Inductive buf_step (s s' : State) : Prop :=
| buf_keep :
    in_use s' ++ freed s' ≡ₚ in_use s ++ freed s →
    mallocs s' = mallocs s →
    (main s = MFault → main s' = MFault) →
    buf_step s s'
| buf_alloc :
    in_use s' ++ freed s' ≡ₚ mallocs s :: in_use s ++ freed s →
    mallocs s' = S (mallocs s) →
    main s' = main s →
    buf_step s s'
| buf_lose (b : buffer) :
    in_use s ++ freed s ≡ₚ b :: in_use s' ++ freed s' →
    mallocs s' = mallocs s →
    main s' = MFault →
    buf_step s s'.

(** Every buffer allocated is in use or freed, once; a fault of the
    foreground thread may have lost the one it held. *)
Record buffers (s : State) : Prop := {
  buffers_once : in_use s ++ freed s ⊆+ seq 0 (mallocs s);
  buffers_all :
    main s ≠ MFault → in_use s ++ freed s ≡ₚ seq 0 (mallocs s)
}.

(** ** Chunks and their downloads *)

(** Every chunk on the foreground side carries its [Download]. *)
Definition tagged (s : State) : Prop :=
  Forall (λ progressItem, is_Some (Item.context progressItem))
    (progressQueue s ++ option_list (held_item (main s))).

(** No chunk of a [Download] that is gone is queued or in the tick's
    hands. *)
Definition unqueued (s : State) : Prop :=
  ∀ h, heap s !! h = None → (Some h ∉ contexts s) ∧ held s ≠ Some h.

(** ** The application: [ImageDownload] and the picture frame

    Lines 488-913.  An [ImageDownload] feeds the chunks of a [Download] to a
    [GdkPixbufLoader]; the application requests the next image when the
    previous request has completed and a delay has passed.  What GTK, GDK
    and the image decoder do is recorded as calls, and what they return is
    an input of the step. *)

Module ImageDownloadOptions.
Record t := mk {
  url : string;
  completeCallback : option nat;
  context : Z
}.
End ImageDownloadOptions.

Module ImageDownload.
(** [struct ImageDownload]; [loader] and [download] are the identities of
    the [GdkPixbufLoader] and of the [Download]. *)
Record t := mk {
  options : ImageDownloadOptions.t;
  loader : nat;
  download : handle;
  refcount : Z
}.
End ImageDownload.

Module AppOptions.
Record t := mk {
  serviceURL : string;
  delayMS : Z
}.
End AppOptions.

(** A [GdkPixbuf*]: the startup image, or the image a loader has decoded. *)
Inductive Pixbuf :=
| Startup
| Loaded (loader : nat).

(** A [GError*]: the one line 599 makes from the result code, or the one the
    loader has set. *)
Inductive GError :=
| DownloadError (result : Z)
| LoaderError.

Module NextImageContext.
(** [struct NextImageContext]; a widget is named by a number. *)
Record t := mk {
  options : AppOptions.t;
  newImage : nat;
  newSourcePixbuf : option Pixbuf;
  previousImage : nat;
  previousSourcePixbuf : option Pixbuf;
  currentDownload : option nat
}.
End NextImageContext.

Module PiFrame.

(** The addresses of the callbacks, and of the one [NextImageContext]. *)
Definition onImageDownloadProgress_address : nat := 1.

Definition onImageDownloadComplete_address : nat := 2.

Definition onNextDownloadComplete_address : nat := 3.

Definition context_address : Z := 1.

(** The widgets [main] creates. *)
Definition topImage : nat := 0.

Definition bottomImage : nat := 1.

(** What the application asks of GTK and GDK, most recent first. *)
Inductive Call :=
| LoaderWrite (loader : nat) (length : Z)               (* line 564 *)
| LoaderClose (loader : nat)                            (* lines 582, 597 *)
| LoaderUnref (loader : nat)                            (* line 610 *)
| ImageComplete (context : Z) (pixels : option Pixbuf)
    (error : option GError)                             (* lines 588, 603 *)
| PixbufUnref (pixels : option Pixbuf)                  (* line 723 *)
| PixbufRef (pixels : Pixbuf)                           (* line 726 *)
| SetFromPixbuf (image : nat) (pixels : Pixbuf)         (* line 730 *)
| Restack (above below : nat)                           (* line 736 *)
| TimeoutAdd (interval : Z).                            (* lines 764, 908 *)

(** What the image decoder answers during the completion callback: whether
    [gdk_pixbuf_loader_close] succeeds, and whether
    [gdk_pixbuf_loader_get_pixbuf] has an image to return.  (Line 564
    ignores what [gdk_pixbuf_loader_write] answers.) *)
Record Decoder := mkDecoder {
  accepted : bool;
  has_pixbuf : bool
}.

Record App := mkApp {
  downloads : State;                       (* the download subsystem *)
  images : gmap nat ImageDownload.t;       (* live ImageDownload objects *)
  nextImageDownload : nat;                 (* the next malloc(ImageDownload) *)
  nextImage : NextImageContext.t;          (* the NextImageContext of main *)
  delays : list Z;                         (* onNextDownloadDelay timeouts *)
  calls : list Call
}.

Definition with_downloads (v : State) (a : App) : App :=
  let '(mkApp _ im ni nx dl cs) := a in mkApp v im ni nx dl cs.

Definition with_images (v : gmap nat ImageDownload.t) (a : App) : App :=
  let '(mkApp s _ ni nx dl cs) := a in mkApp s v ni nx dl cs.

Definition with_nextImage (v : NextImageContext.t) (a : App) : App :=
  let '(mkApp s im ni _ dl cs) := a in mkApp s im ni v dl cs.

Definition with_delays (v : list Z) (a : App) : App :=
  let '(mkApp s im ni nx _ cs) := a in mkApp s im ni nx v cs.

Definition call (c : Call) (a : App) : App :=
  let '(mkApp s im ni nx dl cs) := a in mkApp s im ni nx dl (c :: cs).

(** [int minimumDelay = nextImage->options.delayMS]: an [unsigned int]
    converted to [int], as GCC does it. *)
Definition to_int (x : Z) : Z := if x <=? INT_MAX then x else x - 2 ^ 32.

(** [ImageDownloadNew], lines 524-550. *)
Definition ImageDownloadNew (options : ImageDownloadOptions.t) (a : App)
  : nat * App :=
  let imageDownload := nextImageDownload a in
  let downloadOptions :=
    DownloadOptions.mk (ImageDownloadOptions.url options)
      (Some onImageDownloadProgress_address)
      (Some onImageDownloadComplete_address)
      (Z.of_nat imageDownload) in
  let '(download, s) := DownloadNew downloadOptions (downloads a) in
  let i :=
    ImageDownload.mk
      (ImageDownloadOptions.mk (ImageDownloadOptions.url options)
         (ImageDownloadOptions.completeCallback options)
         (ImageDownloadOptions.context options))
      imageDownload download 2 in
  let '(mkApp _ im _ nx dl cs) := a in
  (imageDownload, mkApp s (<[imageDownload := i]> im) (S imageDownload) nx dl cs).

(** [onNextDownloadDelay], lines 768-784; it returns [FALSE], and GLib
    removes the timeout. *)
Definition onNextDownloadDelay (a : App) : App :=
  let downloadOptions :=
    ImageDownloadOptions.mk
      (AppOptions.serviceURL (NextImageContext.options (nextImage a)))
      (Some onNextDownloadComplete_address) context_address in
  let '(imageDownload, a) := ImageDownloadNew downloadOptions a in
  let '(NextImageContext.mk o n ns p ps _) := nextImage a in
  with_nextImage (NextImageContext.mk o n ns p ps (Some imageDownload)) a.

(** [onNextDownloadComplete], lines 711-766. *)
Definition onNextDownloadComplete (context : Z) (pixels : option Pixbuf)
    (error : option GError) (a : App) : option App :=
  if context =? context_address then
    let '(NextImageContext.mk o n ns p ps c) := nextImage a in
    let minimumDelay := to_int (AppOptions.delayMS o) in
    match pixels with
    | Some pixels =>
        let a := call (PixbufUnref ps) a in
        let a := call (PixbufRef pixels) a in
        let a := call (SetFromPixbuf n pixels) a in
        let a := call (Restack n p) a in
        let a :=
          with_nextImage (NextImageContext.mk o p None n (Some pixels) c) a in
        let interval := wrap_uint minimumDelay in
        Some (call (TimeoutAdd interval)
                (with_delays (delays a ++ [interval]) a))
    | None =>
        let interval := wrap_uint 10000 in
        Some (call (TimeoutAdd interval)
                (with_delays (delays a ++ [interval]) a))
    end
  else None.

(** The call of [imageDownload->options.completeCallback]. *)
Definition complete (i : ImageDownload.t) (pixels : option Pixbuf)
    (error : option GError) (a : App) : option App :=
  let context := ImageDownloadOptions.context (ImageDownload.options i) in
  match ImageDownloadOptions.completeCallback (ImageDownload.options i) with
  | Some f =>
      if decide (f = onNextDownloadComplete_address) then
        onNextDownloadComplete context pixels error
          (call (ImageComplete context pixels error) a)
      else None
  | None => None
  end.

(** [onImageDownloadProgress], lines 558-574. *)
Definition onImageDownloadProgress (download : DownloadOptions.t)
    (length : Z) (a : App) : option App :=
  imageDownload ← images a !! Z.to_nat (DownloadOptions.context download);
  Some (call (LoaderWrite (ImageDownload.loader imageDownload) length) a).

(** [onImageDownloadComplete], lines 576-618. *)
Definition onImageDownloadComplete (download : DownloadOptions.t)
    (result : Z) (decoder : Decoder) (a : App) : option App :=
  let address := Z.to_nat (DownloadOptions.context download) in
  imageDownload ← images a !! address;
  let loader := ImageDownload.loader imageDownload in
  let a := call (LoaderClose loader) a in
  a ←
    (if (result =? CURLE_OK) && accepted decoder then
       let pixels := if has_pixbuf decoder then Some (Loaded loader) else None in
       complete imageDownload pixels None a
     else
       let error :=
         if result =? CURLE_OK then LoaderError else DownloadError result in
       complete imageDownload None (Some error) a);
  let a := call (LoaderUnref loader) a in
  Some (with_images (delete address (images a)) a).

(** The callback the tick has just called, if any. *)
Definition called (s s' : State) : option Event :=
  match trace s' with
  | e :: t =>
      if decide (length t = length (trace s)) then
        match e with
        | ProgressCallback _ _ _ _ | CompleteCallback _ _ _ => Some e
        | _ => None
        end
      else None
  | [] => None
  end.

(** The callback registered for an event of the tick, with the options the
    tick passes it. *)
Definition dispatch (s : State) (e : Event) (decoder : Decoder) (a : App)
  : option App :=
  match e with
  | ProgressCallback h length _ _ =>
      d ← heap s !! h;
      f ← DownloadOptions.progressCallback (Download.options d);
      if decide (f = onImageDownloadProgress_address) then
        onImageDownloadProgress (Download.options d) length a
      else None
  | CompleteCallback h result _ =>
      d ← heap s !! h;
      f ← DownloadOptions.completeCallback (Download.options d);
      if decide (f = onImageDownloadComplete_address) then
        onImageDownloadComplete (Download.options d) result decoder a
      else None
  | _ => Some a
  end.

(** What happens next in the application: a delay has passed and GLib calls
    [onNextDownloadDelay]; GLib calls [onDownloadQueuePoll]; the foreground
    thread executes the next statement of the tick, and the callback it
    calls; the worker executes its next statement. *)
Inductive Label :=
| OnNextDownloadDelay (k : nat)
| GLibTimeout
| Foreground (decoder : Decoder)
| Worker (i : Input).

Definition step (size_bits : Z) (l : Label) (a : App) : option App :=
  match l with
  | OnNextDownloadDelay k =>
      match main (downloads a), delays a !! k with
      | MIdle, Some _ =>
          Some (onNextDownloadDelay (with_delays (delete k (delays a)) a))
      | _, _ => None
      end
  | GLibTimeout =>
      s ← step size_bits Timeout (downloads a);
      Some (with_downloads s a)
  | Foreground decoder =>
      s ← step size_bits Main (downloads a);
      match called (downloads a) s with
      | Some e => dispatch (downloads a) e decoder (with_downloads s a)
      | None => Some (with_downloads s a)
      end
  | Worker i =>
      s ← step size_bits (Curl i) (downloads a);
      Some (with_downloads s a)
  end.

Fixpoint run (size_bits : Z) (ls : list Label) (a : App) : option App :=
  match ls with
  | [] => Some a
  | l :: ls => a ← step size_bits l a; run size_bits ls a
  end.

(** [main], lines 815-913, up to [gtk_main]: the download subsystem is
    initialised, both widgets show the startup image, and the first request
    is five seconds away. *)
Definition main (options : AppOptions.t) : App :=
  mkApp DownloadInit ∅ 0%nat
    (NextImageContext.mk options topImage None bottomImage (Some Startup) None)
    [5000] [TimeoutAdd 5000].

Definition reachable (size_bits : Z) (options : AppOptions.t) (a : App)
  : Prop :=
  ∃ ls, run size_bits ls (main options) = Some a.

End PiFrame.

(** ** Command-line options *)

(** The option character ['d'], as the [int] [getopt] returns. *)
Definition option_d : Z := 100.

(** [parseOptions], lines 788-813.  [getopt] and [atoi] are libc's: [opts]
    is what the successive calls of [getopt] return, each option character
    with its [optarg], and [arguments] is [argv] from [optind] on once
    [getopt] has returned -1.  The second component is the arguments the
    function warns about. *)
Definition parseOptions (atoi : string → Z) (outOptions : AppOptions.t)
    (opts : list (Z * string)) (arguments : list string)
  : AppOptions.t * list string :=
  let outOptions :=
    fold_left
      (λ o opt,
         if opt.1 =? option_d then
           AppOptions.mk (AppOptions.serviceURL o) (wrap_uint (atoi opt.2))
         else o)
      opts outOptions in
  let '(outOptions, _, warnings) :=
    fold_left
      (λ '(o, haveURL, warnings) argument,
         if haveURL : bool then (o, haveURL, warnings ++ [argument])
         else (AppOptions.mk argument (AppOptions.delayMS o), true, warnings))
      arguments (outOptions, false, []) in
  (outOptions, warnings).

(** The arguments of the [-d] options, in order. *)
Definition delay_arguments (opts : list (Z * string)) : list string :=
  omap (λ opt, if opt.1 =? option_d then Some opt.2 else None) opts.

(** The options [main] starts from. *)
Definition defaults : AppOptions.t := AppOptions.mk "" 1.

(** ** Invariants of the application *)

(** The options [ImageDownloadNew] gives its [Download]. *)
Definition image_options (url : string) (imageDownload : nat)
  : DownloadOptions.t :=
  DownloadOptions.mk url (Some PiFrame.onImageDownloadProgress_address)
    (Some PiFrame.onImageDownloadComplete_address) (Z.of_nat imageDownload).

(** The options of the live [Download]s. *)
Definition live_options (s : State) : gmap handle DownloadOptions.t :=
  Download.options <$> heap s.

(** The application is waiting for a delay to pass, with nothing in flight,
    or one request is in flight and no delay is pending. *)
Inductive cycle (options : AppOptions.t) (a : PiFrame.App) : Prop :=
| cycle_waiting (interval : Z) :
    PiFrame.delays a = [interval] →
    heap (PiFrame.downloads a) = ∅ →
    PiFrame.images a = ∅ →
    cycle options a
| cycle_loading (h : handle) (imageDownload : nat) (i : ImageDownload.t) :
    PiFrame.delays a = [] →
    live_options (PiFrame.downloads a)
      = {[h := image_options (AppOptions.serviceURL options) imageDownload]} →
    PiFrame.images a = {[imageDownload := i]} →
    ImageDownload.options i
      = ImageDownloadOptions.mk (AppOptions.serviceURL options)
          (Some PiFrame.onNextDownloadComplete_address)
          PiFrame.context_address →
    ImageDownload.loader i = imageDownload →
    cycle options a.

(** The images set on the widgets, most recent first. *)
Definition shown (cs : list PiFrame.Call) : list (nat * Pixbuf) :=
  omap (λ c, match c with
             | PiFrame.SetFromPixbuf image pixels => Some (image, pixels)
             | _ => None
             end) cs.

(** The widget the [n]-th image goes to, counting from 0. *)
Definition widget (n : nat) : nat :=
  if Nat.even n then PiFrame.topImage else PiFrame.bottomImage.

(** The widgets of the first [n] images, most recent first. *)
Fixpoint alternate (n : nat) : list nat :=
  match n with
  | O => []
  | S n => widget n :: alternate n
  end.

Record display (a : PiFrame.App) : Prop := {
  display_widgets : (shown (PiFrame.calls a)).*1
                    = alternate (length (shown (PiFrame.calls a)));
  display_new : NextImageContext.newImage (PiFrame.nextImage a)
                = widget (length (shown (PiFrame.calls a)));
  display_previous : NextImageContext.previousImage (PiFrame.nextImage a)
                     = widget (S (length (shown (PiFrame.calls a))));
  display_source : NextImageContext.previousSourcePixbuf (PiFrame.nextImage a)
                   = Some (hd Startup (shown (PiFrame.calls a)).*2);
  display_empty : NextImageContext.newSourcePixbuf (PiFrame.nextImage a) = None
}.

Record running (options : AppOptions.t) (a : PiFrame.App) : Prop := {
  running_cycle : cycle options a;
  running_options : NextImageContext.options (PiFrame.nextImage a) = options;
  running_display : display a
}.

(** What one statement of the tick does to the live [Download]s, with the
    callback it calls. *)
Inductive tick_step (s s' : State) : Prop :=
| tick_quiet :
    PiFrame.called s s' = None → live_options s' = live_options s →
    tick_step s s'
| tick_progress (h : handle) (d : Download.t) (length received expected : Z) :
    heap s !! h = Some d →
    PiFrame.called s s' = Some (ProgressCallback h length received expected) →
    live_options s' = live_options s →
    tick_step s s'
| tick_complete (h : handle) (d : Download.t) :
    heap s !! h = Some d →
    PiFrame.called s s'
      = Some (CompleteCallback h (Download.result d) (Download.reason d)) →
    trace s' = CompleteCallback h (Download.result d) (Download.reason d) :: trace s →
    heap s' = delete h (heap s) →
    tick_step s s'
| tick_discard (h : handle) (d : Download.t) :
    heap s !! h = Some d →
    DownloadOptions.completeCallback (Download.options d) = None →
    tick_step s s'.

Definition frame_options : AppOptions.t := AppOptions.mk "http://frame/next" 3000.

Definition happy : PiFrame.Decoder := PiFrame.mkDecoder true true.

Definition first_image : list PiFrame.Label :=
  [PiFrame.OnNextDownloadDelay 0; PiFrame.Worker Next; PiFrame.Worker InitOk;
   PiFrame.Worker (Segment 1000)]
  ++ replicate 3 (PiFrame.Worker Next)
  ++ [PiFrame.Worker (Performed CURLE_OK)]
  ++ replicate 4 (PiFrame.Worker Next)
  ++ [PiFrame.GLibTimeout]
  ++ replicate 7 (PiFrame.Foreground happy).

(** Whether a completed download gives an image to show: the transfer
    succeeded, the loader closed without error and has an image. *)
Definition displayable (result : Z) (decoder : PiFrame.Decoder) : bool :=
  (result =? CURLE_OK) && PiFrame.accepted decoder
  && PiFrame.has_pixbuf decoder.

(** ** More test schedules *)

(** The states the test schedules lead to. *)
Definition empty_success_state : State :=
  default DownloadInit (run 32 empty_success DownloadInit).

Definition second_job_state : State :=
  default DownloadInit (run 32 second_job DownloadInit).

Definition early_dequeue_state : State :=
  default DownloadInit (run 32 early_dequeue DownloadInit).

Definition atomic_job_state : State :=
  default DownloadInit (run_atomic 32 atomic_job DownloadInit).

(** One chunk of 1000 bytes begun, the transfer going on. *)
Definition chunk_begun : list Label :=
  [CallDownloadNew test_options; Curl Next; Curl InitOk; Curl (Segment 1000)]
  ++ replicate 3 (Curl Next).

Definition chunk_begun_state : State :=
  default DownloadInit (run 32 chunk_begun DownloadInit).

(** The transfer over: one chunk and the completion record are queued. *)
Definition transfer_over : list Label :=
  chunk_begun ++ [Curl (Performed CURLE_OK)] ++ replicate 4 (Curl Next).

Definition transfer_over_state : State :=
  default DownloadInit (run 32 transfer_over DownloadInit).

(** The application with one request completed, and just before. *)
Definition first_image_state : PiFrame.App :=
  default (PiFrame.main frame_options)
    (PiFrame.run 32 first_image (PiFrame.main frame_options)).

Definition before_completion : list PiFrame.Label := take 18 first_image.

Definition before_completion_state : PiFrame.App :=
  default (PiFrame.main frame_options)
    (PiFrame.run 32 before_completion (PiFrame.main frame_options)).


(** * Properties *)

(** ** Records and queues *)

Lemma with_main_id (s : State) : with_main (main s) s = s.
Proof. by destruct s. Qed.

Lemma push_front_is_next {A} (q : list A) (x : A) :
  g_async_queue_try_pop (g_async_queue_push_front q x) = Some (x, q).
Proof. done. Qed.

Lemma push_is_last {A} (q : list A) (x y : A) :
  g_async_queue_try_pop (g_async_queue_push (y :: q) x)
  = Some (y, g_async_queue_push q x).
Proof. done. Qed.

(** ** Taking a step apart *)

(** Take a successful step apart. *)
Ltac invert_step :=
  repeat match goal with
  | H : None = Some _ |- _ => discriminate H
  | H : Some _ = Some _ |- _ => apply (inj Some) in H; subst
  | H : (_ ≫= _) = Some _ |- _ =>
      apply bind_Some in H as (? & ? & H); cbn in H
  | H : match ?x with _ => _ end = Some _ |- _ => destruct x eqn:?; cbn in H
  end.

(** The cases of a worker step. *)
Ltac curl_cases H :=
  unfold curlThread, onCURLDownloadSegment_step, resume, reload in H;
  cbn in H; invert_step; cbn in *.

(** ** Fresh handles *)

(** A write to a live [Download], or its release, keeps the handles not yet
    handed out unused. *)
Ltac fresh_store :=
  match goal with
  | Hfresh : ∀ h, (_ ≤ h)%nat → ?hp !! h = None |- _ =>
      intros h Hh; specialize (Hfresh h Hh);
      repeat match goal with
      | |- context [<[?k := _]> _ !! h] =>
          destruct (decide (k = h)) as [->|];
            [congruence | rewrite lookup_insert_ne by done]
      | |- context [delete ?k _ !! h] =>
          destruct (decide (k = h)) as [->|];
            [by rewrite lookup_delete_eq | rewrite lookup_delete_ne by done]
      end; try done
  end.

Lemma curlThread_fresh (size_bits : Z) (i : Input) (s s' : State) :
  fresh s → curlThread size_bits i s = Some s' → fresh s'.
Proof.
  unfold fresh. intros Hfresh Hstep.
  destruct s as [hp nh jq rq pq rcq cnt tmo ml fr mn cl tr].
  destruct cl, i; curl_cases Hstep.
  all: try done.
  all: fresh_store.
Qed.

Lemma onDownloadQueuePoll_step_fresh (s s' : State) (r : option bool) :
  fresh s → onDownloadQueuePoll_step s = (s', r) → fresh s'.
Proof.
  unfold fresh. intros Hfresh Hstep.
  destruct s as [hp nh jq rq pq rcq cnt tmo ml fr mn cl tr].
  unfold onDownloadQueuePoll_step in Hstep. cbn in Hstep.
  repeat case_match; simplify_eq; cbn in *.
  all: try done.
  all: fresh_store.
Qed.

Lemma DownloadNew_fresh (options : DownloadOptions.t) (s : State) :
  fresh s → fresh (DownloadNew options s).2.
Proof.
  unfold fresh. intros Hfresh.
  destruct s as [hp nh jq rq pq rcq cnt tmo ml fr mn cl tr].
  cbn in *. destruct (cnt =? 0); cbn; intros h Hh.
  all: rewrite lookup_insert_ne by lia; apply Hfresh; lia.
Qed.

Lemma with_timeouts_fresh (n : nat) (s : State) :
  fresh s → fresh (with_timeouts n s).
Proof. by destruct s. Qed.

Lemma step_fresh (size_bits : Z) (l : Label) (s s' : State) :
  fresh s → step size_bits l s = Some s' → fresh s'.
Proof.
  intros Hfresh. destruct l as [options| | |i]; unfold step; intros Hstep.
  - destruct (main s); simplify_eq; by apply DownloadNew_fresh.
  - destruct s as [hp nh jq rq pq rcq cnt tmo ml fr mn cl tr].
    cbn in Hstep. destruct mn, tmo; by simplify_eq.
  - destruct (onDownloadQueuePoll_step s) as [s1 r] eqn:Hpoll.
    apply (onDownloadQueuePoll_step_fresh _ _ _ Hfresh) in Hpoll.
    destruct (main s), r as [[]|]; simplify_eq;
      by try apply with_timeouts_fresh.
  - by eapply curlThread_fresh.
Qed.

Lemma reachable_fresh (size_bits : Z) (s : State) :
  reachable size_bits s → fresh s.
Proof.
  intros [ls Hrun].
  assert (Hgen : ∀ ls s0, fresh s0 → run size_bits ls s0 = Some s → fresh s).
  { clear. intros ls. induction ls as [|l ls IH]; intros s0 H0 Hrun;
      cbn in Hrun.
    - by simplify_eq.
    - apply bind_Some in Hrun as (s1 & Hstep & Hrun).
      eauto using step_fresh. }
  apply (Hgen ls DownloadInit); [|done].
  intros h _. apply lookup_empty.
Qed.

(** ** [onDownloadQueuePoll] on empty queues *)

(** C8. With the progress queue and the results queue both empty, a tick of
    [onDownloadQueuePoll] returns after its two empty pops, leaves the whole
    state as it was (no callback in the trace, every [Download], every
    counter, [count] and the queues unchanged) and returns [count > 0]:
    the timeout goes on exactly when the live-handle count is positive. *)
Theorem onDownloadQueuePoll_empty_queues (s : State) (fuel : nat) :
  main s = MIdle →
  progressQueue s = [] →
  resultsQueue s = [] →
  onDownloadQueuePoll (S (S fuel)) s = Some (bool_decide (0 < count s), s).
Proof.
  intros Hmain Hprogress Hresults.
  destruct s as [hp nh jq rq pq rcq cnt tmo ml fr mn cl tr].
  cbn in *; subst; cbn.
  do 2 f_equal.
  destruct (Z.ltb_spec 0 cnt).
  - by rewrite bool_decide_eq_true_2.
  - rewrite bool_decide_eq_false_2; [done | lia].
Qed.

Lemma onDownloadQueuePoll_empty_queues_witness :
  onDownloadQueuePoll 2 DownloadInit = Some (bool_decide (0 < 0), DownloadInit).
Proof. exact (onDownloadQueuePoll_empty_queues DownloadInit 0 eq_refl eq_refl eq_refl). Defined.

(** ** [DownloadNew] *)

(** C9. [DownloadNew] is a total function of the options and the state: it
    returns at once, with no pop and no wait.  The new [Download] is a new
    object (in every state the program reaches, its handle is in use by no
    other); it holds the URL and the callbacks of the options, and its
    result, reason, byte counters, current-chunk slot and outstanding-chunk
    counter are zero; no other [Download] changes.  The handle is pushed at the back of the job
    queue, [count] goes up by one, and one more [onDownloadQueuePoll] timeout
    is registered exactly when [count] was zero.  The other queues and both
    program counters are as before. *)
Theorem DownloadNew_submits (options : DownloadOptions.t) (s : State) :
  0 ≤ count s < 2 ^ 32 - 1 →
  let download := (DownloadNew options s).1 in
  let s' := (DownloadNew options s).2 in
  download = nextHandle s
  ∧ (∀ size_bits, reachable size_bits s → heap s !! download = None)
  ∧ heap s' !! download = Some (Download.mk options 0 None 0 0 None 0)
  ∧ (∀ h, h ≠ download → heap s' !! h = heap s !! h)
  ∧ jobQueue s' = jobQueue s ++ [download]
  ∧ count s' = count s + 1
  ∧ timeouts s' = (if bool_decide (count s = 0) then S (timeouts s)
                   else timeouts s)
  ∧ resultsQueue s' = resultsQueue s
  ∧ progressQueue s' = progressQueue s
  ∧ progressRecycleQueue s' = progressRecycleQueue s
  ∧ main s' = main s
  ∧ curl s' = curl s
  ∧ trace s' = Submitted download :: trace s.
Proof.
  intros Hcount.
  destruct s as [hp nh jq rq pq rcq cnt tmo ml fr mn cl tr].
  destruct options as [u pcb ccb ctx].
  cbn in *.
  assert (Hwrap : wrap_uint (cnt + 1) = cnt + 1).
  { unfold wrap_uint, wrap. apply Z.mod_small. lia. }
  split; [done|].
  split; [intros size_bits Hreach; by apply (reachable_fresh size_bits _ Hreach)|].
  split; [by destruct (cnt =? 0); cbn; rewrite lookup_insert_eq|].
  split.
  { intros h Hne. by destruct (cnt =? 0); cbn; rewrite lookup_insert_ne. }
  destruct (Z.eqb_spec cnt 0) as [->|Hne]; cbn.
  - by rewrite bool_decide_eq_true_2.
  - rewrite Hwrap. by rewrite bool_decide_eq_false_2.
Qed.

Lemma DownloadNew_submits_witness :
  jobQueue (DownloadNew test_options DownloadInit).2 = [0%nat]
  ∧ count (DownloadNew test_options DownloadInit).2 = 1
  ∧ timeouts (DownloadNew test_options DownloadInit).2 = 1%nat.
Proof.
  assert (H : 0 ≤ count DownloadInit < 2 ^ 32 - 1) by (cbn; lia).
  destruct (DownloadNew_submits test_options DownloadInit H)
    as (_ & _ & _ & _ & Hq & Hc & Ht & _).
  split; [exact Hq | split; [exact Hc | exact Ht]].
Defined.

(** ** The end of a transfer *)

Lemma curl_until_stop (size_bits : Z) (stop : CurlPC → bool) (fuel : nat)
    (s : State) :
  stop (curl s) = true → curl_until size_bits stop fuel s = Some s.
Proof. intros H. destruct fuel; cbn; by rewrite H. Qed.

Lemma curl_until_step (size_bits : Z) (stop : CurlPC → bool) (fuel : nat)
    (s : State) :
  stop (curl s) = false →
  curl_until size_bits stop (S fuel) s
  = curlThread size_bits Next s ≫= curl_until size_bits stop fuel.
Proof. intros H. cbn. by rewrite H. Qed.

(** Run the worker one statement further inside [curl_until]. *)
Ltac curl_next :=
  rewrite curl_until_step by done;
  cbn -[curl_until]; rewrite ?lookup_insert_eq; cbn -[curl_until].



(** ** Slicing segments into chunks *)

(** C3. On the three segments of 100 KB the worker emits one chunk whose
    recorded length is 380928, where the specification asks for the lengths
    131072, 131072 and 45056 summing to 307200; the same happens with
    segments of libcurl's default size as soon as one of them straddles the
    end of a chunk.  Line 366 adds the whole remaining segment length to the
    chunk's length where line 365 copied [chunkSize] bytes only.  A transfer
    of exactly [kMaxChunksize] bytes emits the full chunk and then an empty
    one.  The width of [size_t] makes no difference. *)
Theorem chunk_lengths_differ_from_spec :
  emitted 32 three_segments = Some [380928]
  ∧ emitted 64 three_segments = Some [380928]
  ∧ spec_chunk_lengths (sum three_segments) = [131072; 131072; 45056]
  ∧ sum three_segments = 307200
  ∧ emitted 32 nine_segments = Some [131074]
  ∧ emitted 64 nine_segments = Some [131074]
  ∧ spec_chunk_lengths (sum nine_segments) = [131072; 1]
  ∧ sum nine_segments = 131073
  ∧ emitted 32 eight_segments = Some [131072; 0]
  ∧ emitted 64 eight_segments = Some [131072; 0]
  ∧ spec_chunk_lengths (sum eight_segments) = [131072].
Proof. by vm_compute. Qed.

(** C4. On the same inputs line 365 copies past the end of the chunk buffer:
    with three segments of 100 KB, 73728 bytes are written at offset 204800
    and 102400 bytes at offset 278528 of a buffer of 131072 bytes, and the
    chunk's length field ends at 380928.  With libcurl-sized segments one
    byte is written at offset 131073 and the length ends at 131074.  Both
    come from line 366, as in C3: once the length has passed
    [kMaxChunksize], [kMaxChunksize - length] wraps around and bounds
    nothing. *)
Theorem memcpy_overflows_chunk :
  overflows 32 three_segments
    = Some [Memcpy 0 278528 0 102400; Memcpy 0 204800 73728 73728]
  ∧ overflows 64 three_segments
    = Some [Memcpy 0 278528 0 102400; Memcpy 0 204800 73728 73728]
  ∧ overflows 32 nine_segments = Some [Memcpy 0 131073 1 1]
  ∧ overflows 64 nine_segments = Some [Memcpy 0 131073 1 1]
  ∧ emitted 32 nine_segments = Some [kMaxChunksize + 2]
  ∧ emitted 64 nine_segments = Some [kMaxChunksize + 2].
Proof. by vm_compute. Qed.



(** ** Initialisation failure *)

(** What line 443-445 leave in the [Download] and the queues. *)
Lemma init_failure_result (size_bits : Z) (download : handle) (s : State)
    (d : Download.t) :
  curl s = CInit download →
  heap s !! download = Some d →
  ∃ s',
    curlThread size_bits InitFailed s = Some s'
    ∧ heap s' !! download
      = Some (Download.with_result CURLE_OK (Some "curl-init-error"%string) d)
    ∧ resultsQueue s' = resultsQueue s ++ [download]
    ∧ progressQueue s' = progressQueue s
    ∧ curl s' = CWait.
Proof.
  intros Hpc Hd.
  destruct s as [hp nh jq rq pq rcq cnt tmo ml fr mn cl tr].
  cbn in *. subst cl. cbn. rewrite Hd. cbn.
  eexists. split; [reflexivity|]. cbn.
  by rewrite lookup_insert_eq.
Qed.

(** C5. When [curl_easy_init] fails, no progress callback runs and the
    completion callback runs once, with the static reason
    ["curl-init-error"]; but the result code it receives is 0, which is
    [CURLE_OK], the very code a successful transfer completes with. *)
Theorem init_failure_completes_with_CURLE_OK :
  trace <$> run 32 init_failure DownloadInit
    = Some [CompleteCallback 0 CURLE_OK (Some "curl-init-error"%string);
            ResultPushed 0; Submitted 0]
  ∧ trace <$> run 32 empty_success DownloadInit
    = Some [CompleteCallback 0 CURLE_OK (Some "curl-done"%string);
            ResultPushed 0; PerformStarted 0; Submitted 0].
Proof. by vm_compute. Qed.

(** ** Chunk buffers *)






(** ** A completion record dequeued too early *)

(** A worker step leaves alone every [Download] but its own, and the
    foreground thread's program counter; it takes jobs from the job queue and
    adds to the back of the results queue. *)
Lemma curlThread_frame (size_bits : Z) (i : Input) (s s' : State) (h : handle) :
  curlThread size_bits i s = Some s' →
  curl_handle (curl s) ≠ Some h →
  h ∉ jobQueue s →
  heap s' !! h = heap s !! h
  ∧ curl_handle (curl s') ≠ Some h
  ∧ (h ∉ jobQueue s')
  ∧ main s' = main s
  ∧ nextHandle s' = nextHandle s
  ∧ ∃ q, resultsQueue s' = resultsQueue s ++ q.
Proof.
  intros Hstep Hpc Hjob.
  destruct s as [hp nh jq rq pq rcq cnt tmo ml fr mn cl tr].
  cbn in *.
  destruct cl, i; curl_cases Hstep.
  all: rewrite ?lookup_insert_ne by congruence.
  all: try by (repeat split; eauto using app_nil_r; try congruence).
  destruct jq as [|j jq]; [done|]. cbn in *. simplify_eq.
  apply not_elem_of_cons in Hjob as [Hne Hjob].
  repeat split; eauto using app_nil_r. by intros [= ->].
Qed.

Lemma spinning_poll_step (h : handle) (s : State) :
  spinning h s →
  ∃ s', onDownloadQueuePoll_step s = (s', None) ∧ spinning h s'.
Proof.
  intros ((d & Hd & Hn) & Hlt & Hjob & Hcurl & Hmain).
  destruct s as [hp nh jq rq pq rcq cnt tmo ml fr mn cl tr].
  cbn in *. destruct Hmain as [-> | [-> (q & ->)]].
  - unfold onDownloadQueuePoll_step. cbn. rewrite Hd.
    destruct (Z.eqb_spec (Download.outstandingProgressItems d) 0); [done|].
    eexists. split; [reflexivity|].
    repeat split; cbn; eauto.
  - eexists. split; [reflexivity|].
    repeat split; cbn; eauto.
Qed.

Lemma spinning_step (size_bits : Z) (h : handle) (l : Label) (s s' : State) :
  spinning h s → step size_bits l s = Some s' → spinning h s'.
Proof.
  intros Hspin Hstep. destruct l as [options| | |i]; unfold step in Hstep.
  - destruct Hspin as ((d & Hd & Hn) & Hlt & Hjob & Hcurl & Hmain).
    assert (Hs' : s' = (DownloadNew options s).2).
    { destruct Hmain as [Hm | [Hm _]]; rewrite Hm in Hstep; congruence. }
    clear Hstep. subst s'.
    destruct s as [hp nh jq rq pq rcq cnt tmo ml fr mn cl tr].
    cbn in *.
    assert (h ≠ nh) by lia.
    destruct (cnt =? 0); unfold spinning; cbn.
    all: rewrite lookup_insert_ne by done.
    all: repeat split; eauto; try lia.
    all: rewrite elem_of_app, list_elem_of_singleton; by intros [?|?].
  - destruct Hspin as (_ & _ & _ & _ & [Hmain | [Hmain _]]);
      rewrite Hmain in Hstep; done.
  - destruct (spinning_poll_step h s Hspin) as (s1 & Hs1 & Hspin1).
    rewrite Hs1 in Hstep.
    destruct Hspin as (_ & _ & _ & _ & [Hmain | [Hmain _]]);
      rewrite Hmain in Hstep; by simplify_eq.
  - destruct Hspin as ((d & Hd & Hn) & Hlt & Hjob & Hcurl & Hmain).
    destruct (curlThread_frame size_bits i s s' h Hstep Hcurl Hjob)
      as (Hheap & Hcurl' & Hjob' & Hmain' & Hnext & q & Hq).
    split; [exists d; by rewrite Hheap|].
    rewrite Hnext, Hmain', Hq. repeat split; try done.
    destruct Hmain as [? | [? (q' & ->)]]; [by left | right].
    split; [done|]. by exists (q' ++ q).
Qed.

Lemma spinning_run (size_bits : Z) (h : handle) (ls : list Label)
    (s s' : State) :
  spinning h s → run size_bits ls s = Some s' → spinning h s'.
Proof.
  revert s. induction ls as [|l ls IH]; intros s Hspin Hrun; cbn in Hrun.
  - by simplify_eq.
  - apply bind_Some in Hrun as (s1 & Hstep & Hrun).
    eauto using spinning_step.
Qed.

Lemma spinning_never_returns (h : handle) (fuel : nat) (s : State) :
  spinning h s → onDownloadQueuePoll_from fuel s = None.
Proof.
  revert s. induction fuel as [|fuel IH]; intros s Hspin; [done|].
  destruct (spinning_poll_step h s Hspin) as (s1 & Hs1 & Hspin1).
  cbn. rewrite Hs1.
  assert (Hmain : main s1 ≠ MFault).
  { destruct Hspin1 as (_ & _ & _ & _ & [Hmain | [Hmain _]]);
      by rewrite Hmain. }
  destruct (main s1); by try apply IH.
Qed.

Lemma spinning_never_returns_at_all (size_bits : Z) (h : handle) (s : State) :
  spinning h s → never_returns size_bits h s.
Proof.
  intros Hspin. split.
  - intros fuel. by eapply spinning_never_returns.
  - intros ls s' Hrun.
    by destruct (spinning_run size_bits h ls s s' Hspin Hrun)
      as (_ & _ & _ & _ & ?).
Qed.

(** C2. The record the tick cannot deliver yet is pushed back where the next
    pop takes it, but the tick does not skip it and does not end: the loop of
    lines 276-305 pops the same record again at once, and since the chunks
    are only drained by the loop of lines 257-272, which has finished, the
    counter never reaches zero.  Here the tick dequeues the completion record
    of a [Download] whose only chunk was queued a moment earlier;
    [onDownloadQueuePoll] never returns, the chunk is never delivered and
    the completion callback never runs. *)
Theorem deferred_record_spins :
  early_dequeue_outcome 32 ∧ early_dequeue_outcome 64.
Proof.
  split.
  all: eexists; split; [by vm_compute|].
  all: do 4 (split; [by vm_compute|]).
  all: apply spinning_never_returns_at_all.
  all: split; [eexists; split; [by vm_compute | by vm_compute]|].
  all: split; [cbn; lia|].
  all: split; [cbn; apply not_elem_of_nil|].
  all: split; [by cbn | right; split; [done | by eexists]].
Qed.

(** ** The counter updated from both threads *)

(** C1. The tick calls the completion callback only when it reads zero from
    the counter, and the worker pushes every chunk before the completion
    record; but the counter can read zero while a chunk is queued.  In the
    run [lost_update] the completion callback of [Download] 0 is called, and the
    [Download] freed, while its second chunk of 1000 bytes is still in the
    progress queue; no progress callback was called for it, the timeout has
    been removed, and the next tick reads through the freed [Download]. *)
Theorem completion_before_last_chunk :
  lost_update_outcome 32 ∧ lost_update_outcome 64.
Proof. split; by vm_compute. Qed.

(** ** The counter when its updates are atomic *)

Lemma cons_split {A} (e x : A) (t newer older : list A) :
  e :: t = newer ++ x :: older →
  (newer = [] ∧ e = x ∧ older = t)
  ∨ ∃ newer', newer = e :: newer' ∧ t = newer' ++ x :: older.
Proof.
  destruct newer as [|e' newer']; cbn; intros [= -> ->]; eauto.
Qed.

Lemma tally_app {A} (f : A → bool) (l1 l2 : list A) :
  tally f (l1 ++ l2) = (tally f l1 + tally f l2)%nat.
Proof. induction l1 as [|x l1 IH]; cbn; [done | rewrite IH; lia]. Qed.

Lemma tally_zero {A} (f : A → bool) (l : list A) :
  tally f l = 0%nat ↔ ∀ x, x ∈ l → f x = false.
Proof.
  induction l as [|x l IH]; cbn.
  - split; [|done]. intros _ x Hx. by apply not_elem_of_nil in Hx.
  - split.
    + intros Hz y Hy. destruct (f x) eqn:Hfx; [lia|].
      apply elem_of_cons in Hy as [->|Hy]; [done|]. apply IH; [lia | done].
    + intros Hall. rewrite (Hall x) by apply list_elem_of_here.
      apply IH. intros y Hy. apply Hall. by apply list_elem_of_further.
Qed.

Lemma counter_insert (hp : gmap handle Download.t) (k h : handle)
    (d d' : Download.t) :
  hp !! k = Some d →
  Download.outstandingProgressItems d' = Download.outstandingProgressItems d →
  Download.outstandingProgressItems <$> <[k := d']> hp !! h
  = Download.outstandingProgressItems <$> hp !! h.
Proof.
  intros Hd Heq. destruct (decide (k = h)) as [->|].
  - rewrite lookup_insert_eq, Hd. cbn. by rewrite Heq.
  - by rewrite lookup_insert_ne.
Qed.

Lemma same_bounds_refl (s s' : State) :
  nextHandle s' = nextHandle s →
  jobQueue s' = jobQueue s →
  curl_handle (curl s') = curl_handle (curl s) →
  same_bounds s s'.
Proof.
  intros Hn Hj Hc. split; [done|]. rewrite Hj, Hc. split; eauto.
Qed.

Ltac keep_atomic := split; [by split|].

Ltac heap_simpl :=
  repeat match goal with
  | H : context [<[?k := _]> _ !! ?k] |- _ => rewrite lookup_insert_eq in H
  | |- context [<[?k := _]> _ !! ?k] => rewrite lookup_insert_eq
  | |- context [<[?k := _]> (<[?k := _]> _)] => rewrite insert_insert_eq
  | H : Some _ = Some _ |- _ => apply (inj Some) in H; subst
  end.

Lemma onDownloadQueuePoll_step_count (size_bits : Z) (s s' : State) :
  atomic s →
  step_atomic size_bits Main s = Some s' →
  atomic s' ∧ count_step s s'.
Proof.
  intros [Hmain Hcurl] Hstep.
  destruct s as [hp nh jq rq pq rcq cnt tmo ml fr mn cl tr].
  unfold step_atomic, step in Hstep. cbn in *.
  destruct mn as [| |progressItem|progressItem v| |completeItem|];
    try done; unfold onDownloadQueuePoll_step in Hstep; cbn in Hstep.
  - (* line 257 *)
    destruct pq as [|progressItem pq]; cbn in Hstep.
    + unfold finish_update in Hstep; cbn in Hstep. rewrite Hcurl in Hstep.
      simplify_eq. keep_atomic; apply cs_quiet; cbn; eauto using same_bounds_refl.
    + destruct (Item.context progressItem) as [h|] eqn:Hctx; cbn in Hstep.
      * destruct (hp !! h) as [d|] eqn:Hd; cbn in Hstep.
        -- unfold finish_update in Hstep; cbn in Hstep.
           rewrite Hcurl in Hstep. simplify_eq.
           keep_atomic; eapply (cs_deliver _ _ h); cbn; eauto using same_bounds_refl.
           ++ by rewrite Hctx.
           ++ destruct (DownloadOptions.progressCallback _); cbn;
                by rewrite bool_decide_eq_true_2.
        -- unfold finish_update in Hstep; cbn in Hstep.
           rewrite Hcurl in Hstep. simplify_eq.
           keep_atomic; apply cs_fault; cbn; eauto using same_bounds_refl.
           left. split; [done|]. right. eexists. split; [done|].
           rewrite Hctx. by intros ? [= <-].
      * unfold finish_update in Hstep; cbn in Hstep.
        rewrite Hcurl in Hstep. simplify_eq.
        keep_atomic; apply cs_fault; cbn; eauto using same_bounds_refl.
        left. split; [done|]. right. eexists. split; [done|].
        rewrite Hctx. by intros ? [=].
  - (* line 267, read and write *)
    destruct (Item.context progressItem) as [h|] eqn:Hctx; cbn in Hstep.
    + destruct (hp !! h) as [d|] eqn:Hd; cbn in Hstep.
      * unfold finish_update, step, onDownloadQueuePoll_step in Hstep.
        cbn in Hstep. rewrite Hctx, Hd in Hstep.
        destruct (is_int (Download.outstandingProgressItems d - 1)) eqn:Hint;
          cbn in Hstep; simplify_eq.
        -- keep_atomic; apply (cs_dec _ _ h d); cbn; eauto using same_bounds_refl.
        -- keep_atomic; apply cs_fault; cbn; eauto using same_bounds_refl.
           right. split; [done|]. intros h' n. rewrite Hctx. intros [= <-].
           unfold counter. cbn. rewrite Hd. cbn. by intros [= <-].
      * unfold finish_update in Hstep; cbn in Hstep.
        rewrite Hcurl in Hstep. simplify_eq.
        keep_atomic; apply cs_fault; cbn; eauto using same_bounds_refl.
        right. split; [done|]. intros h' n. rewrite Hctx. intros [= <-].
        unfold counter. cbn. by rewrite Hd.
    + unfold finish_update in Hstep; cbn in Hstep.
      rewrite Hcurl in Hstep. simplify_eq.
      keep_atomic; apply cs_fault; cbn; eauto using same_bounds_refl.
  - (* line 276 *)
    destruct rq as [|completeItem rq]; cbn in Hstep.
    + destruct (0 <? cnt); unfold finish_update in Hstep; cbn in Hstep;
        rewrite Hcurl in Hstep; simplify_eq;
        keep_atomic; apply cs_quiet; cbn; eauto using same_bounds_refl.
    + unfold finish_update in Hstep; cbn in Hstep. rewrite Hcurl in Hstep.
      simplify_eq. keep_atomic; apply cs_quiet; cbn; eauto using same_bounds_refl.
  - (* line 279 *)
    destruct (hp !! completeItem) as [d|] eqn:Hd; cbn in Hstep.
    + destruct (Z.eqb_spec (Download.outstandingProgressItems d) 0)
        as [Hzero|Hnonzero]; cbn in Hstep.
      * destruct (DownloadOptions.completeCallback (Download.options d));
          unfold finish_update in Hstep; cbn in Hstep;
          rewrite Hcurl in Hstep; simplify_eq;
          keep_atomic; apply (cs_complete _ _ completeItem d); cbn;
          eauto using same_bounds_refl.
      * unfold finish_update in Hstep; cbn in Hstep. rewrite Hcurl in Hstep.
        simplify_eq. keep_atomic; apply cs_quiet; cbn; eauto using same_bounds_refl.
    + unfold finish_update in Hstep; cbn in Hstep. rewrite Hcurl in Hstep.
      simplify_eq. keep_atomic; apply cs_fault; cbn; eauto using same_bounds_refl.
Qed.

Lemma DownloadNew_count (size_bits : Z) (options : DownloadOptions.t)
    (s s' : State) :
  atomic s →
  step_atomic size_bits (CallDownloadNew options) s = Some s' →
  atomic s' ∧ count_step s s'.
Proof.
  intros [Hmain Hcurl] Hstep.
  destruct s as [hp nh jq rq pq rcq cnt tmo ml fr mn cl tr].
  unfold step_atomic, step in Hstep. cbn in *.
  destruct mn; try done; cbn in Hstep; unfold finish_update in Hstep;
    destruct (cnt =? 0); cbn in Hstep; rewrite Hcurl in Hstep;
    simplify_eq; by keep_atomic; eapply cs_submit.
Qed.

Lemma Timeout_count (size_bits : Z) (s s' : State) :
  atomic s →
  step_atomic size_bits Timeout s = Some s' →
  atomic s' ∧ count_step s s'.
Proof.
  intros [Hmain Hcurl] Hstep.
  destruct s as [hp nh jq rq pq rcq cnt tmo ml fr mn cl tr].
  unfold step_atomic, step in Hstep. cbn in *.
  destruct mn, tmo; try done; cbn in Hstep.
  unfold finish_update in Hstep; cbn in Hstep. rewrite Hcurl in Hstep.
  simplify_eq. keep_atomic; apply cs_quiet; cbn; eauto using same_bounds_refl.
Qed.

Ltac finish_worker Hstep Hmain :=
  unfold finish_update in Hstep; cbn in Hstep; rewrite ?Hmain in Hstep;
  cbn in Hstep; simplify_eq.

Ltac bounds :=
  split; [done | split; [by cbn | cbn; intros ? ?; simplify_eq; by left]].

Ltac quiet_store Hd :=
  keep_atomic; apply cs_quiet; cbn;
  [ bounds
  | intros ?; unfold counter; cbn; rewrite ?insert_insert_eq;
    try (apply (counter_insert _ _ _ _ _ Hd)); by try destruct_download
  | done | done | done | eauto
  | first [ by left | right; eexists; (split; [|reflexivity]); done ] ]
with destruct_download :=
  match goal with
  | d : Download.t |- _ => destruct d; cbn in *
  end.

Lemma curlThread_count (size_bits : Z) (i : Input) (s s' : State) :
  atomic s →
  step_atomic size_bits (Curl i) s = Some s' →
  atomic s' ∧ count_step s s'.
Proof.
  intros [Hmain Hcurl] Hstep.
  destruct s as [hp nh jq rq pq rcq cnt tmo ml fr mn cl tr].
  unfold step_atomic, step in Hstep. cbn in Hmain, Hcurl.
  destruct cl as [|download|download|download segment segmentLength
                 |download k|download v k|download k|download result];
    destruct i as [| | |length|dlTotal dlCurrent|result'];
    try done; cbn in Hstep.
  - (* line 429 *)
    destruct jq as [|j jq]; [done|]. cbn in Hstep.
    finish_worker Hstep Hmain.
    keep_atomic; apply cs_quiet; cbn; eauto.
    repeat split; cbn; eauto.
    + intros h Hh. by apply list_elem_of_further.
    + intros h [= <-]. right. apply list_elem_of_here.
  - (* line 443 *)
    destruct (hp !! download) as [d|] eqn:Hd; [|done]. cbn in Hstep.
    finish_worker Hstep Hmain. quiet_store Hd.
  - (* line 463 *)
    finish_worker Hstep Hmain.
    keep_atomic; apply cs_quiet; cbn; eauto using same_bounds_refl.
    right. eexists. (split; [|reflexivity]); done.
  - (* line 351 *)
    destruct ((0 <=? length) && (length <? 2 ^ size_bits)); [|done].
    cbn in Hstep. finish_worker Hstep Hmain.
    keep_atomic; apply cs_quiet; cbn; eauto using same_bounds_refl.
  - (* line 409 *)
    destruct (hp !! download) as [d|] eqn:Hd; [|done]. cbn in Hstep.
    finish_worker Hstep Hmain. quiet_store Hd.
  - (* line 466 *)
    finish_worker Hstep Hmain.
    keep_atomic; apply cs_quiet; cbn; eauto using same_bounds_refl.
  - (* line 356 *)
    unfold onCURLDownloadSegment_step in Hstep.
    destruct (0 <? segmentLength); cbn in Hstep.
    + destruct (hp !! download) as [d|] eqn:Hd; [|done]. cbn in Hstep.
      destruct (Download.currentProgressItem d) as [progressItem|] eqn:Hslot;
        cbn in Hstep.
      * match type of Hstep with
        | context [if ?b then _ else _] => destruct b
        end.
        -- cbn in Hstep. finish_worker Hstep Hmain. quiet_store Hd.
        -- unfold resume, reload in Hstep. cbn in Hstep.
           rewrite lookup_insert_eq in Hstep. destruct d; cbn in *.
           finish_worker Hstep Hmain. quiet_store Hd.
      * unfold resume, reload in Hstep. cbn in Hstep.
        rewrite Hd in Hstep. cbn in Hstep. rewrite Hslot in Hstep.
        cbn in Hstep. finish_worker Hstep Hmain. quiet_store Hd.
    + finish_worker Hstep Hmain.
      keep_atomic; apply cs_quiet; cbn; eauto using same_bounds_refl.
  - (* line 331 *)
    destruct (hp !! download) as [d|] eqn:Hd; [|done]. cbn in Hstep.
    destruct (Download.currentProgressItem d) as [progressItem|] eqn:Hslot;
      cbn in Hstep.
    + (* lines 334-338, read and write *)
      unfold finish_update, step, curlThread in Hstep. cbn in Hstep.
      rewrite Hmain in Hstep. cbn in Hstep.
      rewrite lookup_insert_eq in Hstep. cbn in Hstep.
      destruct (is_int (Download.outstandingProgressItems d + 1)) eqn:Hint;
        [|done].
      simplify_eq. cbn. rewrite insert_insert_eq.
      destruct d as [o r why e l slot n]; cbn in *.
      keep_atomic; eapply (cs_inc _ _ download _ _
                (Item.mk (Some download) (Item.chunk progressItem)
                   (Item.length progressItem) e l));
        cbn; eauto; try done; [bounds|].
      apply andb_prop in Hint as [_ Hmax]. by apply Z.leb_le in Hmax.
    + destruct k as [segment segmentLength|result];
        unfold resume, reload in Hstep; cbn in Hstep.
      * rewrite Hd in Hstep. cbn in Hstep. rewrite Hslot in Hstep.
        cbn in Hstep. finish_worker Hstep Hmain. quiet_store Hd.
      * finish_worker Hstep Hmain.
        keep_atomic; apply cs_quiet; cbn; eauto using same_bounds_refl.
  - (* line 340 *)
    destruct (hp !! download) as [d|] eqn:Hd; [|done]. cbn in Hstep.
    destruct (Download.currentProgressItem d) as [progressItem|] eqn:Hslot;
      [|done].
    cbn in Hstep.
    destruct k as [segment segmentLength|result];
      unfold resume, reload in Hstep; cbn in Hstep.
    + rewrite lookup_insert_eq in Hstep.
      destruct d as [o r why e l slot n]; cbn in *.
      finish_worker Hstep Hmain.
      keep_atomic; eapply (cs_enqueue _ _ download _ progressItem); cbn; eauto;
        [bounds | by rewrite map_app |].
      intros h. unfold counter. cbn. rewrite insert_insert_eq.
      by apply (counter_insert _ _ _ _ _ Hd).
    + finish_worker Hstep Hmain.
      keep_atomic; eapply (cs_enqueue _ _ download _ progressItem); cbn; eauto;
        [bounds | by rewrite map_app |].
      intros h. unfold counter. cbn.
      apply (counter_insert _ _ _ _ _ Hd). by destruct d.
  - (* line 470 *)
    destruct (hp !! download) as [d|] eqn:Hd; [|done]. cbn in Hstep.
    finish_worker Hstep Hmain. quiet_store Hd.
Qed.

Lemma step_atomic_count (size_bits : Z) (l : Label) (s s' : State) :
  atomic s → step_atomic size_bits l s = Some s' →
  atomic s' ∧ count_step s s'.
Proof.
  destruct l; eauto using DownloadNew_count, Timeout_count,
    onDownloadQueuePoll_step_count, curlThread_count.
Qed.

Lemma counter_Some (s : State) (h : handle) (n : Z) :
  counter s h = Some n
  ↔ ∃ d, heap s !! h = Some d ∧ Download.outstandingProgressItems d = n.
Proof.
  unfold counter. destruct (heap s !! h) as [d|]; cbn.
  - split; [intros [= <-]; eauto | by intros (? & [= <-] & <-)].
  - split; [done | by intros (? & ? & _)].
Qed.

Lemma counter_alive (s s' : State) :
  (∀ h, counter s' h = counter s h) →
  ∀ h, is_Some (heap s' !! h) ↔ is_Some (heap s !! h).
Proof.
  intros Hsame h. specialize (Hsame h). unfold counter in Hsame.
  destruct (heap s' !! h), (heap s !! h); cbn in Hsame; done.
Qed.

Lemma pending_curl_handle (s : State) (h : handle) :
  pending s = Some h → curl_handle (curl s) = Some h.
Proof. unfold pending. by destruct (curl s). Qed.

Lemma silent_not_counted (e : Event) (h : handle) :
  silent e → is_pushed h e = false ∧ is_drained h e = false.
Proof. by destruct e. Qed.

Lemma drained_event (e : Event) (h h' : handle) :
  is_drained h e = true →
  ¬ silent e ∧ event_handle e = h ∧ is_pushed h' e = false
  ∧ is_drained h' e = bool_decide (h = h')
  ∧ ∀ h0 r why, e ≠ CompleteCallback h0 r why.
Proof.
  destruct e; cbn; try done.
  all: intros Hd; apply bool_decide_eq_true_1 in Hd as ->.
  all: repeat split; try done; by intros [].
Qed.

Lemma bounded_init : bounded DownloadInit.
Proof.
  split; cbn; try done.
  - intros h [d Hd]. by rewrite lookup_empty in Hd.
  - intros e He. by apply not_elem_of_nil in He.
  - intros h Hh. by apply not_elem_of_nil in Hh.
  - intros h Hh. by apply not_elem_of_nil in Hh.
Qed.

Lemma bounded_same (s s' : State) :
  bounded s →
  same_bounds s s' →
  (∀ h, is_Some (heap s' !! h) → is_Some (heap s !! h)) →
  (∀ e, e ∈ trace s' → ¬ silent e →
     e ∈ trace s ∨ (event_handle e < nextHandle s)%nat) →
  (∀ h, Some h ∈ contexts s' →
     Some h ∈ contexts s ∨ (h < nextHandle s)%nat) →
  (∀ h, held s' = Some h → held s = Some h ∨ Some h ∈ contexts s) →
  (∀ h d progressItem,
     pending s' = Some h → heap s' !! h = Some d →
     Download.currentProgressItem d = Some progressItem →
     Item.context progressItem = Some h
     ∨ ∃ d0, pending s = Some h ∧ heap s !! h = Some d0
             ∧ Download.currentProgressItem d0 = Some progressItem) →
  bounded s'.
Proof.
  intros [Ha He Hc Hh Hcl Hj Hsl] (Hn & Hjobs & Hcurl) Halive Hev Hctx Hheld
    Hslot.
  split; rewrite ?Hn.
  - eauto.
  - intros e Hin Hs. destruct (Hev e Hin Hs); eauto.
  - intros h Hin. destruct (Hctx h Hin); eauto.
  - intros h Hin. destruct (Hheld h Hin); eauto.
  - intros h Hin. destruct (Hcurl h Hin); eauto.
  - eauto.
  - intros h d progressItem Hp Hd Hi.
    destruct (Hslot h d progressItem Hp Hd Hi) as [|(d0 & Hp0 & Hd0 & Hi0)];
      eauto.
Qed.

Lemma bounded_step (s s' : State) :
  bounded s → count_step s s' → bounded s'.
Proof.
  intros Hb Hstep.
  destruct Hstep as
    [Hsb Hcnt Hctx Hheld Hpend Hheap Htr
    |Hsb Hmain Hheap Hpend Htr Hctx
    |d0 Hn Hheap Hzero Hjobs Hcurl Hctx Hheld Htr
    |h e Hsb Hheap Hctx Halive Hheld Hheld' Hpend He Htr
    |h d Hsb Hheld Hd Hheap Hheld' Hctx Hpend Htr
    |h d Hsb Hd Hzero Hheap Hheld Hheld' Hctx Hpend Htr
    |h d d' progressItem Hsb Hd Hheap Hcnt Hmax Hslot Hitem Hpend Hpend'
       Hctx Hheld Htr
    |h d progressItem Hsb Hpend Hd Hslot Hctx Hcnt Hpend' Hheld Htr].
  - apply (bounded_same s); try done.
    + intros h. by apply counter_alive.
    + intros e Hin Hs. left.
      destruct Htr as [Htr | (e' & Hsil & Htr)]; rewrite Htr in Hin; [done|].
      apply elem_of_cons in Hin as [-> | Hin]; done.
    + intros h. rewrite Hctx. eauto.
    + intros h. rewrite Hheld. eauto.
    + intros h d progressItem Hp Hd Hi. right.
      destruct Hheap as [Hnone | Hheap]; [congruence|].
      exists d. by rewrite <- Hpend, <- Hheap.
  - apply (bounded_same s); try done.
    + intros h. by rewrite Hheap.
    + intros e. rewrite Htr. eauto.
    + intros h Hin. left.
      destruct Hctx as [[_ [Hctx | (c & Hctx & _)]] | [Hctx _]];
        rewrite ?Hctx in *; try done.
      by apply list_elem_of_further.
    + intros h. unfold held at 1. by rewrite Hmain.
    + intros h d progressItem Hp Hd Hi. right.
      exists d. by rewrite <- Hpend, <- Hheap.
  - assert (Hpend : pending s' = pending s) by (unfold pending; by rewrite Hcurl).
    destruct Hb as [Ha He Hc Hh Hcl Hj Hsl].
    split; rewrite ?Hn, ?Hheap, ?Hjobs, ?Hcurl, ?Hctx, ?Hheld, ?Htr, ?Hpend.
    + intros h Hh'. destruct (decide (nextHandle s = h)) as [<-|]; [lia|].
      rewrite lookup_insert_ne in Hh' by done. apply Ha in Hh'. lia.
    + intros e Hin Hs. apply elem_of_cons in Hin as [-> | Hin]; [done|].
      specialize (He e Hin Hs). lia.
    + intros h Hin. apply Hc in Hin. lia.
    + intros h Hin. apply Hh in Hin. lia.
    + intros h Hin. apply Hcl in Hin. lia.
    + intros h Hin. apply elem_of_app in Hin as [Hin | Hin].
      * apply Hj in Hin. lia.
      * apply list_elem_of_singleton in Hin as ->. lia.
    + intros h d progressItem Hp Hd' Hi.
      assert (h < nextHandle s)%nat by by apply Hcl, pending_curl_handle.
      rewrite lookup_insert_ne in Hd' by lia. eauto.
  - apply (bounded_same s); try done.
    + intros h'. by rewrite Hheap.
    + intros e' Hin Hs. rewrite Htr in Hin.
      apply elem_of_cons in Hin as [-> | Hin]; [right | by left].
      destruct (drained_event e h h He) as (_ & -> & _).
      apply (bounded_contexts s Hb). rewrite Hctx. apply list_elem_of_here.
    + intros h' Hin. left. rewrite Hctx. by apply list_elem_of_further.
    + intros h'. rewrite Hheld'. intros [= <-]. right.
      rewrite Hctx. apply list_elem_of_here.
    + intros h' d progressItem Hp Hd Hi. right.
      exists d. by rewrite <- Hpend, <- Hheap.
  - apply (bounded_same s); try done.
    + intros h'. rewrite Hheap. intros Hh'.
      destruct (decide (h = h')) as [<-|]; [by rewrite Hd|].
      by rewrite lookup_insert_ne in Hh'.
    + intros e. rewrite Htr. eauto.
    + intros h'. rewrite Hctx. eauto.
    + intros h'. by rewrite Hheld'.
    + intros h' d' progressItem Hp Hd' Hi. right.
      rewrite Hheap in Hd'. rewrite Hpend in Hp.
      destruct (decide (h = h')) as [<-|].
      * rewrite lookup_insert_eq in Hd'. injection Hd' as <-.
        exists d. by destruct d.
      * rewrite lookup_insert_ne in Hd' by done. eauto.
  - apply (bounded_same s); try done.
    + intros h'. rewrite Hheap. intros Hh'.
      destruct (decide (h = h')) as [<-|].
      * by rewrite lookup_delete_eq in Hh'; destruct Hh'.
      * by rewrite lookup_delete_ne in Hh'.
    + intros e Hin Hs.
      destruct Htr as [Htr | (r & why & Htr)]; rewrite Htr in Hin;
        [by left|].
      apply elem_of_cons in Hin as [-> | Hin]; [right | by left].
      cbn. apply (bounded_alive s Hb). by rewrite Hd.
    + intros h'. rewrite Hctx. eauto.
    + intros h'. by rewrite Hheld'.
    + intros h' d' progressItem Hp Hd' Hi. right.
      rewrite Hheap in Hd'. rewrite Hpend in Hp.
      destruct (decide (h = h')) as [<-|].
      * by rewrite lookup_delete_eq in Hd'.
      * rewrite lookup_delete_ne in Hd' by done. eauto.
  - apply (bounded_same s); try done.
    + intros h'. rewrite Hheap. intros Hh'.
      destruct (decide (h = h')) as [<-|]; [by rewrite Hd|].
      by rewrite lookup_insert_ne in Hh'.
    + intros e. rewrite Htr. eauto.
    + intros h'. rewrite Hctx. eauto.
    + intros h'. rewrite Hheld. eauto.
    + intros h' d0 progressItem' Hp Hd' Hi. left.
      rewrite Hpend' in Hp. injection Hp as <-.
      rewrite Hheap, lookup_insert_eq in Hd'. injection Hd' as <-.
      congruence.
  - assert (Hh : (h < nextHandle s)%nat).
    { by apply (bounded_curl s Hb), pending_curl_handle. }
    assert (Hitem : Item.context progressItem = Some h).
    { by eapply (bounded_slot s Hb). }
    apply (bounded_same s); try done.
    + intros h'. by apply counter_alive.
    + intros e Hin Hs. rewrite Htr in Hin.
      apply elem_of_cons in Hin as [-> | Hin]; [by right | by left].
    + intros h' Hin. rewrite Hctx, Hitem in Hin.
      apply elem_of_app in Hin as [Hin | Hin]; [by left|].
      apply list_elem_of_singleton in Hin as [= ->]. by right.
    + intros h'. rewrite Hheld. eauto.
    + intros h' d0 progressItem' Hp. congruence.
Qed.

Lemma one_if_None (h : handle) : one_if None h = 0.
Proof. done. Qed.

Lemma one_if_Some (h h' : handle) :
  one_if (Some h) h' = if bool_decide (h = h') then 1 else 0.
Proof.
  unfold one_if, is_handle.
  destruct (decide (h = h')) as [->|Hne].
  - by rewrite !bool_decide_eq_true_2.
  - rewrite !bool_decide_eq_false_2; [done | done | by intros [= ->]].
Qed.

Lemma one_if_range (o : option handle) (h : handle) : 0 ≤ one_if o h ≤ 1.
Proof. unfold one_if. destruct (is_handle h o); lia. Qed.

Lemma is_handle_Some (h h' : handle) :
  is_handle h' (Some h) = bool_decide (h = h').
Proof.
  unfold is_handle. destruct (decide (h = h')) as [->|Hne].
  - by rewrite !bool_decide_eq_true_2.
  - rewrite !bool_decide_eq_false_2; [done | done | by intros [= ->]].
Qed.

Lemma none_above (n : handle) (t : list Event) :
  (∀ e, e ∈ t → ¬ silent e → (event_handle e < n)%nat) →
  pushed n t = 0%nat ∧ drained n t = 0%nat.
Proof.
  intros Hbound. unfold pushed, drained. split; apply tally_zero.
  all: intros e He; specialize (Hbound e He); destruct e; cbn in *; try done.
  all: apply bool_decide_eq_false_2; intros ->.
  all: assert (n < n)%nat by (apply Hbound; tauto); lia.
Qed.

Lemma none_queued_above (n : handle) (l : list (option handle)) :
  (∀ h, Some h ∈ l → (h < n)%nat) → tally (is_handle n) l = 0%nat.
Proof.
  intros Hbound. apply tally_zero. intros c Hc.
  apply bool_decide_eq_false_2. intros ->. apply Hbound in Hc. lia.
Qed.

Lemma completions_last_cons (t : list Event) (e : Event) :
  completions_last t →
  (∀ h r why, CompleteCallback h r why ∈ t →
     is_pushed h e = false ∧ is_drained h e = false) →
  (∀ h r why, e = CompleteCallback h r why → pushed h t = drained h t) →
  completions_last (e :: t).
Proof.
  intros Hlast Hother Hthis newer older h r why Hsplit.
  apply cons_split in Hsplit as [(-> & -> & ->) | (newer' & -> & ->)].
  - split; [by eapply Hthis | done].
  - destruct (Hlast newer' older h r why eq_refl) as (Ha & Hb & Hc).
    destruct (Hother h r why) as [Hp Hd].
    { apply elem_of_app. right. apply list_elem_of_here. }
    unfold pushed, drained in *. cbn. rewrite Hp, Hd. by repeat split.
Qed.

Lemma counted_init : counted DownloadInit.
Proof.
  split; cbn.
  - intros h n. unfold counter. cbn. by rewrite lookup_empty.
  - intros h [d Hd]. by rewrite lookup_empty in Hd.
  - intros h r why Hin. by apply not_elem_of_nil in Hin.
  - intros [|] ? ? ? ? [=].
Qed.

Lemma dead_not_alive (s : State) (h h' : handle) (r : Z) (why : option string) :
  counted s →
  CompleteCallback h r why ∈ trace s →
  is_Some (heap s !! h') →
  h' ≠ h.
Proof.
  intros Hc Hin [d Hd] ->.
  by rewrite (counted_completed s Hc h r why Hin) in Hd.
Qed.

Lemma counted_step (s s' : State) :
  bounded s → counted s → count_step s s' → counted s'.
Proof.
  intros Hb Hc Hstep.
  destruct Hstep as
    [Hsb Hcnt Hctx Hheld Hpend Hheap Htr
    |Hsb Hmain Hheap Hpend Htr Hctx
    |d0 Hn Hheap Hzero Hjobs Hcurl Hctx Hheld Htr
    |h e Hsb Hheap Hctx Halive Hheld Hheld' Hpend He Htr
    |h d Hsb Hheld Hd Hheap Hheld' Hctx Hpend Htr
    |h d Hsb Hd Hzero Hheap Hheld Hheld' Hctx Hpend Htr
    |h d d' progressItem Hsb Hd Hheap Hcnt Hmax Hslot Hitem Hpend Hpend'
       Hctx Hheld Htr
    |h d progressItem Hsb Hpend Hd Hslot Hctx Hcnt Hpend' Hheld Htr].
  - (* nothing counted changes *)
    assert (Hpd : ∀ h, pushed h (trace s') = pushed h (trace s)
                       ∧ drained h (trace s') = drained h (trace s)).
    { intros h. destruct Htr as [-> | (e & Hsil & ->)]; [done|].
      unfold pushed, drained. cbn.
      by destruct (silent_not_counted e h Hsil) as [-> ->]. }
    split.
    + intros h n. rewrite Hcnt. unfold queued. rewrite Hctx, Hheld, Hpend.
      apply (counted_counter s Hc).
    + intros h Hal. apply (counter_alive _ _ Hcnt) in Hal.
      destruct (Hpd h) as [-> ->]. unfold queued. rewrite Hctx.
      by apply (counted_balance s Hc).
    + intros h r why Hin.
      assert (Hin' : CompleteCallback h r why ∈ trace s).
      { destruct Htr as [<- | (e & Hsil & Htr)]; [done|].
        rewrite Htr in Hin. apply elem_of_cons in Hin as [<- | Hin]; done. }
      apply (counted_completed s Hc) in Hin'.
      destruct (heap s' !! h) eqn:Hh; [|done].
      assert (is_Some (heap s !! h)) as [? ?];
        [by apply (counter_alive _ _ Hcnt) | congruence].
    + destruct Htr as [-> | (e & Hsil & ->)];
        [apply (counted_completions s Hc)|].
      apply completions_last_cons; [apply (counted_completions s Hc) | |].
      * intros h _ _ _. by apply silent_not_counted.
      * intros h r why ->. done.
  - (* the foreground thread stops on undefined behaviour *)
    assert (Hheld' : held s' = None) by (unfold held; by rewrite Hmain).
    assert (Hcnt : ∀ h, counter s' h = counter s h)
      by (intros h; unfold counter; by rewrite Hheap).
    assert (Hkey : ∀ h, is_Some (heap s !! h) →
              queued h s' = queued h s ∧ one_if (held s) h = 0).
    { intros h [d Hd]. unfold queued.
      destruct Hctx as [[Hnone [-> | (c & -> & Hdead)]] | [-> Hover]].
      - by rewrite Hnone.
      - rewrite Hnone. split; [|done]. cbn.
        destruct (is_handle h c) eqn:Hch; [|done].
        apply bool_decide_eq_true_1 in Hch. apply Hdead in Hch. congruence.
      - split; [done|]. unfold one_if.
        destruct (is_handle h (held s)) eqn:Hh; [|done].
        apply bool_decide_eq_true_1 in Hh.
        assert (Hn : counter s h = Some (Download.outstandingProgressItems d))
          by (unfold counter; by rewrite Hd).
        destruct (counted_counter s Hc h _ Hn) as [Heq Hmax].
        specialize (Hover h _ Hh Hn).
        unfold one_if in Heq. rewrite Hh, is_handle_Some in Heq.
        rewrite bool_decide_eq_true_2 in Heq by done.
        apply andb_false_iff in Hover as [Hover | Hover];
          apply Z.leb_gt in Hover; unfold INT_MIN, INT_MAX in *;
          destruct (is_handle h (pending s)); lia. }
    split.
    + intros h n Hn. rewrite Hcnt in Hn.
      destruct (counted_counter s Hc h n Hn) as [Heq Hmax].
      split; [|done]. apply counter_Some in Hn as (d & Hd & _).
      destruct (Hkey h) as [Hq Hh]; [by eexists|].
      rewrite Hq, Hheld', Hpend, one_if_None. lia.
    + intros h Hal. rewrite Hheap in Hal. rewrite Htr.
      destruct (Hkey h Hal) as [-> _]. by apply (counted_balance s Hc).
    + intros h r why. rewrite Htr, Hheap. apply (counted_completed s Hc).
    + rewrite Htr. apply (counted_completions s Hc).
  - (* a new Download *)
    assert (Hpend : pending s' = pending s)
      by (unfold pending; by rewrite Hcurl).
    assert (Hq0 : queued (nextHandle s) s = 0%nat).
    { apply none_queued_above, (bounded_contexts s Hb). }
    assert (Hh0 : one_if (held s) (nextHandle s) = 0).
    { destruct (held s) as [h|] eqn:Hh; [|done].
      apply (bounded_held s Hb) in Hh. rewrite one_if_Some.
      rewrite bool_decide_eq_false_2; [done | lia]. }
    assert (Hp0 : one_if (pending s) (nextHandle s) = 0).
    { destruct (pending s) as [h|] eqn:Hp; [|done].
      apply pending_curl_handle, (bounded_curl s Hb) in Hp.
      rewrite one_if_Some. rewrite bool_decide_eq_false_2; [done | lia]. }
    destruct (none_above (nextHandle s) (trace s) (bounded_events s Hb))
      as [Hpu0 Hdr0].
    split.
    + intros h n Hn'. unfold queued. rewrite Hctx, Hheld, Hpend.
      unfold counter in Hn'. rewrite Hheap in Hn'.
      destruct (decide (nextHandle s = h)) as [<-|Hne].
      * rewrite lookup_insert_eq in Hn'. cbn in Hn'. injection Hn' as <-.
        fold (queued (nextHandle s) s). rewrite Hq0, Hh0, Hp0, Hzero.
        unfold INT_MAX. lia.
      * rewrite lookup_insert_ne in Hn' by done.
        by apply (counted_counter s Hc).
    + intros h Hal. rewrite Hheap in Hal. rewrite Htr.
      unfold queued. rewrite Hctx. unfold pushed, drained. cbn.
      destruct (decide (nextHandle s = h)) as [<-|Hne].
      * fold (pushed (nextHandle s) (trace s)).
        fold (drained (nextHandle s) (trace s)).
        fold (queued (nextHandle s) s). by rewrite Hpu0, Hdr0, Hq0.
      * rewrite lookup_insert_ne in Hal by done.
        by apply (counted_balance s Hc).
    + intros h r why Hin. rewrite Htr in Hin.
      apply elem_of_cons in Hin as [[=] | Hin].
      assert (h < nextHandle s)%nat.
      { apply (bounded_events s Hb _ Hin). by intros []. }
      rewrite Hheap, lookup_insert_ne by lia.
      by apply (counted_completed s Hc) in Hin.
    + rewrite Htr.
      apply completions_last_cons; [apply (counted_completions s Hc) | |];
        done.
  - (* a chunk is popped and delivered *)
    assert (Hq : ∀ h', queued h' s
              = ((if bool_decide (h = h') then 1 else 0) + queued h' s')%nat).
    { intros h'. unfold queued. rewrite Hctx. cbn. by rewrite is_handle_Some. }
    assert (Hcnt : ∀ h, counter s' h = counter s h)
      by (intros h'; unfold counter; by rewrite Hheap).
    split.
    + intros h' n Hn. rewrite Hcnt in Hn.
      destruct (counted_counter s Hc h' n Hn) as [Heq Hmax].
      split; [|done]. rewrite Hheld', Hpend, one_if_Some.
      rewrite Hheld, one_if_None, Hq in Heq.
      destruct (bool_decide (h = h')); lia.
    + intros h' Hal. rewrite Hheap in Hal. rewrite Htr.
      destruct (drained_event e h h' He) as (_ & _ & Hp & Hd & _).
      unfold pushed, drained. cbn. rewrite Hp, Hd.
      pose proof (counted_balance s Hc h' Hal) as Hbal.
      rewrite Hq in Hbal. unfold pushed, drained in Hbal.
      destruct (bool_decide (h = h')); lia.
    + intros h' r why Hin. rewrite Htr in Hin. rewrite Hheap.
      apply elem_of_cons in Hin as [Heq | Hin].
      * by destruct (drained_event e h h He) as (_ & _ & _ & _ & Hne),
          (Hne h' r why).
      * by apply (counted_completed s Hc) in Hin.
    + rewrite Htr.
      apply completions_last_cons; [apply (counted_completions s Hc) | |].
      * intros h' r why Hin.
        destruct (drained_event e h h' He) as (_ & _ & Hp & Hd & _).
        rewrite Hp, Hd. split; [done|]. apply bool_decide_eq_false_2.
        by eapply dead_not_alive.
      * intros h' r why Heq.
        by destruct (drained_event e h h He) as (_ & _ & _ & _ & Hne),
          (Hne h' r why).
  - (* line 267: the chunk delivered is counted off *)
    assert (Hal : ∀ h', is_Some (heap s' !! h') → is_Some (heap s !! h')).
    { intros h'. rewrite Hheap.
      destruct (decide (h = h')) as [<-|]; [by rewrite Hd|].
      by rewrite lookup_insert_ne. }
    split.
    + intros h' n Hn. unfold queued. rewrite Hctx, Hheld', Hpend, one_if_None.
      unfold counter in Hn. rewrite Hheap in Hn.
      destruct (decide (h = h')) as [<-|Hne].
      * rewrite lookup_insert_eq in Hn. cbn in Hn. injection Hn as <-.
        assert (Hn : counter s h = Some (Download.outstandingProgressItems d))
          by (unfold counter; by rewrite Hd).
        destruct (counted_counter s Hc h _ Hn) as [Heq Hmax].
        rewrite Hheld, one_if_Some, bool_decide_eq_true_2 in Heq by done.
        unfold queued in Heq. destruct d; cbn in *. lia.
      * rewrite lookup_insert_ne in Hn by done.
        destruct (counted_counter s Hc h' n Hn) as [Heq Hmax].
        rewrite Hheld, one_if_Some, bool_decide_eq_false_2 in Heq by done.
        unfold queued in Heq. split; [lia | done].
    + intros h' Hh'. rewrite Htr. unfold queued. rewrite Hctx.
      by apply (counted_balance s Hc), Hal.
    + intros h' r why Hin. rewrite Htr in Hin.
      assert (h ≠ h') by (eapply dead_not_alive; by eauto).
      rewrite Hheap, lookup_insert_ne by done.
      by apply (counted_completed s Hc) in Hin.
    + rewrite Htr. apply (counted_completions s Hc).
  - (* line 287: completion *)
    assert (Hq : queued h s = 0%nat).
    { assert (Hn : counter s h = Some 0)
        by (unfold counter; rewrite Hd; cbn; by rewrite Hzero).
      destruct (counted_counter s Hc h _ Hn) as [Heq _].
      pose proof (one_if_range (held s) h).
      pose proof (one_if_range (pending s) h). lia. }
    split.
    + intros h' n Hn. unfold queued. rewrite Hctx, Hheld', Hpend.
      unfold counter in Hn. rewrite Hheap in Hn.
      destruct (decide (h = h')) as [<-|Hne];
        [by rewrite lookup_delete_eq in Hn|].
      rewrite lookup_delete_ne in Hn by done.
      rewrite <- Hheld. by apply (counted_counter s Hc).
    + intros h' Hh'. rewrite Hheap in Hh'.
      destruct (decide (h = h')) as [<-|Hne];
        [by rewrite lookup_delete_eq in Hh'; destruct Hh'|].
      rewrite lookup_delete_ne in Hh' by done.
      unfold queued. rewrite Hctx.
      destruct Htr as [-> | (r & why & ->)];
        by apply (counted_balance s Hc).
    + intros h' r' why' Hin. rewrite Hheap.
      destruct (decide (h = h')) as [<-|Hne];
        [by rewrite lookup_delete_eq|].
      rewrite lookup_delete_ne by done.
      apply (counted_completed s Hc _ r' why').
      destruct Htr as [Htr | (r & why & Htr)]; rewrite Htr in Hin; [done|].
      apply elem_of_cons in Hin as [[= <- _ _] | Hin]; done.
    + destruct Htr as [-> | (r & why & ->)];
        [apply (counted_completions s Hc)|].
      apply completions_last_cons; [apply (counted_completions s Hc) | |].
      * done.
      * intros h' r' why' [= <- _ _].
        rewrite (counted_balance s Hc h), Hq by (by rewrite Hd). lia.
  - (* line 338: the chunk about to be pushed is counted *)
    assert (Hal : ∀ h', is_Some (heap s' !! h') → is_Some (heap s !! h')).
    { intros h'. rewrite Hheap.
      destruct (decide (h = h')) as [<-|]; [by rewrite Hd|].
      by rewrite lookup_insert_ne. }
    split.
    + intros h' n Hn. unfold queued. rewrite Hctx, Hheld, Hpend', one_if_Some.
      unfold counter in Hn. rewrite Hheap in Hn.
      destruct (decide (h = h')) as [<-|Hne].
      * rewrite lookup_insert_eq in Hn. cbn in Hn. injection Hn as <-.
        assert (Hn : counter s h = Some (Download.outstandingProgressItems d))
          by (unfold counter; by rewrite Hd).
        destruct (counted_counter s Hc h _ Hn) as [Heq _].
        rewrite Hpend, one_if_None in Heq. unfold queued in Heq.
        rewrite bool_decide_eq_true_2 by done. split; [lia | done].
      * rewrite lookup_insert_ne in Hn by done.
        destruct (counted_counter s Hc h' n Hn) as [Heq Hmax'].
        rewrite Hpend, one_if_None in Heq. unfold queued in Heq.
        rewrite bool_decide_eq_false_2 by done. split; [lia | done].
    + intros h' Hh'. rewrite Htr. unfold queued. rewrite Hctx.
      by apply (counted_balance s Hc), Hal.
    + intros h' r why Hin. rewrite Htr in Hin.
      assert (h ≠ h') by (eapply dead_not_alive; by eauto).
      rewrite Hheap, lookup_insert_ne by done.
      by apply (counted_completed s Hc) in Hin.
    + rewrite Htr. apply (counted_completions s Hc).
  - (* line 340: the chunk is pushed *)
    assert (Hitem : Item.context progressItem = Some h)
      by by eapply (bounded_slot s Hb).
    assert (Hq : ∀ h', queued h' s'
              = (queued h' s + (if bool_decide (h = h') then 1 else 0))%nat).
    { intros h'. unfold queued. rewrite Hctx, tally_app, Hitem. cbn.
      rewrite is_handle_Some. lia. }
    split.
    + intros h' n Hn. rewrite Hcnt in Hn.
      destruct (counted_counter s Hc h' n Hn) as [Heq Hmax].
      split; [|done]. rewrite Hheld, Hpend', one_if_None, Hq.
      rewrite Hpend, one_if_Some in Heq.
      destruct (bool_decide (h = h')); lia.
    + intros h' Hh'. apply (counter_alive _ _ Hcnt) in Hh'.
      pose proof (counted_balance s Hc h' Hh') as Hbal.
      rewrite Htr, Hq. unfold pushed, drained in *. cbn.
      destruct (bool_decide (h = h')); lia.
    + intros h' r why Hin. rewrite Htr in Hin.
      apply elem_of_cons in Hin as [[=] | Hin].
      apply (counted_completed s Hc) in Hin.
      destruct (heap s' !! h') eqn:Hh'; [|done].
      assert (is_Some (heap s !! h')) as [? ?];
        [by apply (counter_alive _ _ Hcnt) | congruence].
    + rewrite Htr.
      apply completions_last_cons; [apply (counted_completions s Hc) | |].
      * intros h' r why Hin. split; [|done]. cbn.
        apply bool_decide_eq_false_2.
        eapply dead_not_alive; by eauto.
      * done.
Qed.

Lemma run_atomic_counted (size_bits : Z) (ls : list Label) (s s' : State) :
  atomic s → bounded s → counted s →
  run_atomic size_bits ls s = Some s' →
  atomic s' ∧ bounded s' ∧ counted s'.
Proof.
  revert s. induction ls as [|l ls IH]; intros s Ha Hb Hc Hrun; cbn in Hrun.
  - by simplify_eq.
  - apply bind_Some in Hrun as (s1 & Hstep & Hrun).
    destruct (step_atomic_count size_bits l s s1 Ha Hstep) as [Ha1 Hcs].
    eauto using bounded_step, counted_step.
Qed.

(** An atomic run is a run of the program. *)
Lemma run_app (size_bits : Z) (ls1 ls2 : list Label) (s : State) :
  run size_bits (ls1 ++ ls2) s
  = run size_bits ls1 s ≫= run size_bits ls2.
Proof.
  revert s. induction ls1 as [|l ls1 IH]; intros s; cbn; [done|].
  destruct (step size_bits l s) as [s1|]; cbn; [apply IH | done].
Qed.

Lemma run_atomic_run (size_bits : Z) (ls : list Label) (s s' : State) :
  run_atomic size_bits ls s = Some s' →
  ∃ ls', run size_bits ls' s = Some s'.
Proof.
  revert s. induction ls as [|l ls IH]; intros s Hrun; cbn in Hrun.
  - exists []. done.
  - apply bind_Some in Hrun as (s2 & Hstep & Hrun).
    destruct (IH s2 Hrun) as (ls' & Hls').
    unfold step_atomic in Hstep.
    apply bind_Some in Hstep as (s1 & Hstep1 & Hfin).
    unfold finish_update in Hfin.
    destruct (main_updating (main s1));
      [|destruct (curl_updating (curl s1))].
    + exists (l :: Main :: ls'). cbn -[step]. rewrite Hstep1. cbn -[step].
      by rewrite Hfin.
    + exists (l :: Curl Next :: ls'). cbn -[step]. rewrite Hstep1.
      cbn -[step]. by rewrite Hfin.
    + exists (l :: ls'). cbn -[step]. rewrite Hstep1. cbn -[step].
      by simplify_eq.
Qed.

(** X12. In every run in which lines 267 and 338 are carried out
    atomically, all the chunks ever pushed for a [Download] have been
    delivered, to the progress callback or dropped, before its completion
    callback is called. *)
Theorem completion_after_chunks_when_atomic (size_bits : Z) (ls : list Label)
    (s : State) (h : handle) (r : Z) (why : option string)
    (newer older : list Event) :
  run_atomic size_bits ls DownloadInit = Some s →
  trace s = newer ++ CompleteCallback h r why :: older →
  pushed h (trace s) = drained h older.
Proof.
  intros Hrun Hsplit.
  destruct (run_atomic_counted size_bits ls DownloadInit s) as (_ & _ & Hc);
    [done | apply bounded_init | apply counted_init | done |].
  destruct (counted_completions s Hc _ _ _ _ _ Hsplit) as (Hold & Hnew & _).
  rewrite Hsplit. unfold pushed in *. rewrite tally_app. cbn.
  rewrite Hnew, Hold. done.
Qed.

Lemma completion_after_chunks_when_atomic_witness :
  pushed 0 (trace atomic_job_state)
  = drained 0 [ProgressCallback 0 1000 1000 0; ResultPushed 0;
               ChunkPushed 0 1000; Memcpy 0 0 0 1000; PerformStarted 0;
               Submitted 0].
Proof.
  apply (completion_after_chunks_when_atomic 32 atomic_job atomic_job_state
           0%nat 0 (Some "curl-done"%string) []).
  - reflexivity.
  - reflexivity.
Defined.

Example atomic_job_deliveries :
  deliveries <$> run_atomic 32 atomic_job DownloadInit
  = Some [ChunkPushed 0 1000; ResultPushed 0; ProgressCallback 0 1000 1000 0;
          CompleteCallback 0 CURLE_OK (Some "curl-done"%string)].
Proof. by vm_compute. Qed.

(** ** The order in which the worker takes its jobs *)

Lemma DownloadNew_view (options : DownloadOptions.t) (s : State) :
  view_step s (DownloadNew options s).2.
Proof.
  destruct s as [hp nh jq rq pq rcq cnt tmo ml fr mn cl tr].
  apply view_submit; cbn; by destruct (cnt =? 0).
Qed.

Lemma onDownloadQueuePoll_step_view (s s' : State) (r : option bool) :
  onDownloadQueuePoll_step s = (s', r) → view_step s s'.
Proof.
  intros Hstep.
  destruct s as [hp nh jq rq pq rcq cnt tmo ml fr mn cl tr].
  unfold onDownloadQueuePoll_step in Hstep. cbn in Hstep.
  repeat case_match; simplify_eq; cbn in *.
  all: apply view_quiet; cbn; eauto.
  all: right; eexists; (split; [|reflexivity]); done.
Qed.

Lemma with_timeouts_view (n : nat) (s s' : State) :
  view_step s s' → view_step s (with_timeouts n s').
Proof.
  destruct s' as [hp nh jq rq pq rcq cnt tmo ml fr mn cl tr].
  intros [| | | |]; cbn in *.
  - by apply view_quiet.
  - by apply view_submit.
  - by eapply view_claim.
  - by eapply view_start.
  - by eapply view_result.
Qed.

Lemma curlThread_view (size_bits : Z) (i : Input) (s s' : State) :
  curlThread size_bits i s = Some s' → view_step s s'.
Proof.
  intros Hstep.
  destruct s as [hp nh jq rq pq rcq cnt tmo ml fr mn cl tr].
  destruct cl, i; curl_cases Hstep.
  all: try (apply view_quiet; cbn; eauto; right; eexists;
            (split; [|reflexivity]); done).
  - destruct jq as [|j jq]; cbn in *; simplify_eq. by eapply view_claim.
  - by apply (view_result _ _ download).
  - by apply (view_start _ _ download).
  - by apply (view_result _ _ download).
Qed.

Lemma step_view (size_bits : Z) (l : Label) (s s' : State) :
  step size_bits l s = Some s' → view_step s s'.
Proof.
  destruct l as [options| | |i]; unfold step; intros Hstep.
  - destruct (main s); simplify_eq; apply DownloadNew_view.
  - destruct s as [hp nh jq rq pq rcq cnt tmo ml fr mn cl tr].
    cbn in Hstep. destruct mn, tmo; simplify_eq.
    apply view_quiet; cbn; eauto.
  - destruct (onDownloadQueuePoll_step s) as [s1 r] eqn:Hpoll.
    apply onDownloadQueuePoll_step_view in Hpoll.
    destruct (main s), r as [[]|]; simplify_eq;
      by try apply with_timeouts_view.
  - by eapply curlThread_view.
Qed.

Lemma ordered_init : ordered DownloadInit.
Proof.
  split; cbn.
  - intros h Hin. by apply not_elem_of_nil in Hin.
  - intros [|] ? ? [=].
  - constructor.
  - constructor.
  - lia.
  - done.
  - intros [|] ? ? [=].
Qed.

Lemma ordered_quiet (s s' : State) :
  ordered s →
  nextHandle s' = nextHandle s →
  jobQueue s' = jobQueue s →
  curl_handle (curl s') = curl_handle (curl s) →
  trace s' = trace s ∨ (∃ e, quiet e ∧ trace s' = e :: trace s) →
  ordered s'.
Proof.
  intros [H1 H2 H3 H4 H5 H6 H7] Hn Hj Hc Ht.
  assert (Hgrow : ∀ e, e ∈ trace s → e ∈ trace s').
  { intros e He. destruct Ht as [-> | (e' & _ & ->)]; [done|].
    by apply list_elem_of_further. }
  split; rewrite ?Hn, ?Hj, ?Hc; try done.
  - intros h Hin. apply H1.
    destruct Ht as [<- | (e & Hq & Ht)]; [done|].
    rewrite Ht in Hin. apply elem_of_cons in Hin as [<-|]; [|done].
    exfalso; exact Hq.
  - intros newer older h2 Hsplit.
    destruct Ht as [Ht | (e & Hq & Ht)]; rewrite Ht in Hsplit; [by eauto|].
    apply cons_split in Hsplit as [(_ & -> & _) | (n' & _ & Hsplit)];
      [exfalso; exact Hq | by eauto].
  - intros h Hh. destruct (H5 h Hh) as [|[|]]; eauto.
  - intros h2 Hh2 h1 Hlt. eauto.
  - intros newer older h2 Hsplit.
    destruct Ht as [Ht | (e & Hq & Ht)]; rewrite Ht in Hsplit; [by eauto|].
    apply cons_split in Hsplit as [(_ & -> & _) | (n' & _ & Hsplit)];
      [exfalso; exact Hq | by eauto].
Qed.

Lemma ordered_view_step (s s' : State) :
  ordered s → view_step s s' → ordered s'.
Proof.
  intros Hord Hstep.
  destruct Hstep as [Hn Hj Hc Ht | Hn Hj Hc Ht | h Hn Hj Hc Hc' Ht
                    | h Hn Hj Hc Hc' Ht | h Hn Hj Hc Hc' Ht].
  - by eapply ordered_quiet.
  - destruct Hord as [H1 H2 H3 H4 H5 H6 H7].
    split; rewrite ?Hn, ?Hj, ?Hc, ?Ht.
    + intros h Hin. apply elem_of_cons in Hin as [[= ->] | Hin]; [lia|].
      apply H1 in Hin. lia.
    + intros newer older h2 Hsplit.
      apply cons_split in Hsplit as [(_ & [= <-] & ->) | (n' & _ & Hsplit)];
        by eauto.
    + apply StronglySorted_app_2; [|done | repeat constructor].
      intros x y Hx Hy. apply list_elem_of_singleton in Hy as ->.
      by eapply Forall_forall in H4.
    + apply Forall_app. split; [|repeat constructor].
      eapply Forall_impl; [exact H4|]. cbn. lia.
    + intros h Hh. rewrite elem_of_app, list_elem_of_singleton.
      destruct (decide (h = nextHandle s)) as [->|]; [by eauto|].
      destruct (H5 h) as [|[|]]; eauto; [lia|].
      right; right. by apply list_elem_of_further.
    + intros h2 Hh2 h1 Hlt. apply list_elem_of_further. eauto.
    + intros newer older h2 Hsplit.
      apply cons_split in Hsplit as [(_ & [=] & _) | (n' & _ & Hsplit)];
        by eauto.
  - destruct Hord as [H1 H2 H3 H4 H5 H6 H7].
    rewrite Hj in H3, H4, H5.
    apply StronglySorted_cons in H3 as [Hhead H3].
    apply Forall_cons in H4 as [Hh H4].
    split; rewrite ?Hn, ?Hc', ?Ht; try done.
    + intros h' Hh'. destruct (H5 h' Hh') as [Hin | [Hcur | Hres]].
      * apply elem_of_cons in Hin as [-> | Hin]; eauto.
      * congruence.
      * eauto.
    + intros h2 [= <-] h1 Hlt.
      destruct (H5 h1) as [Hin | [Hcur | Hres]]; [lia | | congruence | done].
      apply elem_of_cons in Hin as [-> | Hin]; [lia|].
      eapply Forall_forall in Hhead; [|exact Hin]. lia.
  - assert (Hcur := ordered_current s Hord h Hc).
    destruct Hord as [H1 H2 H3 H4 H5 H6 H7].
    split; rewrite ?Hn, ?Hj, ?Hc', ?Ht; try done.
    + intros h' Hin. apply elem_of_cons in Hin as [[=] | Hin]. eauto.
    + intros newer older h2 Hsplit.
      apply cons_split in Hsplit as [(_ & [=] & _) | (n' & _ & Hsplit)];
        by eauto.
    + intros h' Hh'. rewrite <- Hc. destruct (H5 h' Hh') as [|[|]]; eauto.
      right; right. by apply list_elem_of_further.
    + intros h2 [= <-] h1 Hlt. apply list_elem_of_further. eauto.
    + intros newer older h2 Hsplit.
      apply cons_split in Hsplit as [(_ & [= <-] & ->) | (n' & _ & Hsplit)];
        by eauto.
  - destruct Hord as [H1 H2 H3 H4 H5 H6 H7].
    split; rewrite ?Hn, ?Hj, ?Hc', ?Ht; try done.
    + intros h' Hin. apply elem_of_cons in Hin as [[=] | Hin]. eauto.
    + intros newer older h2 Hsplit.
      apply cons_split in Hsplit as [(_ & [=] & _) | (n' & _ & Hsplit)];
        by eauto.
    + intros h' Hh'. destruct (H5 h' Hh') as [|[Hcur|]]; eauto.
      * right; right. rewrite Hc in Hcur. injection Hcur as ->.
        apply list_elem_of_here.
      * right; right. by apply list_elem_of_further.
    + intros newer older h2 Hsplit.
      apply cons_split in Hsplit as [(_ & [=] & _) | (n' & _ & Hsplit)];
        by eauto.
Qed.

Lemma ordered_run (size_bits : Z) (ls : list Label) (s s' : State) :
  ordered s → run size_bits ls s = Some s' → ordered s'.
Proof.
  revert s. induction ls as [|l ls IH]; intros s Hord Hrun; cbn in Hrun.
  - by simplify_eq.
  - apply bind_Some in Hrun as (s1 & Hstep & Hrun).
    eauto using ordered_view_step, step_view.
Qed.

Lemma reachable_ordered (size_bits : Z) (s : State) :
  reachable size_bits s → ordered s.
Proof. intros [ls Hrun]. eauto using ordered_run, ordered_init. Qed.

(** C10. In every run of the program, if [h1] was submitted before [h2] and
    the transfer of [h2] has started, then the completion record of [h1] was
    pushed to the results queue before that start: the worker takes its jobs
    one at a time, in the order of submission. *)
Theorem transfers_in_submission_order (size_bits : Z) (s : State)
    (h1 h2 : handle) (newer older newer' older' : list Event) :
  reachable size_bits s →
  trace s = newer ++ Submitted h2 :: older →
  Submitted h1 ∈ older →
  trace s = newer' ++ PerformStarted h2 :: older' →
  ResultPushed h1 ∈ older'.
Proof.
  intros Hreach Hsub Hfirst Hstart.
  apply reachable_ordered in Hreach.
  eapply ordered_transfers; [done | exact Hstart |].
  by eapply ordered_submissions.
Qed.

Lemma transfers_in_submission_order_witness :
  ResultPushed 0
    ∈ [ResultPushed 0; PerformStarted 0; Submitted 1; Submitted 0].
Proof.
  apply (transfers_in_submission_order 32 two_jobs_state 0 1
           [PerformStarted 1; ResultPushed 0; PerformStarted 0]
           [Submitted 0] []).
  - exists two_jobs. reflexivity.
  - reflexivity.
  - apply list_elem_of_here.
  - reflexivity.
Defined.

(** ** The count of live downloads *)

Lemma wrap_uint_succ (n : Z) : wrap_uint (wrap_uint n + 1) = wrap_uint (n + 1).
Proof. unfold wrap_uint, wrap. by rewrite Z.add_mod_idemp_l. Qed.

Lemma wrap_uint_pred (n : Z) : wrap_uint (wrap_uint n - 1) = wrap_uint (n - 1).
Proof. unfold wrap_uint, wrap. by rewrite Zminus_mod_idemp_l. Qed.

Lemma size_store (hp : gmap handle Download.t) (h : handle) (d d' : Download.t) :
  hp !! h = Some d → size (<[h := d']> hp) = size hp.
Proof. intros H. by rewrite map_size_insert_Some. Qed.

Lemma curlThread_counts (size_bits : Z) (i : Input) (s s' : State) :
  curlThread size_bits i s = Some s' →
  size (heap s') = size (heap s) ∧ count s' = count s
  ∧ timeouts s' = timeouts s ∧ main s' = main s.
Proof.
  intros Hstep.
  destruct s as [hp nh jq rq pq rcq cnt tmo ml fr mn cl tr].
  destruct cl, i; curl_cases Hstep.
  all: repeat split; try done.
  all: repeat (erewrite size_store; [|first [eassumption | apply lookup_insert_eq]]).
  all: try done.
Qed.

Lemma onDownloadQueuePoll_step_counts (s s' : State) (r : option bool) :
  counts_live s →
  onDownloadQueuePoll_step s = (s', r) →
  counts_live s'
  ∧ timeouts s' = timeouts s
  ∧ (∀ b, r = Some b → main s' = MIdle ∧ b = (0 <? count s'))
  ∧ (r = None → main s ≠ MIdle → main s' ≠ MIdle).
Proof.
  unfold counts_live. intros Hc Hstep.
  destruct s as [hp nh jq rq pq rcq cnt tmo ml fr mn cl tr].
  unfold onDownloadQueuePoll_step in Hstep. cbn in Hstep.
  repeat case_match; simplify_eq; cbn in *.
  all: repeat split; try done.
  all: try (intros ? [= <-]; done).
  all: try (by simplify_eq).
  all: try (by erewrite size_store).
  all: rewrite Hc, wrap_uint_pred, map_size_delete_Some by done.
  all: f_equal.
  all: assert (size hp ≠ 0%nat) by (intros ->%map_size_empty_inv; done); lia.
Qed.

Lemma DownloadNew_counts (options : DownloadOptions.t) (s : State) :
  fresh s → counts_live s → counts_live (DownloadNew options s).2.
Proof.
  unfold counts_live, fresh. intros Hfresh Hc.
  destruct s as [hp nh jq rq pq rcq cnt tmo ml fr mn cl tr]. cbn in *.
  assert (size (<[nh := Download.mk
            (DownloadOptions.mk (DownloadOptions.url options)
               (DownloadOptions.progressCallback options)
               (DownloadOptions.completeCallback options)
               (DownloadOptions.context options)) 0 None 0 0 None 0]> hp)
          = S (size hp)) as Hsize.
  { apply map_size_insert_None, Hfresh. lia. }
  destruct (cnt =? 0); cbn; rewrite Hsize, Hc, wrap_uint_succ; f_equal; lia.
Qed.

Lemma step_counts (size_bits : Z) (l : Label) (s s' : State) :
  fresh s → counts_live s → polled s →
  step size_bits l s = Some s' →
  counts_live s' ∧ polled s'.
Proof.
  intros Hfresh Hc Hp. destruct l as [options| | |i]; unfold step; intros Hstep.
  - assert (main s ≠ MFault) by (intros E; by rewrite E in Hstep).
    assert (s' = (DownloadNew options s).2) as -> by (destruct (main s); by simplify_eq).
    split; [by apply DownloadNew_counts|].
    clear Hstep. unfold polled in *.
    destruct s as [hp nh jq rq pq rcq cnt tmo ml fr mn cl tr]. cbn in *.
    destruct (Z.eqb_spec cnt 0); cbn; [lia|].
    intros _. apply Hp. unfold counts_live, wrap_uint, wrap in Hc. cbn in Hc.
    assert (0 ≤ cnt) by (rewrite Hc; apply Z.mod_pos_bound; lia). lia.
  - destruct s as [hp nh jq rq pq rcq cnt tmo ml fr mn cl tr].
    cbn in Hstep. destruct mn, tmo; simplify_eq.
    split; [done|]. intros _. cbn. lia.
  - destruct (onDownloadQueuePoll_step s) as [s1 r] eqn:Hpoll.
    apply (onDownloadQueuePoll_step_counts _ _ _ Hc) in Hpoll
      as (Hc1 & Ht & Hret & Hrun).
    assert (main s ≠ MIdle) as Hbusy by (intros E; by rewrite E in Hstep).
    assert (0 < timeouts s)%nat as Hpos by (apply Hp; by right).
    destruct r as [b|].
    + destruct (Hret b eq_refl) as [Hidle ->].
      destruct (Z.ltb_spec 0 (count s1)).
      * assert (s' = s1) as -> by (destruct (main s); by simplify_eq).
        split; [done|]. intros _. lia.
      * assert (s' = with_timeouts (Nat.pred (timeouts s1)) s1) as ->
          by (destruct (main s); by simplify_eq).
        split; [by destruct s1|].
        intros [|]; destruct s1; cbn in *; [lia | done].
    + assert (s' = s1) as -> by (destruct (main s); by simplify_eq).
      split; [done|]. intros _. lia.
  - apply curlThread_counts in Hstep as (Hs & Hcnt & Ht & Hm).
    unfold counts_live, polled in *. rewrite Hs, Hcnt, Ht, Hm. done.
Qed.

Lemma reachable_counts (size_bits : Z) (s : State) :
  reachable size_bits s → counts_live s ∧ polled s.
Proof.
  intros [ls Hrun].
  assert (Hgen : ∀ ls s0, fresh s0 → counts_live s0 → polled s0 →
            run size_bits ls s0 = Some s → counts_live s ∧ polled s).
  { clear. intros ls. induction ls as [|l ls IH]; intros s0 Hf Hc Hp Hrun;
      cbn in Hrun.
    - by simplify_eq.
    - apply bind_Some in Hrun as (s1 & Hstep & Hrun).
      destruct (step_counts _ _ _ _ Hf Hc Hp Hstep).
      eauto using step_fresh. }
  apply (Hgen ls DownloadInit); [| | |done].
  - intros h _. apply lookup_empty.
  - done.
  - intros [|]; cbn in *; [lia | done].
Qed.

(** X1. In every state the program reaches, [gDownload.count] is the number
    of [Download] objects that have been allocated and not yet freed, as
    an [unsigned int]. *)
Theorem count_is_number_of_live_downloads (size_bits : Z) (s : State) :
  reachable size_bits s →
  count s = wrap_uint (Z.of_nat (size (heap s))).
Proof. intros Hreach. by destruct (reachable_counts _ _ Hreach). Qed.

Lemma count_is_number_of_live_downloads_witness :
  count two_jobs_state = wrap_uint (Z.of_nat (size (heap two_jobs_state))).
Proof.
  apply (count_is_number_of_live_downloads 32).
  exists two_jobs. reflexivity.
Defined.

(** X2. In every state the program reaches, an [onDownloadQueuePoll]
    timeout is registered whenever [gDownload.count] is not zero, and while
    a tick is running: a live [Download] is never left without the poller
    that completes it. *)
Theorem poller_registered_while_live (size_bits : Z) (s : State) :
  reachable size_bits s →
  0 < count s ∨ main s ≠ MIdle →
  (0 < timeouts s)%nat.
Proof. intros Hreach. by destruct (reachable_counts _ _ Hreach). Qed.

Lemma poller_registered_while_live_witness : (0 < timeouts two_jobs_state)%nat.
Proof.
  apply (poller_registered_while_live 32).
  - exists two_jobs. reflexivity.
  - left. reflexivity.
Defined.

(** ** Ownership along the pipeline *)

Lemma is_Some_store (hp : gmap handle Download.t) (h h' : handle) (d : Download.t) :
  is_Some (hp !! h') → is_Some (<[h := d]> hp !! h').
Proof.
  intros H. destruct (decide (h = h')) as [->|].
  - rewrite lookup_insert_eq. by eexists.
  - by rewrite lookup_insert_ne.
Qed.

Lemma curlThread_own (size_bits : Z) (i : Input) (s s' : State) :
  curlThread size_bits i s = Some s' → own_step s s'.
Proof.
  intros Hstep.
  destruct s as [hp nh jq rq pq rcq cnt tmo ml fr mn cl tr].
  destruct cl, i; curl_cases Hstep.
  all: try (apply own_keep; unfold owners; cbn;
            [reflexivity | eauto using is_Some_store]; fail).
  - destruct jq as [|j jq]; cbn in *; simplify_eq.
    apply own_keep; [|done]. unfold owners; cbn.
    apply Permutation_submseteq. symmetry. apply Permutation_middle.
  - apply own_keep; [|eauto using is_Some_store]. unfold owners; cbn.
    apply Permutation_submseteq. f_equiv.
    rewrite <- app_assoc. cbn. symmetry. apply Permutation_middle.
  - apply own_keep; [|eauto using is_Some_store]. unfold owners; cbn.
    apply Permutation_submseteq. f_equiv.
    rewrite <- app_assoc. cbn. symmetry. apply Permutation_middle.
Qed.

Lemma onDownloadQueuePoll_step_own (s s' : State) (r : option bool) :
  onDownloadQueuePoll_step s = (s', r) → own_step s s'.
Proof.
  intros Hstep.
  destruct s as [hp nh jq rq pq rcq cnt tmo ml fr mn cl tr].
  unfold onDownloadQueuePoll_step in Hstep. cbn in Hstep.
  repeat case_match; simplify_eq; cbn in *.
  all: try (apply own_keep; unfold owners; cbn;
            [reflexivity | eauto using is_Some_store]; fail).
  - destruct rq as [|j rq]; cbn in *; simplify_eq.
    apply own_keep; [|done]. unfold owners; cbn.
    apply Permutation_submseteq. do 2 apply Permutation_app_head.
    symmetry. apply Permutation_middle.
  - apply (own_free _ _ completeItem); [|done]. unfold owners; cbn.
    rewrite app_nil_r, !app_assoc. symmetry. apply Permutation_cons_append.
  - apply (own_free _ _ completeItem); [|done]. unfold owners; cbn.
    rewrite app_nil_r, !app_assoc. symmetry. apply Permutation_cons_append.
  - apply own_keep; [|done]. unfold owners; cbn.
    apply Permutation_submseteq. do 2 apply Permutation_app_head.
    rewrite app_nil_r. apply Permutation_cons_append.
  - apply own_keep; [|done]. unfold owners; cbn.
    do 2 apply submseteq_skips_l. rewrite app_nil_r.
    apply submseteq_inserts_r. done.
Qed.

Lemma DownloadNew_own (options : DownloadOptions.t) (s : State) :
  own_step s (DownloadNew options s).2.
Proof.
  destruct s as [hp nh jq rq pq rcq cnt tmo ml fr mn cl tr].
  eapply own_submit; cbn.
  - destruct (cnt =? 0); unfold owners; cbn; rewrite <- app_assoc; cbn;
      symmetry; apply Permutation_middle.
  - by destruct (cnt =? 0).
Qed.

Lemma with_timeouts_own (n : nat) (s s' : State) :
  own_step s s' → own_step s (with_timeouts n s').
Proof.
  destruct s' as [hp nh jq rq pq rcq cnt tmo ml fr mn cl tr].
  intros [| |]; [by apply own_keep | by eapply own_submit | by eapply own_free].
Qed.

Lemma step_own (size_bits : Z) (l : Label) (s s' : State) :
  step size_bits l s = Some s' → own_step s s'.
Proof.
  destruct l as [options| | |i]; unfold step; intros Hstep.
  - destruct (main s); simplify_eq; apply DownloadNew_own.
  - destruct s as [hp nh jq rq pq rcq cnt tmo ml fr mn cl tr].
    cbn in Hstep. destruct mn, tmo; simplify_eq.
    by apply own_keep.
  - destruct (onDownloadQueuePoll_step s) as [s1 r] eqn:Hpoll.
    apply onDownloadQueuePoll_step_own in Hpoll.
    destruct (main s), r as [[]|]; simplify_eq;
      by try apply with_timeouts_own.
  - by eapply curlThread_own.
Qed.

Lemma NoDup_submseteq_inv {A} (l k : list A) : l ⊆+ k → NoDup k → NoDup l.
Proof.
  intros (k' & Hk)%submseteq_Permutation Hnd.
  rewrite Hk in Hnd. by apply NoDup_app in Hnd as (? & _).
Qed.

Lemma owned_step (s s' : State) :
  fresh s → owned s → own_step s s' → owned s'.
Proof.
  intros Hfresh [Hnd Hal] [Hsub Hkeep | d Hperm Hheap | h Hperm Hheap].
  - split; [by eapply NoDup_submseteq_inv|].
    intros h Hh. apply Hkeep, Hal. by eapply elem_of_submseteq.
  - split.
    + rewrite Hperm. apply NoDup_cons. split; [|done].
      intros Hin. apply Hal in Hin as [d' Hd'].
      rewrite Hfresh in Hd' by done. done.
    + intros h. rewrite Hperm, Hheap.
      intros [->|Hin]%elem_of_cons; [by rewrite lookup_insert_eq|].
      by apply is_Some_store, Hal.
  - rewrite Hperm in Hnd. apply NoDup_cons in Hnd as [Hnot Hnd].
    split; [done|].
    intros h' Hin. rewrite Hheap, lookup_delete_ne by (by intros ->).
    apply Hal. rewrite Hperm. by apply list_elem_of_further.
Qed.

Lemma reachable_owned (size_bits : Z) (s : State) :
  reachable size_bits s → owned s.
Proof.
  intros [ls Hrun].
  assert (Hgen : ∀ ls s0, fresh s0 → owned s0 →
            run size_bits ls s0 = Some s → owned s).
  { clear. intros ls. induction ls as [|l ls IH]; intros s0 Hf Ho Hrun;
      cbn in Hrun.
    - by simplify_eq.
    - apply bind_Some in Hrun as (s1 & Hstep & Hrun).
      eauto using step_fresh, owned_step, step_own. }
  apply (Hgen ls DownloadInit); [| |done].
  - intros h _. apply lookup_empty.
  - split; [constructor|]. intros h Hin. by apply not_elem_of_nil in Hin.
Qed.

(** X3. In every state the program reaches, a [Download] is in at most one
    place of the pipeline (the job queue, the worker, the results queue, the
    record the tick has just popped), and every [Download] found there is a
    live object: neither thread is handed a freed [Download] through the job
    or results queue. *)
Theorem pipeline_downloads_are_live (size_bits : Z) (s : State) :
  reachable size_bits s →
  NoDup (owners s) ∧ ∀ h, h ∈ owners s → is_Some (heap s !! h).
Proof. intros Hreach. by destruct (reachable_owned _ _ Hreach). Qed.

Lemma pipeline_downloads_are_live_witness :
  NoDup (owners two_jobs_state)
  ∧ ∀ h, h ∈ owners two_jobs_state → is_Some (heap two_jobs_state !! h).
Proof.
  apply (pipeline_downloads_are_live 32).
  exists two_jobs. reflexivity.
Defined.

(** ** The results loop with chunks outstanding *)

(** X11. In every state the program reaches, once the results loop has
    popped, or is about to pop, the completion record of a [Download] whose
    outstanding-chunk counter is not zero, [onDownloadQueuePoll] never
    returns, whatever the worker does and whatever is submitted: the record
    is pushed back at the front and popped again. *)
Theorem results_loop_spins_while_chunks_outstanding (size_bits : Z)
    (s : State) (h : handle) (d : Download.t) :
  reachable size_bits s →
  heap s !! h = Some d →
  Download.outstandingProgressItems d ≠ 0 →
  main s = MResultsTest h
  ∨ main s = MResultsPop ∧ (∃ q, resultsQueue s = h :: q) →
  never_returns size_bits h s.
Proof.
  intros Hreach Hd Hout Hmain.
  apply spinning_never_returns_at_all.
  pose proof (reachable_fresh _ _ Hreach) as Hfresh.
  destruct (reachable_owned _ _ Hreach) as [Hnodup _].
  unfold owners in Hnodup.
  apply NoDup_app in Hnodup as (_ & Hjob & Hnodup).
  apply NoDup_app in Hnodup as (_ & Hcurl & _).
  assert (h ∈ resultsQueue s ++ option_list (tested (main s))) as Hin.
  { destruct Hmain as [Hm | [Hm [q Hq]]].
    - rewrite Hm. cbn. apply elem_of_app. right. apply list_elem_of_here.
    - rewrite Hq. apply elem_of_app. left. apply list_elem_of_here. }
  split; [by exists d|]. split.
  { destruct (decide (h < nextHandle s)%nat) as [|Hge]; [done|].
    rewrite Hfresh in Hd by lia. done. }
  split.
  { intros Hj. apply (Hjob h Hj). apply elem_of_app. by right. }
  split; [|done].
  intros Hc. apply (Hcurl h); [|done]. rewrite Hc. apply list_elem_of_here.
Qed.

Lemma results_loop_spins_while_chunks_outstanding_witness :
  onDownloadQueuePoll_from 1000 early_dequeue_state = None.
Proof.
  assert (Hd : heap early_dequeue_state !! 0%nat
               = Some (Download.mk test_options 0 (Some "curl-done"%string) 0
                         1000 None 1))
    by reflexivity.
  assert (Hreach : reachable 32 early_dequeue_state)
    by (exists early_dequeue; reflexivity).
  assert (Hout : Download.outstandingProgressItems
                   (Download.mk test_options 0 (Some "curl-done"%string) 0
                      1000 None 1) ≠ 0)
    by (intros [=]).
  assert (Hmain : main early_dequeue_state = MResultsTest 0
                  ∨ main early_dequeue_state = MResultsPop
                    ∧ (∃ q, resultsQueue early_dequeue_state = 0%nat :: q))
    by (right; split; [reflexivity | exists []; reflexivity]).
  exact (proj1 (results_loop_spins_while_chunks_outstanding 32
                  early_dequeue_state 0%nat _ Hreach Hd Hout Hmain) 1000%nat).
Defined.

(** ** The life of a download *)

Lemma dead_store (hp : gmap handle Download.t) (h h' : handle)
    (d d' : Download.t) :
  hp !! h = Some d → hp !! h' = None → <[h := d']> hp !! h' = None.
Proof. intros Hd Hn. rewrite lookup_insert_ne; [done | congruence]. Qed.















(** ** The progress queue is first in, first out *)

Lemma slot_keep_store (hp : gmap handle Download.t) (h0 : handle)
    (d0 : Download.t) (n : Z) (h : handle) (d' : Download.t) :
  hp !! h0 = Some d0 →
  <[h0 := Download.with_outstandingProgressItems n d0]> hp !! h = Some d' →
  hp !! h = None
  ∨ ∃ d, hp !! h = Some d
         ∧ Download.currentProgressItem d' = Download.currentProgressItem d.
Proof.
  intros H0. destruct (decide (h0 = h)) as [->|].
  - rewrite lookup_insert_eq. intros [= <-]. right. exists d0.
    split; [done|]. by destruct d0.
  - rewrite lookup_insert_ne by done. eauto.
Qed.

Lemma onDownloadQueuePoll_step_slot (s s' : State) (r : option bool) :
  onDownloadQueuePoll_step s = (s', r) → slot_keep s s'.
Proof.
  intros Hstep.
  destruct s as [hp nh jq rq pq rcq cnt tmo ml fr mn cl tr].
  unfold onDownloadQueuePoll_step in Hstep. cbn in Hstep.
  repeat case_match; simplify_eq; cbn in *.
  all: split; [done|]; cbn; intros h d' Hd'; eauto using slot_keep_store.
  all: destruct (decide (completeItem = h)) as [->|];
    [by rewrite lookup_delete_eq in Hd'
    | rewrite lookup_delete_ne in Hd' by done; eauto].
Qed.

Lemma DownloadNew_slot (options : DownloadOptions.t) (s : State) :
  fresh s → slot_keep s (DownloadNew options s).2.
Proof.
  intros Hfresh.
  destruct s as [hp nh jq rq pq rcq cnt tmo ml fr mn cl tr].
  split; [by cbn; destruct (cnt =? 0)|].
  cbn. intros h d'. destruct (decide (h = nh)) as [->|].
  - intros _. left. apply Hfresh. cbn. lia.
  - destruct (cnt =? 0); cbn; rewrite lookup_insert_ne by done; eauto.
Qed.

Lemma slot_ok_keep (s s' : State) :
  owned s → slot_ok s → slot_keep s s' → slot_ok s'.
Proof.
  intros [_ Hal] Hok [Hc Hk] h d' Hp Hd'. rewrite Hc in Hp.
  destruct (Hk h d' Hd') as [Hn | (d & Hd & ->)]; [|by eauto].
  assert (is_Some (heap s !! h)) as [d Hd]; [|congruence].
  apply Hal. unfold owners. rewrite !elem_of_app. right; left.
  destruct (curl s); simplify_eq/=; apply list_elem_of_here.
Qed.

Lemma curlThread_slot (size_bits : Z) (i : Input) (s s' : State) :
  slot_ok s → curlThread size_bits i s = Some s' → slot_ok s'.
Proof.
  unfold slot_ok. intros Hok Hstep.
  destruct s as [hp nh jq rq pq rcq cnt tmo ml fr mn cl tr].
  destruct cl, i; curl_cases Hstep.
  all: try (by intros ?? [=]).
  - intros h d [= <-]. rewrite lookup_insert_eq. intros [= <-].
    eexists. split; [by destruct x|done].
  - intros h d [= <-]. rewrite lookup_insert_eq. intros [= <-].
    destruct (Hok download x eq_refl) as (i & Hi & Hc); [done|].
    exists i. split; [by destruct x|done].
Qed.

Lemma curlThread_fifo (size_bits : Z) (i : Input) (s s' : State) :
  slot_ok s → curlThread size_bits i s = Some s' → fifo_step s s'.
Proof.
  unfold slot_ok. intros Hok Hstep.
  destruct s as [hp nh jq rq pq rcq cnt tmo ml fr mn cl tr].
  destruct cl, i; curl_cases Hstep.
  all: try (apply fifo_keep; cbn; [done | | done];
            first [by left | right; eexists; by repeat split]).
  all: apply (fifo_push _ _ download x0); cbn; try done.
  all: destruct (Hok download x eq_refl) as (i' & Hi & Hc); [done|congruence].
Qed.

Lemma onDownloadQueuePoll_step_fifo (s s' : State) (r : option bool) :
  onDownloadQueuePoll_step s = (s', r) → fifo_step s s'.
Proof.
  intros Hstep.
  destruct s as [hp nh jq rq pq rcq cnt tmo ml fr mn cl tr].
  unfold onDownloadQueuePoll_step in Hstep. cbn in Hstep.
  repeat case_match; simplify_eq; cbn in *.
  all: try (apply fifo_keep; cbn; [done | | done];
            first [by left | right; eexists; by repeat split]).
  all: destruct pq as [|i pq]; cbn in *; simplify_eq.
  - by apply (fifo_deliver _ _ n t
                (ProgressCallback n (Item.length t) (Item.bytesLoaded t)
                   (Item.bytesExpected t))).
  - by apply (fifo_deliver _ _ n t (ChunkDropped n)).
  - by eapply fifo_lose.
  - by eapply fifo_lose.
Qed.

Lemma DownloadNew_fifo (options : DownloadOptions.t) (s : State) :
  main s ≠ MFault → fifo_step s (DownloadNew options s).2.
Proof.
  intros Hfault.
  destruct s as [hp nh jq rq pq rcq cnt tmo ml fr mn cl tr].
  apply fifo_keep; cbn.
  - by destruct (cnt =? 0).
  - right. exists (Submitted nh). by destruct (cnt =? 0).
  - done.
Qed.

Lemma with_timeouts_fifo (n : nat) (s s' : State) :
  fifo_step s s' → fifo_step s (with_timeouts n s').
Proof.
  destruct s' as [hp nh jq rq pq rcq cnt tmo ml fr mn cl tr].
  intros [| | |]; [by apply fifo_keep | by eapply fifo_push
                  | by eapply fifo_deliver | by eapply fifo_lose].
Qed.

Lemma with_timeouts_slot (n : nat) (s s' : State) :
  slot_keep s s' → slot_keep s (with_timeouts n s').
Proof. by destruct s'. Qed.

Lemma step_fifo (size_bits : Z) (l : Label) (s s' : State) :
  slot_ok s → step size_bits l s = Some s' → fifo_step s s'.
Proof.
  intros Hok. destruct l as [options| | |i]; unfold step; intros Hstep.
  - assert (main s ≠ MFault) by (intros E; by rewrite E in Hstep).
    assert (s' = (DownloadNew options s).2) as ->
      by (destruct (main s); by simplify_eq).
    by apply DownloadNew_fifo.
  - destruct s as [hp nh jq rq pq rcq cnt tmo ml fr mn cl tr].
    cbn in Hstep. destruct mn, tmo; simplify_eq.
    apply fifo_keep; cbn; eauto. done.
  - destruct (onDownloadQueuePoll_step s) as [s1 r] eqn:Hpoll.
    apply onDownloadQueuePoll_step_fifo in Hpoll.
    destruct (main s), r as [[]|]; simplify_eq;
      by try apply with_timeouts_fifo.
  - by eapply curlThread_fifo.
Qed.

Lemma step_slot (size_bits : Z) (l : Label) (s s' : State) :
  fresh s → owned s → slot_ok s → step size_bits l s = Some s' → slot_ok s'.
Proof.
  intros Hfresh Hown Hok.
  destruct l as [options| | |i]; unfold step; intros Hstep.
  - apply (slot_ok_keep s); [done..|].
    destruct (main s); simplify_eq; by apply DownloadNew_slot.
  - destruct s as [hp nh jq rq pq rcq cnt tmo ml fr mn cl tr].
    cbn in Hstep. destruct mn, tmo; by simplify_eq.
  - apply (slot_ok_keep s); [done..|].
    destruct (onDownloadQueuePoll_step s) as [s1 r] eqn:Hpoll.
    apply onDownloadQueuePoll_step_slot in Hpoll.
    destruct (main s), r as [[]|]; simplify_eq;
      by try apply with_timeouts_slot.
  - by eapply curlThread_slot.
Qed.

Lemma pushes_cons (e : Event) (t : list Event) :
  pushes (e :: t) = pushes t ++ option_list (chunk_of_push e).
Proof.
  unfold pushes. rewrite reverse_cons, omap_app. cbn.
  by destruct (chunk_of_push e).
Qed.

Lemma drains_cons (e : Event) (t : list Event) :
  drains (e :: t) = drains t ++ (if is_drain e then [e] else []).
Proof.
  unfold drains. rewrite reverse_cons, filter_app. f_equal.
  by destruct e.
Qed.

Lemma fifo_preserved (s s' : State) :
  fifo s → fifo_step s s' → fifo s'.
Proof.
  intros (done & lost & rest & Hp & Hd & Hq & Hl) Hstep.
  destruct Hstep as [Hpq Ht Hm | h i Hpq Ht Hc Hm
                    | h i e Hpq Hc He Hdr Hnp Ht Hm | i Hpq Ht Hm].
  - exists done, lost, rest. rewrite Hpq.
    split; [|split; [|split]]; try done.
    + destruct Ht as [-> | (e & -> & Hnp & Hnd)]; [done|].
      by rewrite pushes_cons, Hnp, app_nil_r.
    + destruct Ht as [-> | (e & -> & Hnp & Hnd)]; [done|].
      by rewrite drains_cons, Hnd, app_nil_r.
    + intros Hf. apply Hl. intros E. by apply Hf, Hm.
  - exists done, lost, (rest ++ [(h, Item.length i)]).
    rewrite Hpq, Ht, pushes_cons, drains_cons, Hp. cbn.
    rewrite app_nil_r, !fmap_app, Hq. cbn.
    split; [by rewrite <- !app_assoc|].
    split; [done|]. split; [|by rewrite Hm].
    unfold queued_chunk, pushed_chunk. cbn. by rewrite Hc.
  - rewrite (Hl Hm) in Hp. cbn in Hp.
    rewrite Hpq in Hq. destruct rest as [|c rest]; [done|].
    cbn in Hq. injection Hq as Hc' Hq.
    exists (done ++ [c]), [], rest.
    rewrite Ht, pushes_cons, drains_cons, Hnp, Hdr, Hp, app_nil_r. cbn.
    split; [by rewrite <- app_assoc|].
    split; [|done].
    apply Forall2_app; [done|]. constructor; [|constructor].
    unfold queued_chunk, pushed_chunk in Hc'. rewrite Hc in Hc'.
    destruct c as [h' n']. cbn in *. by simplify_eq.
  - rewrite Hpq in Hq. destruct rest as [|c rest]; [done|].
    cbn in Hq. injection Hq as Hc' Hq.
    exists done, (lost ++ [c]), rest. rewrite Ht.
    split; [by rewrite Hp, <- !app_assoc|].
    split; [done|]. split; [done|]. done.
Qed.

Lemma reachable_fifo (size_bits : Z) (s : State) :
  reachable size_bits s → fifo s.
Proof.
  intros [ls Hrun].
  assert (Hgen : ∀ ls s0, fresh s0 → owned s0 → slot_ok s0 → fifo s0 →
            run size_bits ls s0 = Some s → fifo s).
  { clear. intros ls.
    induction ls as [|l ls IH]; intros s0 Hf Ho Hs Hq Hrun; cbn in Hrun.
    - by simplify_eq.
    - apply bind_Some in Hrun as (s1 & Hstep & Hrun).
      apply (IH s1); [by eapply step_fresh | | | | done].
      + eapply owned_step; [done..|]. by eapply step_own.
      + by eapply step_slot.
      + eapply fifo_preserved; [done|]. by eapply step_fifo. }
  apply (Hgen ls DownloadInit); [| | | |done].
  - intros h _. apply lookup_empty.
  - split; [constructor|]. intros h Hin. by apply not_elem_of_nil in Hin.
  - by intros h d [=].
  - exists [], [], []. by repeat split; try constructor.
Qed.

(** X5. The progress queue is first in, first out across both threads: the
    chunks handed over to the application so far (to the progress callback,
    or dropped for want of one) are the first chunks the worker pushed, in
    the order of the pushes and with the lengths pushed; unless the
    foreground thread has faulted, the chunks pushed later are those waiting
    in the progress queue, in that order. *)
Theorem chunks_delivered_in_push_order (size_bits : Z) (s : State) :
  reachable size_bits s →
  ∃ done rest,
    pushes (trace s) = done ++ rest
    ∧ Forall2 delivers done (drains (trace s))
    ∧ (main s ≠ MFault →
       pushed_chunk <$> rest = queued_chunk <$> progressQueue s).
Proof.
  intros (done & lost & rest & Hp & Hd & Hq & Hl)%reachable_fifo.
  exists done, (lost ++ rest). split; [done|]. split; [done|].
  intros Hm. by rewrite (Hl Hm).
Qed.

Lemma chunks_delivered_in_push_order_witness :
  ∃ done rest,
    pushes (trace second_job_state) = done ++ rest
    ∧ Forall2 delivers done (drains (trace second_job_state))
    ∧ (main second_job_state ≠ MFault →
       pushed_chunk <$> rest
       = queued_chunk <$> progressQueue second_job_state).
Proof.
  apply (chunks_delivered_in_push_order 32).
  exists second_job. reflexivity.
Defined.

(** ** Segments inside a chunk *)

Lemma is_int_succ (n : Z) : INT_MIN ≤ n → n < INT_MAX → is_int (n + 1) = true.
Proof.
  unfold is_int, INT_MIN, INT_MAX. intros.
  apply andb_true_intro; split; apply Z.leb_le; lia.
Qed.

Lemma size_t_small (size_bits x : Z) :
  wide size_bits → 0 ≤ x ≤ kMaxChunksize → size_t size_bits x = x.
Proof. unfold wide. intros. unfold size_t, wrap. apply Z.mod_small. lia. Qed.

(** Run the worker one statement further, keeping sizes folded. *)
Ltac curl_next_folded :=
  rewrite curl_until_step by done;
  cbn -[curl_until size_t MIN kMaxChunksize]; rewrite ?lookup_insert_eq;
  cbn -[curl_until size_t MIN kMaxChunksize].

(** The loop of [onCURLDownloadSegment] on a segment that fits in the room
    left in the current chunk. *)
Lemma segment_loop_fits (size_bits : Z) (fuel : nat) (download : handle)
    (segment length : Z) (s : State) (d : Download.t) (progressItem : Item.t) :
  curl s = CSegment download segment length →
  heap s !! download = Some d →
  Download.currentProgressItem d = Some progressItem →
  wide size_bits →
  0 ≤ Item.length progressItem < kMaxChunksize →
  0 < length ≤ kMaxChunksize - Item.length progressItem →
  INT_MIN ≤ Download.outstandingProgressItems d < INT_MAX →
  ∃ s' d',
    curl_until size_bits in_perform (5 + fuel) s = Some s'
    ∧ curl s' = CPerform download
    ∧ heap s' !! download = Some d'
    ∧ (∀ h, h ≠ download → heap s' !! h = heap s !! h)
    ∧ jobQueue s' = jobQueue s
    ∧ resultsQueue s' = resultsQueue s
    ∧ progressRecycleQueue s' = progressRecycleQueue s
    ∧ freed s' = freed s
    ∧ main s' = main s
    ∧ Download.bytesLoaded d'
      = size_t size_bits (Download.bytesLoaded d + length)
    ∧ Download.bytesExpected d' = Download.bytesExpected d
    ∧ Download.options d' = Download.options d
    ∧ if bool_decide (Item.length progressItem + length = kMaxChunksize) then
        progressQueue s' =
          progressQueue s ++
            [Item.mk (Some download) (Item.chunk progressItem) kMaxChunksize
               (Download.bytesExpected d) (Download.bytesLoaded d')]
        ∧ Download.outstandingProgressItems d' =
            Download.outstandingProgressItems d + 1
        ∧ Download.currentProgressItem d' =
            Some (Item.mk None (mallocs s) 0 0 0)
        ∧ mallocs s' = S (mallocs s)
        ∧ trace s' =
            ChunkPushed download kMaxChunksize
              :: Memcpy download (Item.length progressItem) segment length
              :: trace s
      else
        progressQueue s' = progressQueue s
        ∧ Download.outstandingProgressItems d' =
            Download.outstandingProgressItems d
        ∧ Download.currentProgressItem d' =
            Some (Item.with_length (Item.length progressItem + length)
                    progressItem)
        ∧ mallocs s' = mallocs s
        ∧ trace s' =
            Memcpy download (Item.length progressItem) segment length
              :: trace s.
Proof.
  intros Hpc Hd Hslot Hsize Hfill Hlen Hcount.
  destruct s as [hp nh jq rq pq rcq cnt tmo ml fr mn cl tr].
  destruct d as [o r why e l slot n].
  destruct progressItem as [c b len ie il].
  cbn in Hpc, Hd, Hslot, Hcount. cbn [Item.length] in Hfill, Hlen.
  subst cl slot.
  change (5 + fuel)%nat with (S (S (S (S (S fuel))))).
  assert (Hpos : (0 <? length) = true) by (apply Z.ltb_lt; lia).
  assert (Hsmall : ∀ x, 0 ≤ x ≤ kMaxChunksize → size_t size_bits x = x)
    by (intros; by apply size_t_small).
  assert (Hroom : size_t size_bits (kMaxChunksize - len) = kMaxChunksize - len)
    by (apply Hsmall; lia).
  assert (Hmin : MIN (kMaxChunksize - len) length = length).
  { unfold MIN. destruct (Z.ltb_spec (kMaxChunksize - len) length); lia. }
  assert (Hnew : size_t size_bits (len + length) = len + length)
    by (apply Hsmall; lia).
  assert (Hrest : size_t size_bits (length - length) = 0).
  { rewrite Z.sub_diag. apply Hsmall. unfold kMaxChunksize; lia. }
  rewrite curl_until_step by done.
  cbn -[curl_until size_t MIN kMaxChunksize].
  unfold onCURLDownloadSegment_step.
  cbn -[curl_until size_t MIN kMaxChunksize].
  rewrite Hpos, Hd. cbn -[curl_until size_t MIN kMaxChunksize].
  rewrite Hroom, Hmin, Hnew, Hrest.
  destruct (Z.eqb_spec (len + length) kMaxChunksize) as [Hfull|Hpart].
  - rewrite bool_decide_eq_true_2 by done.
    cbn -[curl_until size_t MIN kMaxChunksize].
    do 2 curl_next_folded.
    rewrite is_int_succ by lia. cbn -[curl_until size_t kMaxChunksize].
    curl_next_folded. unfold reload. cbn -[curl_until size_t kMaxChunksize].
    rewrite lookup_insert_eq. cbn -[curl_until size_t kMaxChunksize].
    rewrite curl_until_step by done.
    cbn -[curl_until size_t kMaxChunksize].
    unfold onCURLDownloadSegment_step. cbn -[curl_until size_t kMaxChunksize].
    rewrite curl_until_stop by done.
    eexists _, _. split; [reflexivity|]. cbn -[size_t kMaxChunksize].
    rewrite !insert_insert_eq, lookup_insert_eq.
    split; [done|]. split; [reflexivity|].
    split; [intros h Hne; by rewrite lookup_insert_ne|].
    cbn -[size_t kMaxChunksize]. rewrite Hfull. by repeat split.
  - rewrite bool_decide_eq_false_2 by done.
    unfold resume, reload. cbn -[curl_until size_t kMaxChunksize].
    rewrite lookup_insert_eq. cbn -[curl_until size_t kMaxChunksize].
    rewrite curl_until_step by done.
    cbn -[curl_until size_t kMaxChunksize].
    unfold onCURLDownloadSegment_step. cbn -[curl_until size_t kMaxChunksize].
    rewrite curl_until_stop by done.
    eexists _, _. split; [reflexivity|]. cbn -[size_t kMaxChunksize].
    rewrite lookup_insert_eq.
    split; [done|]. split; [reflexivity|].
    split; [intros h Hne; by rewrite lookup_insert_ne|].
    by repeat split.
Qed.

(** One call of [onCURLDownloadSegment] with a segment that fits in the room
    left in the current chunk (a new chunk when there is none yet). *)
Lemma onCURLDownloadSegment_fits (size_bits : Z) (fuel : nat)
    (download : handle) (length : Z) (s : State) (d : Download.t) :
  heap s !! download = Some d →
  wide size_bits →
  0 ≤ fill d < kMaxChunksize →
  0 < length ≤ kMaxChunksize - fill d →
  INT_MIN ≤ Download.outstandingProgressItems d < INT_MAX →
  ∃ s' d' progressItem',
    onCURLDownloadSegment size_bits (6 + fuel) download length s = Some s'
    ∧ curl s' = CPerform download
    ∧ heap s' !! download = Some d'
    ∧ (∀ h, h ≠ download → heap s' !! h = heap s !! h)
    ∧ jobQueue s' = jobQueue s
    ∧ resultsQueue s' = resultsQueue s
    ∧ main s' = main s
    ∧ progressRecycleQueue s' = []
    ∧ Download.options d' = Download.options d
    ∧ Download.bytesExpected d' = Download.bytesExpected d
    ∧ Download.bytesLoaded d'
      = size_t size_bits (Download.bytesLoaded d + length)
    ∧ Download.currentProgressItem d' = Some progressItem'
    ∧ if bool_decide (fill d + length = kMaxChunksize) then
        progressQueue s' =
          progressQueue s ++
            [Item.mk (Some download) (fill_chunk s d) kMaxChunksize
               (Download.bytesExpected d) (Download.bytesLoaded d')]
        ∧ Download.outstandingProgressItems d' =
            Download.outstandingProgressItems d + 1
        ∧ Item.length progressItem' = 0
        ∧ (mallocs s ≤ Item.chunk progressItem' < mallocs s')%nat
        ∧ trace s' =
            ChunkPushed download kMaxChunksize
              :: Memcpy download (fill d) 0 length :: trace s
      else
        progressQueue s' = progressQueue s
        ∧ Download.outstandingProgressItems d' =
            Download.outstandingProgressItems d
        ∧ Item.length progressItem' = fill d + length
        ∧ Item.chunk progressItem' = fill_chunk s d
        ∧ trace s' = Memcpy download (fill d) 0 length :: trace s.
Proof.
  intros Hd Hsize Hfill Hlen Hcount.
  assert (Hrange : (0 <=? length) && (length <? 2 ^ size_bits) = true).
  { apply andb_true_intro. split; [apply Z.leb_le | apply Z.ltb_lt];
      unfold wide in Hsize; lia. }
  unfold onCURLDownloadSegment.
  destruct s as [hp nh jq rq pq rcq cnt tmo ml fr mn cl tr].
  cbn -[curl_until] in *. rewrite Hrange. cbn -[curl_until].
  destruct (Download.currentProgressItem d) as [progressItem|] eqn:Hslot.
  - unfold fill, fill_chunk in *. rewrite Hslot in *. cbn in Hfill, Hlen.
    edestruct (segment_loop_fits size_bits (S fuel) download 0 length
                 (mkState hp nh jq rq pq [] cnt tmo ml
                    (fold_left (λ f i, Item.chunk i :: f) rcq fr) mn
                    (CSegment download 0 length) tr) d progressItem)
      as (s' & d' & Hrun & Hpc & Hd' & Hother & Hjq & Hrq & Hrcq & Hfr & Hmn
          & Hl & He & Ho & Hres); try done.
    exists s', d'.
    cbn [from_option mallocs progressQueue jobQueue resultsQueue main trace
         heap] in *.
    destruct (bool_decide (Item.length progressItem + length = kMaxChunksize)).
    + destruct Hres as (Hq & Hn & Hi & Hml & Htr).
      exists (Item.mk None ml 0 0 0).
      repeat split; try done. all: cbn in *; lia.
    + destruct Hres as (Hq & Hn & Hi & Hml & Htr).
      exists (Item.with_length (Item.length progressItem + length)
                progressItem).
      repeat split; try done. all: by destruct progressItem.
  - unfold fill, fill_chunk in *. rewrite Hslot in *. cbn in Hfill, Hlen.
    assert (Hpos : (0 <? length) = true) by (apply Z.ltb_lt; lia).
    change (6 + fuel)%nat with (S (5 + fuel)).
    rewrite curl_until_step by done. cbn -[curl_until Nat.add].
    unfold onCURLDownloadSegment_step. rewrite Hpos.
    cbn -[curl_until Nat.add]. rewrite Hd. cbn -[curl_until Nat.add].
    rewrite Hslot. unfold resume, reload. cbn -[curl_until Nat.add].
    rewrite Hd. cbn -[curl_until Nat.add]. rewrite Hslot.
    cbn -[curl_until Nat.add].
    edestruct (segment_loop_fits size_bits fuel download 0 length
                 (mkState
                    (<[download :=
                         Download.with_currentProgressItem
                           (Some (Item.mk None ml 0 0 0)) d]> hp)
                    nh jq rq pq [] cnt tmo (S ml)
                    (fold_left (λ f i, Item.chunk i :: f) rcq fr) mn
                    (CSegment download 0 length) tr)
                 (Download.with_currentProgressItem
                    (Some (Item.mk None ml 0 0 0)) d)
                 (Item.mk None ml 0 0 0))
      as (s' & d' & Hrun & Hpc & Hd' & Hother & Hjq & Hrq & Hrcq & Hfr & Hmn
          & Hl & He & Ho & Hres); try done.
    { cbn. apply lookup_insert_eq. }
    { by destruct d. }
    { by destruct d. }
    exists s', d'.
    assert (Hother' : ∀ h, h ≠ download → heap s' !! h = hp !! h).
    { intros h Hne. rewrite Hother by done. cbn. by rewrite lookup_insert_ne. }
    cbn [from_option mallocs progressQueue jobQueue resultsQueue main trace
         heap Item.length Item.chunk] in *.
    rewrite Z.add_0_l in *.
    destruct (bool_decide (length = kMaxChunksize)).
    + destruct Hres as (Hq & Hn & Hi & Hml & Htr).
      exists (Item.mk None (S ml) 0 0 0).
      repeat split; try done; try (by destruct d).
      all: cbn in *; lia.
    + destruct Hres as (Hq & Hn & Hi & Hml & Htr).
      exists (Item.with_length length (Item.mk None ml 0 0 0)).
      repeat split; try done; by destruct d.
Qed.

Lemma aligned_sum (len : Z) (lengths : list Z) :
  aligned len lengths → 0 ≤ sum lengths.
Proof.
  revert len. induction lengths as [|n lengths IH]; intros len; [done|].
  intros [Hn Hrest]. apply IH in Hrest.
  change (sum (n :: lengths)) with (n + sum lengths). lia.
Qed.

Lemma chunk_lengths_push (s s' : State) (i : Item.t) :
  progressQueue s' = progressQueue s ++ [i] →
  chunk_lengths s' = chunk_lengths s ++ [Item.length i].
Proof. unfold chunk_lengths. intros ->. by rewrite map_app. Qed.

Lemma filter_overflowing_skip (e : Event) (t : list Event) :
  overflowing e = false →
  filter overflowing (e :: t) = filter overflowing t.
Proof.
  intros H. apply filter_cons_False. rewrite H. by intros [].
Qed.

Lemma segments_aligned (size_bits : Z) (fuel : nat) (download : handle)
    (lengths : list Z) (s : State) (d : Download.t) :
  heap s !! download = Some d →
  wide size_bits →
  0 ≤ fill d < kMaxChunksize →
  aligned (fill d) lengths →
  INT_MIN ≤ Download.outstandingProgressItems d →
  Download.outstandingProgressItems d
    + (fill d + sum lengths) / kMaxChunksize < INT_MAX →
  ∃ s' d',
    segments size_bits (6 + fuel) download lengths s = Some s'
    ∧ heap s' !! download = Some d'
    ∧ jobQueue s' = jobQueue s
    ∧ resultsQueue s' = resultsQueue s
    ∧ main s' = main s
    ∧ chunk_lengths s' =
        chunk_lengths s
        ++ replicate (Z.to_nat ((fill d + sum lengths) / kMaxChunksize))
             kMaxChunksize
    ∧ fill d' = (fill d + sum lengths) mod kMaxChunksize
    ∧ (lengths ≠ [] → is_Some (Download.currentProgressItem d'))
    ∧ (lengths = [] → d' = d)
    ∧ Download.outstandingProgressItems d' =
        Download.outstandingProgressItems d
        + (fill d + sum lengths) / kMaxChunksize
    ∧ filter overflowing (trace s') = filter overflowing (trace s).
Proof.
  revert s d. induction lengths as [|n lengths IH];
    intros s d Hd Hsize Hfill Hal Hmin Hmax.
  - exists s, d. cbn [segments sum foldr]. rewrite Z.add_0_r.
    rewrite Z.div_small, Z.mod_small by lia.
    cbn [Z.to_nat replicate]. rewrite app_nil_r.
    repeat split; try done. lia.
  - destruct Hal as [Hn Hal].
    pose proof (aligned_sum _ _ Hal) as Hsum.
    change (sum (n :: lengths)) with (n + sum lengths) in *.
    assert (HK : 0 < kMaxChunksize) by (unfold kMaxChunksize; lia).
    assert (Hdiv :
      (fill d + (n + sum lengths)) / kMaxChunksize
      = (if bool_decide (fill d + n = kMaxChunksize) then 1 else 0)
        + ((fill d + n) mod kMaxChunksize + sum lengths) / kMaxChunksize).
    { case_bool_decide as Hfull.
      - rewrite Z.add_assoc, Hfull, Z.mod_same by lia.
        rewrite <- (Z.mul_1_l kMaxChunksize) at 1.
        rewrite Z.div_add_l by lia. done.
      - rewrite Z.mod_small by lia. by rewrite Z.add_assoc. }
    assert (Hdiv0 : 0 ≤ ((fill d + n) mod kMaxChunksize + sum lengths)
                          / kMaxChunksize).
    { apply Z.div_pos; [|done].
      pose proof (Z.mod_pos_bound (fill d + n) kMaxChunksize HK). lia. }
    destruct (onCURLDownloadSegment_fits size_bits fuel download n s d)
      as (s1 & d1 & i1 & Hrun & Hpc & Hd1 & Hother & Hjq & Hrq & Hmn & Hrcq
          & Ho & He & Hl & Hslot & Hres); try done.
    { split; [done|]. rewrite Hdiv in Hmax.
      destruct (bool_decide (fill d + n = kMaxChunksize)); lia. }
    assert (Hfill1 : fill d1 = (fill d + n) mod kMaxChunksize
            ∧ Download.outstandingProgressItems d1 =
                Download.outstandingProgressItems d
                + (if bool_decide (fill d + n = kMaxChunksize) then 1 else 0)
            ∧ chunk_lengths s1 =
                chunk_lengths s
                ++ (if bool_decide (fill d + n = kMaxChunksize)
                    then [kMaxChunksize] else [])
            ∧ filter overflowing (trace s1) = filter overflowing (trace s)).
    { unfold fill at 1. rewrite Hslot. cbn.
      case_bool_decide as Hfull.
      - destruct Hres as (Hq & Hc & Hi & _ & Htr).
        rewrite Hfull, Z.mod_same by lia.
        split; [done|]. split; [done|].
        split; [by rewrite (chunk_lengths_push _ _ _ Hq)|].
        rewrite Htr, !filter_overflowing_skip; [done | | done].
        cbn [overflowing]. apply Z.ltb_ge. lia.
      - destruct Hres as (Hq & Hc & Hi & _ & Htr).
        rewrite Z.mod_small by lia.
        split; [done|]. split; [lia|].
        split; [unfold chunk_lengths; by rewrite Hq, app_nil_r|].
        rewrite Htr, filter_overflowing_skip; [done|].
        cbn [overflowing]. apply Z.ltb_ge. lia. }
    destruct Hfill1 as (Hf1 & Hc1 & Hq1 & Ht1).
    destruct (IH s1 d1) as (s' & d' & Hrun' & Hd' & Hjq' & Hrq' & Hmn' & Hq'
                            & Hf' & _ & _ & Hc' & Ht'); try done.
    { rewrite Hf1. apply Z.mod_pos_bound. lia. }
    { by rewrite Hf1. }
    { rewrite Hc1. case_bool_decide; lia. }
    { rewrite Hf1, Hc1. rewrite Hdiv in Hmax. lia. }
    exists s', d'. cbn [segments]. rewrite Hrun. cbn [mbind option_bind].
    split; [exact Hrun'|]. split; [done|].
    split; [congruence|]. split; [congruence|]. split; [congruence|].
    split.
    { rewrite Hq', Hq1, Hf1, Hdiv, <- app_assoc. f_equal.
      case_bool_decide.
      - rewrite Z2Nat.inj_add by lia. done.
      - by rewrite Z.add_0_l. }
    split.
    { rewrite Hf', Hf1. rewrite Z.add_mod_idemp_l by lia.
      by rewrite Z.add_assoc. }
    split.
    { intros _. destruct lengths as [|m lengths].
      - cbn in Hrun'. simplify_eq. rewrite Hslot. by eexists.
      - destruct (IH s1 d1) as (s'' & d'' & Hrun'' & Hd'' & _ & _ & _ & _
                                & _ & Hsome & _); try done.
        + rewrite Hf1. apply Z.mod_pos_bound. lia.
        + by rewrite Hf1.
        + rewrite Hc1. case_bool_decide; lia.
        + rewrite Hf1, Hc1. rewrite Hdiv in Hmax. lia.
        + rewrite Hrun' in Hrun''. simplify_eq. by apply Hsome. }
    split; [done|].
    split; [rewrite Hc', Hc1, Hf1, Hdiv; lia|].
    congruence.
Qed.

(** The end of a transfer, as a job's chunks see it. *)
Lemma finish_chunk_lengths (size_bits : Z) (fuel : nat) (download : handle)
    (result : Z) (s : State) (d : Download.t) :
  heap s !! download = Some d →
  INT_MIN ≤ Download.outstandingProgressItems d < INT_MAX →
  ∃ s',
    finish size_bits (4 + fuel) download result s = Some s'
    ∧ curl s' = CWait
    ∧ jobQueue s' = jobQueue s
    ∧ resultsQueue s' = resultsQueue s ++ [download]
    ∧ chunk_lengths s' =
        chunk_lengths s
        ++ option_list (Item.length <$> Download.currentProgressItem d)
    ∧ filter overflowing (trace s') = filter overflowing (trace s).
Proof.
  intros Hd [Hmin Hmax].
  destruct s as [hp nh jq rq pq rcq cnt tmo ml fr mn cl tr].
  change (4 + fuel)%nat with (S (S (S (S fuel)))).
  unfold finish. cbn -[curl_until].
  rewrite curl_until_step by done. cbn -[curl_until].
  cbn in Hd. rewrite Hd.
  destruct d as [o r0 why e l [progressItem|] n]; cbn -[curl_until] in *.
  - curl_next. rewrite is_int_succ by done. cbn -[curl_until].
    do 2 curl_next. rewrite curl_until_stop by done.
    eexists. split; [reflexivity|]. cbn -[filter].
    repeat split; try done.
    unfold chunk_lengths. cbn. by rewrite map_app.
  - rewrite curl_until_step by done. cbn -[curl_until].
    rewrite Hd. cbn -[curl_until]. rewrite curl_until_stop by done.
    eexists. split; [reflexivity|]. cbn -[filter].
    repeat split; try done.
    unfold chunk_lengths. cbn. by rewrite app_nil_r.
Qed.

(** X8. A whole transfer none of whose segments straddles the end of a
    chunk: the worker emits one chunk of [kMaxChunksize] bytes for every
    [kMaxChunksize] bytes received and, when at least one segment was
    received, a last chunk with the remaining bytes (zero bytes when the
    total is a multiple of [kMaxChunksize]), then the result; no copy
    writes outside a buffer. *)
Theorem aligned_transfer_chunks (size_bits : Z) (fuel : nat)
    (lengths : list Z) (result : Z) (s : State) (download : handle)
    (q : list handle) (d : Download.t) :
  jobQueue s = download :: q →
  heap s !! download = Some d →
  Download.currentProgressItem d = None →
  Download.outstandingProgressItems d = 0 →
  kMaxChunksize < 2 ^ size_bits →
  aligned 0 lengths →
  sum lengths / kMaxChunksize < INT_MAX →
  ∃ s',
    transfer size_bits (6 + fuel) lengths result s = Some s'
    ∧ curl s' = CWait
    ∧ jobQueue s' = q
    ∧ resultsQueue s' = resultsQueue s ++ [download]
    ∧ chunk_lengths s' =
        chunk_lengths s
        ++ match lengths with
           | [] => []
           | _ =>
               replicate (Z.to_nat (sum lengths / kMaxChunksize)) kMaxChunksize
               ++ [sum lengths mod kMaxChunksize]
           end
    ∧ filter overflowing (trace s') = filter overflowing (trace s).
Proof.
  intros Hjq Hd Hslot Hzero Hsize Hal Hmax.
  change (wide size_bits) in Hsize.
  pose proof (aligned_sum _ _ Hal) as Hsum.
  assert (Hfill : fill d = 0) by (unfold fill; by rewrite Hslot).
  assert (HK : 0 < kMaxChunksize) by (unfold kMaxChunksize; lia).
  assert (Hdiv : 0 ≤ sum lengths / kMaxChunksize) by (by apply Z.div_pos).
  unfold transfer.
  destruct s as [hp nh jq rq pq rcq cnt tmo ml fr mn cl tr].
  cbn in Hjq, Hd. subst jq. cbn -[segments finish Nat.add].
  set (s1 := mkState hp nh q rq pq rcq cnt tmo ml fr mn
               (CPerform download) (PerformStarted download :: tr)).
  destruct (segments_aligned size_bits fuel download lengths s1 d)
    as (s2 & d2 & Hrun & Hd2 & Hjq2 & Hrq2 & Hmn2 & Hq2 & Hf2 & Hsome & Hnone
        & Hc2 & Ht2); try done.
  { rewrite Hfill. lia. }
  { by rewrite Hfill. }
  { rewrite Hzero. unfold INT_MIN. lia. }
  { rewrite Hfill, Hzero, !Z.add_0_l. done. }
  rewrite Hrun. cbn -[finish Nat.add].
  rewrite Hfill, Z.add_0_l in *. rewrite Hzero, Z.add_0_l in Hc2.
  destruct (finish_chunk_lengths size_bits (2 + fuel) download result s2 d2)
    as (s3 & Hfin & Hpc & Hjq3 & Hrq3 & Hq3 & Ht3); try done.
  { rewrite Hc2. unfold INT_MIN. lia. }
  exists s3. split; [exact Hfin|]. split; [done|].
  split; [by rewrite Hjq3, Hjq2|]. split; [by rewrite Hrq3, Hrq2|].
  split.
  - rewrite Hq3, Hq2, <- app_assoc. f_equal.
    destruct lengths as [|n lengths].
    + rewrite (Hnone eq_refl), Hslot. cbn. done.
    + destruct Hsome as [i Hi]; [done|].
      unfold fill in Hf2. rewrite Hi in *. cbn in Hf2. cbn [fmap option_fmap option_map option_list].
      rewrite Hf2. done.
  - rewrite Ht3, Ht2. unfold s1. cbn [trace].
    by rewrite filter_overflowing_skip.
Qed.

Lemma aligned_transfer_chunks_witness :
  ∃ s',
    transfer 32 6 eight_segments CURLE_OK test_job = Some s'
    ∧ resultsQueue s' = [0%nat]
    ∧ chunk_lengths s' = [kMaxChunksize; 0].
Proof.
  assert (Hd : heap test_job !! 0%nat
               = Some (Download.mk test_options 0 None 0 0 None 0))
    by reflexivity.
  assert (Hsize : kMaxChunksize < 2 ^ 32) by reflexivity.
  assert (Ha : aligned 0 eight_segments)
    by (repeat split; solve [reflexivity | intros [=]]).
  assert (Hsum : sum eight_segments / kMaxChunksize < INT_MAX) by reflexivity.
  destruct (aligned_transfer_chunks 32 0 eight_segments CURLE_OK test_job
              0%nat [] _ eq_refl Hd eq_refl eq_refl Hsize Ha Hsum)
    as (s' & Hrun & _ & _ & Hr & Hc & _).
  exists s'. split; [exact Hrun | split; [exact Hr | exact Hc]].
Defined.



(** ** A whole tick *)

Lemma is_int_pred (n : Z) : 0 < n → n ≤ INT_MAX → is_int (n - 1) = true.
Proof.
  unfold is_int, INT_MIN, INT_MAX. intros.
  apply andb_true_intro; split; apply Z.leb_le; lia.
Qed.

Lemma poll_from_step (fuel : nat) (s s' : State) :
  onDownloadQueuePoll_step s = (s', None) →
  main s' ≠ MFault →
  onDownloadQueuePoll_from (S fuel) s = onDownloadQueuePoll_from fuel s'.
Proof. intros Hstep Hm. cbn. rewrite Hstep. by destruct (main s'). Qed.

Lemma poll_from_return (fuel : nat) (s s' : State) (b : bool) :
  onDownloadQueuePoll_step s = (s', Some b) →
  onDownloadQueuePoll_from (S fuel) s = Some (b, s').
Proof. intros Hstep. cbn. by rewrite Hstep. Qed.

(** The loop of lines 257-272 on a queue of chunks of one [Download]. *)
Lemma progress_loop_drains (fuel : nat) (h : handle)
    (items : list Item.t) :
  ∀ (hp : gmap handle Download.t) (nh : handle) (jq rq : list handle)
    (rcq : list Item.t) (cnt : Z) (tmo : nat) (ml : buffer)
    (fr : list buffer) (cl : CurlPC) (tr : list Event) (d : Download.t),
  hp !! h = Some d →
  Forall (λ progressItem, Item.context progressItem = Some h) items →
  Z.of_nat (length items) ≤ Download.outstandingProgressItems d ≤ INT_MAX →
  onDownloadQueuePoll_from (3 * length items + fuel)
    (mkState hp nh jq rq items rcq cnt tmo ml fr MProgressPop cl tr)
  = onDownloadQueuePoll_from fuel
      (mkState
         (<[h := Download.with_outstandingProgressItems
                   (Download.outstandingProgressItems d
                    - Z.of_nat (length items)) d]> hp)
         nh jq rq [] (rcq ++ (Item.with_context None <$> items)) cnt tmo ml fr
         MProgressPop cl (reverse (delivery h d <$> items) ++ tr)).
Proof.
  induction items as [|progressItem items IH];
    intros hp nh jq rq rcq cnt tmo ml fr cl tr d Hd Hctx Hcount.
  - change (3 * length (@nil Item.t) + fuel)%nat with fuel.
    change (reverse (delivery h d <$> []) ++ tr) with tr.
    change (Z.of_nat (length (@nil Item.t))) with 0.
    change (Item.with_context None <$> []) with (@nil Item.t).
    rewrite app_nil_r, Z.sub_0_r.
    replace (Download.with_outstandingProgressItems
               (Download.outstandingProgressItems d) d) with d
      by (by destruct d).
    by rewrite insert_id.
  - apply Forall_cons in Hctx as [Hc Hctx].
    cbn [length] in Hcount.
    replace (3 * length (progressItem :: items) + fuel)%nat
      with (S (S (S (3 * length items + fuel)))) by (cbn [length]; lia).
    assert (Hint : is_int (Download.outstandingProgressItems d - 1) = true)
      by (apply is_int_pred; lia).
    etrans.
    { apply poll_from_step;
        [unfold onDownloadQueuePoll_step; cbn; rewrite Hc; cbn; rewrite Hd;
         reflexivity | done]. }
    etrans.
    { apply poll_from_step;
        [unfold onDownloadQueuePoll_step; cbn; rewrite Hc; cbn; rewrite Hd;
         reflexivity | done]. }
    etrans.
    { apply poll_from_step;
        [unfold onDownloadQueuePoll_step; cbn; rewrite Hc, Hd, Hint;
         reflexivity | done]. }
    cbn [heap store with_progressRecycleQueue with_main progressRecycleQueue].
    rewrite (IH _ _ _ _ _ _ _ _ _ _ _
               (Download.with_outstandingProgressItems
                  (Download.outstandingProgressItems d - 1) d)).
    + rewrite insert_insert_eq. f_equal.
      assert (Hsame : ∀ i, delivery h
                (Download.with_outstandingProgressItems
                   (Download.outstandingProgressItems d - 1) d) i
              = delivery h d i) by (intros; by destruct d).
      rewrite (list_fmap_ext _ _ items (λ _ i _, Hsame i)).
      replace (Download.with_outstandingProgressItems
                 (Download.outstandingProgressItems
                    (Download.with_outstandingProgressItems
                       (Download.outstandingProgressItems d - 1) d)
                  - Z.of_nat (length items))
                 (Download.with_outstandingProgressItems
                    (Download.outstandingProgressItems d - 1) d))
        with (Download.with_outstandingProgressItems
                (Download.outstandingProgressItems d
                 - Z.of_nat (length (progressItem :: items))) d)
        by (destruct d; cbn [length Download.with_outstandingProgressItems
                             Download.outstandingProgressItems];
            f_equal; lia).
      rewrite !fmap_cons, reverse_cons, <- !app_assoc. done.
    + apply lookup_insert_eq.
    + done.
    + destruct d; cbn in *. lia.
Qed.

(** X10. A tick that finds the chunks of one finished [Download] and its
    completion record, with the counter equal to the number of chunks: every
    chunk is handed over in turn and given back for recycling, then the
    completion callback is called, the [Download] is freed, [count] goes
    down by one, and the tick returns whether [count] is still positive. *)
Theorem tick_delivers_then_completes (fuel : nat) (h : handle) (s : State)
    (d : Download.t) :
  heap s !! h = Some d →
  Forall (λ progressItem, Item.context progressItem = Some h)
    (progressQueue s) →
  Download.outstandingProgressItems d
    = Z.of_nat (length (progressQueue s)) →
  Download.outstandingProgressItems d ≤ INT_MAX →
  resultsQueue s = [h] →
  onDownloadQueuePoll (3 * length (progressQueue s) + (4 + fuel)) s
  = Some (0 <? wrap_uint (count s - 1),
          mkState (delete h (heap s)) (nextHandle s) (jobQueue s) [] []
            (progressRecycleQueue s
             ++ (Item.with_context None <$> progressQueue s))
            (wrap_uint (count s - 1)) (timeouts s) (mallocs s) (freed s)
            MIdle (curl s)
            (completion h d
             ++ reverse (delivery h d <$> progressQueue s) ++ trace s)).
Proof.
  intros Hd Hctx Hn Hmax Hrq.
  destruct s as [hp nh jq rq pq rcq cnt tmo ml fr mn cl tr].
  cbn [heap progressQueue resultsQueue nextHandle jobQueue count timeouts
       mallocs freed curl trace progressRecycleQueue] in *.
  subst rq. unfold onDownloadQueuePoll. cbn [with_main].
  rewrite (progress_loop_drains _ h pq _ _ _ _ _ _ _ _ _ _ _ d Hd Hctx)
    by lia.
  rewrite Hn, Z.sub_diag.
  change (4 + fuel)%nat with (S (S (S (S fuel)))).
  etrans.
  { apply poll_from_step; [reflexivity | done]. }
  etrans.
  { apply poll_from_step; [reflexivity | done]. }
  destruct d as [[u pcb ccb ctx] r why e l slot n].
  destruct ccb as [ccb|].
  all: etrans;
    [apply poll_from_step;
       [unfold onDownloadQueuePoll_step; cbn; rewrite lookup_insert_eq; cbn;
        reflexivity | done]|].
  all: etrans; [by apply poll_from_return|].
  all: cbn; by rewrite delete_insert_eq.
Qed.

Lemma tick_delivers_then_completes_witness :
  ∃ s',
    onDownloadQueuePoll 7 transfer_over_state = Some (false, s')
    ∧ trace s'
      = [CompleteCallback 0 CURLE_OK (Some "curl-done"%string);
         ProgressCallback 0 1000 1000 0; ResultPushed 0; ChunkPushed 0 1000;
         Memcpy 0 0 0 1000; PerformStarted 0; Submitted 0].
Proof.
  assert (Hd : heap transfer_over_state !! 0%nat
               = Some (Download.mk test_options 0 (Some "curl-done"%string) 0
                         1000 None 1))
    by reflexivity.
  assert (Hq : Forall (λ progressItem, Item.context progressItem = Some 0%nat)
                 (progressQueue transfer_over_state))
    by (repeat constructor).
  assert (Hmax : 1 ≤ INT_MAX) by (intros [=]).
  eexists. split.
  - exact (tick_delivers_then_completes 0 0%nat transfer_over_state _
             Hd Hq eq_refl Hmax eq_refl).
  - reflexivity.
Defined.

(** ** Chunk buffers *)

Lemma slot_store (s : State) (h h' : handle) (d d' : Download.t) :
  heap s !! h = Some d →
  Download.currentProgressItem d' = Download.currentProgressItem d →
  slot (store h d' s) h' = slot s h'.
Proof.
  intros Hd Hslot. unfold slot. destruct s; cbn in *.
  destruct (decide (h = h')) as [->|].
  - rewrite lookup_insert_eq, Hd. cbn. done.
  - by rewrite lookup_insert_ne.
Qed.

Lemma fold_left_free (q : list Item.t) (f : list buffer) :
  fold_left (λ f progressItem, Item.chunk progressItem :: f) q f
  ≡ₚ (Item.chunk <$> q) ++ f.
Proof.
  revert f. induction q as [|i q IH]; intros f; cbn; [done|].
  rewrite IH. by rewrite Permutation_middle.
Qed.

Lemma slot_insert (hp : gmap handle Download.t) (h h' : handle)
    (d : Download.t) :
  (<[h := d]> hp !! h' ≫= Download.currentProgressItem)
  = if decide (h = h') then Download.currentProgressItem d
    else hp !! h' ≫= Download.currentProgressItem.
Proof.
  destruct (decide (h = h')) as [->|].
  - by rewrite lookup_insert_eq.
  - by rewrite lookup_insert_ne.
Qed.

Lemma curlThread_slots (size_bits : Z) (i : Input) (s s' : State) :
  slots_ok s → curlThread size_bits i s = Some s' → slots_ok s'.
Proof.
  intros [Hothers Hidle] Hstep.
  destruct s as [hp nh jq rq pq rcq cnt tmo ml fr mn cl tr].
  unfold slot in *. cbn in Hothers, Hidle.
  destruct cl, i; curl_cases Hstep.
  all: split; unfold slot; cbn; intros h Hh.
  all: rewrite ?slot_insert.
  all: repeat case_decide; simplify_eq.
  all: try (by apply Hothers).
  all: try done.
  all: try (by destruct x).
  all: try (apply Hothers; congruence).
  all: try match goal with
       | H : _ !! ?k = Some ?x |- context [?x] =>
           specialize (Hidle k eq_refl); rewrite H in Hidle; by destruct x
       end.
  all: match goal with
       | H : ?hp !! ?k = Some ?x |- ?hp !! ?k ≫= _ = None => by rewrite H
       end.
Qed.

Lemma onDownloadQueuePoll_step_slots (s s' : State) (r : option bool) :
  slots_ok s → onDownloadQueuePoll_step s = (s', r) → slots_ok s'.
Proof.
  intros [Hothers Hidle] Hstep.
  destruct s as [hp nh jq rq pq rcq cnt tmo ml fr mn cl tr].
  unfold slot in *. cbn in Hothers, Hidle.
  unfold onDownloadQueuePoll_step in Hstep. cbn in Hstep.
  repeat case_match; simplify_eq; cbn in *.
  all: split; unfold slot; cbn; intros h Hh.
  all: rewrite ?slot_insert.
  all: repeat case_decide; simplify_eq.
  all: try (by apply Hothers).
  all: try (by apply Hidle).
  all: try match goal with
       | H : _ !! ?k = Some ?x |- context [?x] =>
           first [specialize (Hothers k Hh) | specialize (Hidle k Hh)];
           rewrite H in *; by destruct x
       end.
  all: destruct (decide (completeItem = h)) as [->|];
    [by rewrite lookup_delete_eq | rewrite lookup_delete_ne by done].
  all: first [by apply Hothers | by apply Hidle].
Qed.

Lemma DownloadNew_slots (options : DownloadOptions.t) (s : State) :
  fresh s → slots_ok s → slots_ok (DownloadNew options s).2.
Proof.
  intros Hfresh [Hothers Hidle].
  destruct s as [hp nh jq rq pq rcq cnt tmo ml fr mn cl tr].
  unfold slot in *. cbn in Hothers, Hidle.
  split; unfold slot; cbn; destruct (cnt =? 0); cbn; intros h Hh.
  all: rewrite slot_insert.
  all: case_decide; try done.
  all: first [by apply Hothers | by apply Hidle].
Qed.

Lemma with_timeouts_slots (n : nat) (s : State) :
  slots_ok s → slots_ok (with_timeouts n s).
Proof. destruct s. by intros [? ?]. Qed.

Lemma step_slots (size_bits : Z) (l : Label) (s s' : State) :
  fresh s → slots_ok s → step size_bits l s = Some s' → slots_ok s'.
Proof.
  intros Hfresh Hok. destruct l as [options| | |i]; unfold step; intros Hstep.
  - destruct (main s); simplify_eq; by apply DownloadNew_slots.
  - destruct s as [hp nh jq rq pq rcq cnt tmo ml fr mn cl tr].
    destruct Hok as [H1 H2].
    cbn in Hstep. destruct mn, tmo; simplify_eq. by split.
  - destruct (onDownloadQueuePoll_step s) as [s1 r] eqn:Hpoll.
    apply (onDownloadQueuePoll_step_slots _ _ _ Hok) in Hpoll.
    destruct (main s), r as [[]|]; simplify_eq;
      by try apply with_timeouts_slots.
  - by eapply curlThread_slots.
Qed.

Ltac buf_simpl :=
  repeat match goal with
  | H : <[?k := _]> _ !! ?k = Some _ |- _ =>
      rewrite lookup_insert_eq in H; simplify_eq
  end;
  repeat match goal with
  | d : Download.t |- _ => destruct d
  | i : Item.t |- _ => destruct i
  end;
  cbn in *; simplify_eq;
  unfold in_use, current_item, slot; cbn;
  rewrite ?insert_insert_eq, ?lookup_insert_eq;
  repeat match goal with
  | H : ?hp !! ?k = Some _ |- context [?hp !! ?k] => rewrite H
  end; cbn.

Ltac buf_perm :=
  buf_simpl; rewrite ?fmap_app, ?fold_left_free; cbn; solve_Permutation.

Lemma curlThread_buf (size_bits : Z) (i : Input) (s s' : State) :
  slots_ok s → curlThread size_bits i s = Some s' → buf_step s s'.
Proof.
  intros [Hothers Hidle] Hstep.
  destruct s as [hp nh jq rq pq rcq cnt tmo ml fr mn cl tr].
  unfold slot in *. cbn in Hothers, Hidle.
  destruct cl, i; curl_cases Hstep.
  all: try (apply buf_keep; [buf_perm | done | done]).
  all: try (apply buf_alloc; [buf_perm | done | done]).
  - apply buf_keep; [|done..]. unfold in_use, current_item, slot. cbn.
    by rewrite (Hothers n).
  - apply buf_keep; [|done..]. unfold in_use, current_item, slot. cbn.
    by rewrite (Hidle download).
  - apply buf_keep; [|done..]. unfold in_use, current_item, slot. cbn.
    rewrite (Hidle download) by done. cbn.
    rewrite ?fmap_app, ?fold_left_free. cbn. solve_Permutation.
Qed.

Lemma held_lookup (s : State) (h h' : handle) (d d' : Download.t) :
  heap s !! h = Some d →
  Download.currentProgressItem d' = Download.currentProgressItem d →
  current_item (store h d' s) = current_item s.
Proof.
  intros Hd Hslot. unfold current_item.
  assert (curl (store h d' s) = curl s) as -> by (by destruct s).
  destruct (curl_handle (curl s)) as [h0|]; cbn; [|done].
  by eapply slot_store.
Qed.

Ltac main_perm :=
  unfold in_use, current_item, slot; cbn;
  repeat first [rewrite fmap_app | rewrite fmap_cons | rewrite fmap_nil];
  cbn [option_list]; solve_Permutation.

Lemma onDownloadQueuePoll_step_buf (s s' : State) (r : option bool) :
  owned s → onDownloadQueuePoll_step s = (s', r) → buf_step s s'.
Proof.
  intros [Hnd _] Hstep.
  assert (Hne : ∀ h, tested (main s) = Some h → curl_handle (curl s) ≠ Some h).
  { intros h Ht Hc. unfold owners in Hnd. rewrite Ht, Hc in Hnd.
    apply NoDup_app in Hnd as (_ & _ & Hnd). cbn in Hnd.
    apply NoDup_cons in Hnd as [Hnot _].
    apply Hnot. rewrite elem_of_app. right. apply list_elem_of_here. }
  clear Hnd.
  destruct s as [hp nh jq rq pq rcq cnt tmo ml fr mn cl tr].
  unfold onDownloadQueuePoll_step in Hstep. cbn in Hstep.
  repeat case_match; simplify_eq; cbn in *.
  all: try match goal with
       | H : g_async_queue_try_pop ?q = _ |- _ =>
           destruct q; cbn in H; simplify_eq
       end.
  all: try (apply buf_keep; [main_perm | done | done]).
  all: try lazymatch goal with
       | |- buf_step ?s _ =>
           match eval cbn in (held_item (main s)) with
           | Some ?i => apply (buf_lose _ _ (Item.chunk i))
           | None =>
               match eval cbn in (progressQueue s) with
               | ?i :: _ => apply (buf_lose _ _ (Item.chunk i))
               end
           end; [main_perm | done | done]
       end.
  - apply buf_keep; [|done..]. unfold in_use, current_item, slot. cbn.
    assert (∀ h, <[n := Download.with_outstandingProgressItems (v - 1) t]> hp
                   !! h ≫= Download.currentProgressItem
                 = hp !! h ≫= Download.currentProgressItem) as Hsame.
    { intros h. rewrite slot_insert. case_decide; [subst|done].
      match goal with H : hp !! _ = Some t |- _ => rewrite H end.
      by destruct t. }
    destruct (curl_handle cl) as [h|]; cbn; rewrite ?Hsame.
    all: unfold g_async_queue_push, g_queue_push_head.
    all: rewrite !fmap_app; cbn.
    all: replace (Item.chunk (Item.with_context None progressItem))
           with (Item.chunk progressItem) by (by destruct progressItem).
    all: solve_Permutation.
  - apply buf_keep; [|done..]. unfold in_use, current_item, slot. cbn.
    specialize (Hne completeItem eq_refl). cbn in Hne.
    destruct (curl_handle cl) as [h|]; cbn; [|done].
    rewrite lookup_delete_ne by congruence. done.
  - apply buf_keep; [|done..]. unfold in_use, current_item, slot. cbn.
    specialize (Hne completeItem eq_refl). cbn in Hne.
    destruct (curl_handle cl) as [h|]; cbn; [|done].
    rewrite lookup_delete_ne by congruence. done.
Qed.

Lemma DownloadNew_buf (options : DownloadOptions.t) (s : State) :
  fresh s → owned s → main s ≠ MFault → buf_step s (DownloadNew options s).2.
Proof.
  intros Hfresh [_ Hal] Hm.
  assert (Hcur : ∀ h, curl_handle (curl s) = Some h → h ≠ nextHandle s).
  { intros h Hh ->. destruct (Hal (nextHandle s)) as [d Hd].
    - unfold owners. rewrite Hh, !elem_of_app. right; left.
      apply list_elem_of_here.
    - rewrite Hfresh in Hd by done. done. }
  destruct s as [hp nh jq rq pq rcq cnt tmo ml fr mn cl tr].
  cbn in Hcur.
  apply buf_keep.
  - unfold in_use, current_item, slot. cbn.
    destruct (cnt =? 0); cbn.
    all: destruct (curl_handle cl) as [h|]; cbn; [|done].
    all: rewrite lookup_insert_ne; [done|].
    all: intros ->; by apply (Hcur h).
  - cbn. by destruct (cnt =? 0).
  - cbn. by destruct (cnt =? 0).
Qed.

Lemma with_timeouts_buf (n : nat) (s s' : State) :
  buf_step s s' → buf_step s (with_timeouts n s').
Proof.
  destruct s' as [hp nh jq rq pq rcq cnt tmo ml fr mn cl tr].
  intros [| |]; [by apply buf_keep | by apply buf_alloc | by eapply buf_lose].
Qed.

Lemma step_buf (size_bits : Z) (l : Label) (s s' : State) :
  fresh s → owned s → slots_ok s →
  step size_bits l s = Some s' → buf_step s s'.
Proof.
  intros Hfresh Hown Hok.
  destruct l as [options| | |i]; unfold step; intros Hstep.
  - assert (main s ≠ MFault) by (intros E; by rewrite E in Hstep).
    assert (s' = (DownloadNew options s).2) as ->
      by (destruct (main s); by simplify_eq).
    by apply DownloadNew_buf.
  - destruct s as [hp nh jq rq pq rcq cnt tmo ml fr mn cl tr].
    cbn in Hstep. destruct mn, tmo; simplify_eq.
    by apply buf_keep.
  - destruct (onDownloadQueuePoll_step s) as [s1 r] eqn:Hpoll.
    apply (onDownloadQueuePoll_step_buf _ _ _ Hown) in Hpoll.
    destruct (main s), r as [[]|]; simplify_eq;
      by try apply with_timeouts_buf.
  - by eapply curlThread_buf.
Qed.

Lemma buffers_step (s s' : State) :
  buffers s → buf_step s s' → buffers s'.
Proof.
  intros [Honce Hall] [Hperm Hml Hm | Hperm Hml Hm | b Hperm Hml Hm].
  - split; rewrite Hperm, Hml; [done|].
    intros Hf. apply Hall. intros E. by apply Hf, Hm.
  - assert (Hseq : seq 0 (S (mallocs s)) ≡ₚ mallocs s :: seq 0 (mallocs s)).
    { rewrite seq_S. cbn. symmetry. apply Permutation_cons_append. }
    split; rewrite Hperm, Hml, Hseq.
    + by apply submseteq_skip.
    + rewrite Hm. intros Hf. by rewrite Hall.
  - split; [|done]. rewrite Hml.
    etrans; [|exact Honce]. rewrite Hperm. by apply submseteq_cons.
Qed.

Lemma reachable_buffers (size_bits : Z) (s : State) :
  reachable size_bits s → buffers s.
Proof.
  intros [ls Hrun].
  assert (Hgen : ∀ ls s0, fresh s0 → owned s0 → slots_ok s0 → buffers s0 →
            run size_bits ls s0 = Some s → buffers s).
  { clear. intros ls.
    induction ls as [|l ls IH]; intros s0 Hf Ho Hs Hb Hrun; cbn in Hrun.
    - by simplify_eq.
    - apply bind_Some in Hrun as (s1 & Hstep & Hrun).
      apply (IH s1); [by eapply step_fresh | | | | done].
      + eapply owned_step; [done..|]. by eapply step_own.
      + by eapply step_slots.
      + eapply buffers_step; [done|]. by eapply step_buf. }
  apply (Hgen ls DownloadInit); [| | | |done].
  - intros h _. apply lookup_empty.
  - split; [constructor|]. intros h Hin. by apply not_elem_of_nil in Hin.
  - split; intros h _; unfold slot; cbn; by rewrite lookup_empty.
  - by split.
Qed.

(** X6. No chunk buffer is in two places, none is freed twice, and none is
    in use after it has been freed; every buffer in use or freed came from
    [malloc]; and unless the foreground thread has faulted, every buffer
    [malloc] has returned is still in use or has been freed. *)
Theorem chunk_buffers_used_and_freed_once (size_bits : Z) (s : State) :
  reachable size_bits s →
  NoDup (in_use s ++ freed s)
  ∧ (∀ b, b ∈ in_use s ++ freed s → (b < mallocs s)%nat)
  ∧ (main s ≠ MFault →
     ∀ b, (b < mallocs s)%nat → b ∈ in_use s ++ freed s).
Proof.
  intros [Honce Hall]%reachable_buffers.
  split; [|split].
  - eapply NoDup_submseteq_inv; [exact Honce | apply NoDup_seq].
  - intros b Hb. eapply elem_of_submseteq in Hb; [|exact Honce].
    apply elem_of_seq in Hb. lia.
  - intros Hm b Hb. rewrite (Hall Hm). apply elem_of_seq. lia.
Qed.

Lemma chunk_buffers_used_and_freed_once_witness :
  NoDup (in_use second_job_state ++ freed second_job_state)
  ∧ (∀ b, b ∈ in_use second_job_state ++ freed second_job_state →
          (b < mallocs second_job_state)%nat)
  ∧ (main second_job_state ≠ MFault →
     ∀ b, (b < mallocs second_job_state)%nat →
          b ∈ in_use second_job_state ++ freed second_job_state).
Proof.
  apply (chunk_buffers_used_and_freed_once 32).
  exists second_job. reflexivity.
Defined.

(** ** The foreground thread under atomic updates *)

Lemma curlThread_tagged (size_bits : Z) (i : Input) (s s' : State) :
  slot_ok s → tagged s → curlThread size_bits i s = Some s' → tagged s'.
Proof.
  unfold slot_ok, tagged. intros Hok Ht Hstep.
  destruct s as [hp nh jq rq pq rcq cnt tmo ml fr mn cl tr].
  destruct cl, i; curl_cases Hstep.
  all: try done.
  all: unfold g_async_queue_push, g_queue_push_head.
  all: rewrite <- app_assoc; apply Forall_app; split;
    [by apply Forall_app in Ht as [? _]|].
  all: apply Forall_cons; split; [|by apply Forall_app in Ht as [_ ?]].
  all: destruct (Hok download x eq_refl) as (i' & Hi & Hc); [done|].
  all: simplify_eq; by rewrite Hc.
Qed.

Lemma onDownloadQueuePoll_step_tagged (s s' : State) (r : option bool) :
  tagged s → onDownloadQueuePoll_step s = (s', r) → tagged s'.
Proof.
  unfold tagged. intros Ht Hstep.
  destruct s as [hp nh jq rq pq rcq cnt tmo ml fr mn cl tr].
  unfold onDownloadQueuePoll_step in Hstep. cbn in Hstep.
  repeat case_match; simplify_eq; cbn in *.
  all: try done.
  all: try match goal with
       | H : g_async_queue_try_pop ?q = _ |- _ =>
           destruct q; cbn in H; simplify_eq
       end.
  all: rewrite ?app_nil_r in *.
  all: try (apply Forall_app in Ht as [Ht _]; done).
  all: try (apply Forall_cons in Ht as [Hi Ht]; apply Forall_app; split;
            [done | by repeat constructor]).
  all: try (by apply Forall_cons in Ht as [Hi Ht]).
Qed.

Lemma step_tagged (size_bits : Z) (l : Label) (s s' : State) :
  slot_ok s → tagged s → step size_bits l s = Some s' → tagged s'.
Proof.
  intros Hok Ht. destruct l as [options| | |i]; unfold step; intros Hstep.
  - destruct s as [hp nh jq rq pq rcq cnt tmo ml fr mn cl tr].
    cbn in *. destruct mn, (cnt =? 0); by simplify_eq.
  - destruct s as [hp nh jq rq pq rcq cnt tmo ml fr mn cl tr].
    cbn in Hstep. destruct mn, tmo; by simplify_eq.
  - destruct (onDownloadQueuePoll_step s) as [s1 r] eqn:Hpoll.
    apply (onDownloadQueuePoll_step_tagged _ _ _ Ht) in Hpoll.
    destruct (main s), r as [[]|]; simplify_eq; try done.
    all: by destruct s1.
  - by eapply curlThread_tagged.
Qed.

Lemma reachable_tagged (size_bits : Z) (s : State) :
  reachable size_bits s → tagged s.
Proof.
  intros [ls Hrun].
  assert (Hgen : ∀ ls s0, fresh s0 → owned s0 → slot_ok s0 → tagged s0 →
            run size_bits ls s0 = Some s → tagged s).
  { clear. intros ls.
    induction ls as [|l ls IH]; intros s0 Hf Ho Hs Ht Hrun; cbn in Hrun.
    - by simplify_eq.
    - apply bind_Some in Hrun as (s1 & Hstep & Hrun).
      apply (IH s1); [by eapply step_fresh | | | | done].
      + eapply owned_step; [done..|]. by eapply step_own.
      + by eapply step_slot.
      + by eapply step_tagged. }
  apply (Hgen ls DownloadInit); [| | | |done].
  - intros h _. apply lookup_empty.
  - split; [constructor|]. intros h Hin. by apply not_elem_of_nil in Hin.
  - by intros h d [=].
  - constructor.
Qed.

Lemma queued_zero (s : State) (h : handle) :
  queued h s = 0%nat → Some h ∉ contexts s.
Proof.
  unfold queued. intros Hz Hin.
  apply (proj1 (tally_zero _ _) Hz) in Hin.
  unfold is_handle in Hin. by rewrite bool_decide_eq_true_2 in Hin.
Qed.

Lemma unqueued_step (s s' : State) :
  bounded s → counted s → unqueued s → count_step s s' → unqueued s'.
Proof.
  intros Hb Hc Hu Hstep.
  destruct Hstep as
    [Hsb Hcnt Hctx Hheld Hpend Hheap Htr
    |Hsb Hmain Hheap Hpend Htr Hctx
    |d0 Hn Hheap Hzero Hjobs Hcurl Hctx Hheld Htr
    |h e Hsb Hheap Hctx Halive Hheld Hheld' Hpend He Htr
    |h d Hsb Hheld Hd Hheap Hheld' Hctx Hpend Htr
    |h d Hsb Hd Hzero Hheap Hheld Hheld' Hctx Hpend Htr
    |h d d' progressItem Hsb Hd Hheap Hinc Hmax Hslot Hitem Hpend Hpend'
       Hctx Hheld Htr
    |h d progressItem Hsb Hpend Hd Hslot Hctx Hcnt Hpend' Hheld Htr];
    intros h' Hdead.
  - rewrite Hctx, Hheld. apply Hu.
    destruct (heap s !! h') eqn:E; [|done].
    assert (is_Some (heap s' !! h')) as [? ?]; [|congruence].
    apply (counter_alive s s' Hcnt). by eexists.
  - rewrite Hheap in Hdead. destruct (Hu h' Hdead) as [Hq Hh].
    split.
    + destruct Hctx as [[_ Hctx] | [Hctx _]].
      * destruct Hctx as [-> | (c & Hc' & _)]; [done|].
        intros Hin. apply Hq. rewrite Hc'. by apply list_elem_of_further.
      * by rewrite Hctx.
    + unfold held. by rewrite Hmain.
  - rewrite Hctx, Hheld. apply Hu. rewrite Hheap in Hdead.
    destruct (decide (h' = nextHandle s)) as [->|].
    + by rewrite lookup_insert_eq in Hdead.
    + by rewrite lookup_insert_ne in Hdead.
  - rewrite Hheap in Hdead. destruct (Hu h' Hdead) as [Hq Hh].
    split.
    + intros Hin. apply Hq. rewrite Hctx. by apply list_elem_of_further.
    + rewrite Hheld'. intros [= ->]. rewrite Hdead in Halive.
      by destruct Halive.
  - rewrite Hctx, Hheld'. split; [|done]. apply Hu.
    rewrite Hheap in Hdead.
    destruct (decide (h' = h)) as [->|].
    + by rewrite lookup_insert_eq in Hdead.
    + by rewrite lookup_insert_ne in Hdead.
  - rewrite Hctx, Hheld'. split; [|done].
    destruct (decide (h' = h)) as [->|].
    + destruct (counted_counter s Hc h 0) as [Hn _].
      { unfold counter. by rewrite Hd, <- Hzero. }
      pose proof (one_if_range (held s) h).
      pose proof (one_if_range (pending s) h).
      apply queued_zero. lia.
    + apply Hu. rewrite Hheap in Hdead.
      by rewrite lookup_delete_ne in Hdead.
  - rewrite Hctx, Hheld. apply Hu. rewrite Hheap in Hdead.
    destruct (decide (h' = h)) as [->|].
    + by rewrite lookup_insert_eq in Hdead.
    + by rewrite lookup_insert_ne in Hdead.
  - assert (Hdead0 : heap s !! h' = None).
    { destruct (heap s !! h') eqn:E; [|done].
      assert (is_Some (heap s' !! h')) as [? ?]; [|congruence].
      apply (counter_alive s s' Hcnt). by eexists. }
    destruct (Hu h' Hdead0) as [Hq Hh].
    rewrite Hctx, Hheld. split; [|done].
    rewrite elem_of_app, list_elem_of_singleton. intros [|Heq]; [done|].
    rewrite (bounded_slot s Hb h d progressItem Hpend Hd Hslot) in Heq.
    simplify_eq.
Qed.

Lemma main_no_fault (size_bits : Z) (s s' : State) :
  atomic s → tagged s → unqueued s → counted s → owned s →
  main s ≠ MFault →
  step_atomic size_bits Main s = Some s' →
  main s' ≠ MFault.
Proof.
  intros [Hmain Hcurl] Ht Hu Hc [_ Hal] Hm Hstep.
  assert (Htest : ∀ h, tested (main s) = Some h → is_Some (heap s !! h)).
  { intros h Hh. apply Hal. unfold owners. rewrite Hh, !elem_of_app.
    do 3 right. apply list_elem_of_here. }
  clear Hal.
  pose proof (counted_counter s Hc) as Hcount. clear Hc.
  unfold tagged, unqueued, contexts, held, counter, queued, contexts,
    pending in *.
  destruct s as [hp nh jq rq pq rcq cnt tmo ml fr mn cl tr].
  unfold step_atomic, step in Hstep. cbn in *.
  destruct mn as [| |progressItem|progressItem v| |completeItem|];
    try done; unfold onDownloadQueuePoll_step in Hstep; cbn in Hstep.
  - (* line 257 *)
    destruct pq as [|progressItem pq]; cbn in Hstep.
    + unfold finish_update in Hstep; cbn in Hstep. rewrite Hcurl in Hstep.
      by simplify_eq.
    + apply Forall_cons in Ht as [[h Hctx] _]. rewrite Hctx in Hstep.
      cbn in Hstep.
      destruct (hp !! h) as [d|] eqn:Hd; cbn in Hstep.
      * unfold finish_update in Hstep; cbn in Hstep.
        rewrite Hcurl in Hstep. by simplify_eq.
      * destruct (Hu h Hd) as [Hq _]. exfalso. apply Hq.
        cbn. rewrite Hctx. apply list_elem_of_here.
  - (* line 267 *)
    apply Forall_app in Ht as [_ Ht].
    apply Forall_cons in Ht as [[h Hctx] _]. rewrite Hctx in Hstep.
    cbn in Hstep.
    destruct (hp !! h) as [d|] eqn:Hd; cbn in Hstep.
    + unfold finish_update, step, onDownloadQueuePoll_step in Hstep.
      cbn in Hstep. rewrite Hctx, Hd in Hstep.
      destruct (Hcount h (Download.outstandingProgressItems d)) as [Hn Hmax].
      { by rewrite Hd. }
      rewrite Hctx, one_if_Some, bool_decide_eq_true_2 in Hn by done.
      pose proof (one_if_range
                    match cl with CPushQueue h0 _ => Some h0 | _ => None end
                    h).
      rewrite is_int_pred in Hstep by lia.
      cbn in Hstep. by simplify_eq.
    + destruct (Hu h Hd) as [_ Hh]. by rewrite Hctx in Hh.
  - (* line 276 *)
    destruct rq as [|completeItem rq]; cbn in Hstep.
    + destruct (0 <? cnt); unfold finish_update in Hstep; cbn in Hstep;
        rewrite Hcurl in Hstep; by simplify_eq.
    + unfold finish_update in Hstep; cbn in Hstep. rewrite Hcurl in Hstep.
      by simplify_eq.
  - (* line 279 *)
    destruct (Htest completeItem eq_refl) as [d Hd]. rewrite Hd in Hstep.
    cbn in Hstep.
    destruct (Download.outstandingProgressItems d =? 0); cbn in Hstep.
    + destruct (DownloadOptions.completeCallback (Download.options d));
        unfold finish_update in Hstep; cbn in Hstep;
        rewrite Hcurl in Hstep; by simplify_eq.
    + unfold finish_update in Hstep; cbn in Hstep. rewrite Hcurl in Hstep.
      by simplify_eq.
Qed.

Lemma step_atomic_no_fault (size_bits : Z) (l : Label) (s s' : State) :
  atomic s → tagged s → unqueued s → counted s → owned s →
  main s ≠ MFault →
  step_atomic size_bits l s = Some s' →
  main s' ≠ MFault.
Proof.
  intros Ha Ht Hu Hc Ho Hm Hstep.
  destruct l as [options| | |i]; [| |by eapply main_no_fault|].
  - destruct Ha as [Hmain Hcurl].
    destruct s as [hp nh jq rq pq rcq cnt tmo ml fr mn cl tr].
    unfold step_atomic, step in Hstep. cbn in *.
    destruct mn; try done; cbn in Hstep; unfold finish_update in Hstep;
      destruct (cnt =? 0); cbn in Hstep; rewrite Hcurl in Hstep;
      by simplify_eq.
  - destruct Ha as [Hmain Hcurl].
    destruct s as [hp nh jq rq pq rcq cnt tmo ml fr mn cl tr].
    unfold step_atomic, step in Hstep. cbn in *.
    destruct mn, tmo; try done; cbn in Hstep.
    unfold finish_update in Hstep; cbn in Hstep. rewrite Hcurl in Hstep.
    by simplify_eq.
  - destruct Ha as [Hmain Hcurl].
    unfold step_atomic, step in Hstep.
    apply bind_Some in Hstep as (s1 & Hstep & Hfin).
    apply curlThread_counts in Hstep as (_ & _ & _ & Hm1).
    unfold finish_update in Hfin. rewrite Hm1, Hmain in Hfin.
    destruct (curl_updating (curl s1)).
    + cbn in Hfin. apply curlThread_counts in Hfin as (_ & _ & _ & Hm2).
      congruence.
    + simplify_eq. congruence.
Qed.

Lemma step_atomic_reachable (size_bits : Z) (l : Label) (s s' : State) :
  reachable size_bits s → step_atomic size_bits l s = Some s' →
  reachable size_bits s'.
Proof.
  intros [ls Hls] Hstep.
  destruct (run_atomic_run size_bits [l] s s') as [ls' Hls'].
  { cbn. by rewrite Hstep. }
  exists (ls ++ ls'). rewrite run_app, Hls. done.
Qed.

Lemma run_atomic_no_fault (size_bits : Z) (ls : list Label) (s0 s : State) :
  reachable size_bits s0 → atomic s0 → bounded s0 → counted s0 →
  unqueued s0 → main s0 ≠ MFault →
  run_atomic size_bits ls s0 = Some s →
  main s ≠ MFault.
Proof.
  revert s0. induction ls as [|l ls IH];
    intros s0 Hr Ha Hb Hc Hu Hm Hrun; cbn in Hrun.
  - by simplify_eq.
  - apply bind_Some in Hrun as (s1 & Hstep & Hrun).
    destruct (step_atomic_count size_bits l s0 s1 Ha Hstep) as [Ha1 Hcs].
    apply (IH s1); try done.
    + by eapply step_atomic_reachable.
    + exact (bounded_step s0 s1 Hb Hcs).
    + exact (counted_step s0 s1 Hb Hc Hcs).
    + exact (unqueued_step s0 s1 Hb Hc Hu Hcs).
    + apply (step_atomic_no_fault size_bits l s0 s1); try done.
      * by apply (reachable_tagged size_bits).
      * by apply (reachable_owned size_bits).
Qed.

(** X14. In every run in which lines 267 and 338 are carried out
    atomically, the foreground thread never touches a freed [Download] and
    never overflows the counter. *)
Theorem foreground_never_faults_when_atomic (size_bits : Z)
    (ls : list Label) (s : State) :
  run_atomic size_bits ls DownloadInit = Some s →
  main s ≠ MFault.
Proof.
  apply run_atomic_no_fault.
  - by exists [].
  - done.
  - apply bounded_init.
  - apply counted_init.
  - intros h _. split; [apply not_elem_of_nil | done].
  - done.
Qed.

Lemma foreground_never_faults_when_atomic_witness :
  main atomic_job_state ≠ MFault.
Proof.
  apply (foreground_never_faults_when_atomic 32 atomic_job).
  reflexivity.
Defined.

(** X13. In every run in which lines 267 and 338 are carried out
    atomically, the outstanding-chunk counter of a live [Download] is the
    number of its chunks that are in the progress queue, in the hands of the
    tick, or about to be pushed by the worker; it is never negative. *)
Theorem counter_counts_chunks_when_atomic (size_bits : Z) (ls : list Label)
    (s : State) (h : handle) (d : Download.t) :
  run_atomic size_bits ls DownloadInit = Some s →
  heap s !! h = Some d →
  Download.outstandingProgressItems d
  = Z.of_nat (queued h s) + one_if (held s) h + one_if (pending s) h
  ∧ 0 ≤ Download.outstandingProgressItems d ≤ INT_MAX.
Proof.
  intros Hrun Hd.
  destruct (run_atomic_counted size_bits ls DownloadInit s) as (_ & _ & Hc);
    [done | apply bounded_init | apply counted_init | done |].
  destruct (counted_counter s Hc h (Download.outstandingProgressItems d))
    as [Hn Hmax].
  { unfold counter. by rewrite Hd. }
  pose proof (one_if_range (held s) h).
  pose proof (one_if_range (pending s) h).
  split; [done | lia].
Qed.

Lemma counter_counts_chunks_when_atomic_witness :
  0 = Z.of_nat (queued 0 chunk_begun_state)
      + one_if (held chunk_begun_state) 0%nat
      + one_if (pending chunk_begun_state) 0%nat
  ∧ 0 ≤ 0 ≤ INT_MAX.
Proof.
  apply (counter_counts_chunks_when_atomic 32 chunk_begun chunk_begun_state
           0%nat
           (Download.mk test_options 0 None 0 1000
              (Some (Item.mk None 0 1000 0 0)) 0)).
  - reflexivity.
  - reflexivity.
Defined.

(** ** The application *)

Lemma live_options_store (hp : gmap handle Download.t) (h : handle)
    (d d' : Download.t) :
  hp !! h = Some d → Download.options d' = Download.options d →
  Download.options <$> <[h := d']> hp = Download.options <$> hp.
Proof.
  intros Hd Ho. rewrite fmap_insert, Ho. apply insert_id.
  by rewrite lookup_fmap, Hd.
Qed.

Lemma curlThread_options (size_bits : Z) (i : Input) (s s' : State) :
  curlThread size_bits i s = Some s' → live_options s' = live_options s.
Proof.
  intros Hstep. unfold live_options.
  destruct s as [hp nh jq rq pq rcq cnt tmo ml fr mn cl tr].
  destruct cl, i; curl_cases Hstep.
  all: try done.
  all: repeat (erewrite live_options_store;
               [|first [eassumption | apply lookup_insert_eq]
                |try done]).
  all: try done.
  all: repeat match goal with x : Download.t |- _ => destruct x end.
  all: done.
Qed.

Lemma called_emit (s s' : State) (e : Event) :
  trace s' = e :: trace s →
  PiFrame.called s s'
  = match e with
    | ProgressCallback _ _ _ _ | CompleteCallback _ _ _ => Some e
    | _ => None
    end.
Proof. intros H. unfold PiFrame.called. rewrite H. by case_decide. Qed.

Lemma called_silent (s s' : State) :
  trace s' = trace s → PiFrame.called s s' = None.
Proof.
  intros H. unfold PiFrame.called. rewrite H.
  destruct (trace s); [done|]. case_decide; [|done]. cbn in *. lia.
Qed.

Ltac tick_called :=
  first [ by apply called_silent
        | unfold PiFrame.called; cbn; by case_decide ].

Lemma onDownloadQueuePoll_step_tick (s s' : State) (r : option bool) :
  onDownloadQueuePoll_step s = (s', r) → tick_step s s'.
Proof.
  intros Hstep.
  destruct s as [hp nh jq rq pq rcq cnt tmo ml fr mn cl tr].
  unfold onDownloadQueuePoll_step in Hstep. cbn in Hstep.
  repeat case_match; simplify_eq; cbn in *.
  all: try (apply tick_quiet; [tick_called | done]; fail).
  all: try (eapply tick_progress; [eassumption | tick_called | done]; fail).
  all: try (apply tick_quiet; [tick_called |];
            unfold live_options; cbn; eapply live_options_store; [eassumption|];
            repeat match goal with x : Download.t |- _ => destruct x end;
            done).
  all: try (eapply tick_complete; [eassumption | tick_called | done..]; fail).
  all: try (eapply tick_discard; [eassumption | done]; fail).
Qed.

Lemma step_main_tick (size_bits : Z) (s s' : State) :
  step size_bits Main s = Some s' → tick_step s s'.
Proof.
  unfold step. intros Hstep.
  destruct (onDownloadQueuePoll_step s) as [s0 r] eqn:E.
  apply onDownloadQueuePoll_step_tick in E.
  assert (trace s' = trace s0 ∧ heap s' = heap s0) as [Ht Hh].
  { destruct (main s); try done.
    all: destruct r as [[]|]; simplify_eq; try done.
    all: by destruct s0. }
  assert (PiFrame.called s s' = PiFrame.called s s0) as Hc
    by (unfold PiFrame.called; by rewrite Ht).
  unfold live_options in *.
  destruct E as [H1 H2 | h d n r1 e1 H1 H2 H3 | h d H1 H2 H3 H4 | h d H1 H2].
  - apply tick_quiet; unfold live_options; by rewrite ?Hc, ?Hh.
  - eapply tick_progress; unfold live_options; by rewrite ?Hc, ?Hh.
  - eapply tick_complete; by rewrite ?Hc, ?Hh, ?Ht.
  - by eapply tick_discard.
Qed.

Lemma cycle_frame (options : AppOptions.t) (a : PiFrame.App) (s : State) :
  cycle options a → live_options s = live_options (PiFrame.downloads a) →
  cycle options (PiFrame.with_downloads s a).
Proof.
  intros [iv Hd Hh Hi | h i img Hd Hl Hi Ho Hld] Hsame; destruct a; cbn in *.
  - eapply cycle_waiting; cbn; try done.
    apply (fmap_empty_inv Download.options).
    unfold live_options in Hsame. rewrite Hsame, Hh. apply fmap_empty.
  - eapply cycle_loading; cbn; try done. by rewrite Hsame.
Qed.

Lemma running_frame (options : AppOptions.t) (a : PiFrame.App) (s : State) :
  running options a → live_options s = live_options (PiFrame.downloads a) →
  running options (PiFrame.with_downloads s a).
Proof.
  intros [Hc Ho Hd] Hsame. split.
  - by apply cycle_frame.
  - by destruct a.
  - destruct Hd. by destruct a.
Qed.

Lemma widget_S (n : nat) : widget (S (S n)) = widget n.
Proof. done. Qed.

Lemma onNextDownloadDelay_running (options : AppOptions.t) (a : PiFrame.App)
    (k : nat) :
  running options a → is_Some (PiFrame.delays a !! k) →
  running options
    (PiFrame.onNextDownloadDelay
       (PiFrame.with_delays (delete k (PiFrame.delays a)) a)).
Proof.
  intros [Hc Ho Hd] [iv Hk].
  destruct a as [s im ni nx dl cs].
  destruct nx as [o n ns p ps c].
  destruct s as [hp nh jq rq pq rcq cnt tmo ml fr mn cl tr].
  cbn in *. subst o.
  destruct Hc as [iv' Hdl Hh Hi | h i img Hdl Hl Hi Hio Hld]; cbn in *;
    subst; [|done].
  destruct k; [|done].
  unfold PiFrame.onNextDownloadDelay, PiFrame.ImageDownloadNew. cbn.
  split.
  - eapply (cycle_loading _ _ nh ni); cbn; try done.
    unfold live_options.
    destruct (cnt =? 0); cbn; by rewrite fmap_insert, fmap_empty.
  - by destruct (cnt =? 0).
  - destruct Hd. by destruct (cnt =? 0).
Qed.

Lemma live_options_lookup (s : State) (h h' : handle) (d : Download.t)
    (o : DownloadOptions.t) :
  heap s !! h = Some d → live_options s = {[h' := o]} →
  h = h' ∧ Download.options d = o.
Proof.
  intros Hd Hl.
  assert (live_options s !! h = Some (Download.options d)) as H
    by (unfold live_options; by rewrite lookup_fmap, Hd).
  rewrite Hl in H. apply lookup_singleton_Some in H as [-> <-]. done.
Qed.

Lemma live_options_delete (s s' : State) (h : handle) (o : DownloadOptions.t) :
  live_options s = {[h := o]} → heap s' = delete h (heap s) → heap s' = ∅.
Proof.
  intros Hl Hh. apply (fmap_empty_inv Download.options).
  rewrite Hh, fmap_delete. fold (live_options s). rewrite Hl.
  apply delete_singleton_eq.
Qed.

Lemma foreground_cases (options : AppOptions.t) (size_bits : Z)
    (decoder : PiFrame.Decoder) (a : PiFrame.App) (s : State) :
  running options a → step size_bits Main (PiFrame.downloads a) = Some s →
  ∃ a',
    PiFrame.step size_bits (PiFrame.Foreground decoder) a = Some a'
    ∧ PiFrame.downloads a' = s
    ∧ running options a'
    ∧ ∀ h r why,
        trace s = CompleteCallback h r why :: trace (PiFrame.downloads a) →
        PiFrame.delays a'
        = [if displayable r decoder
           then wrap_uint (PiFrame.to_int (AppOptions.delayMS options))
           else 10000]
        ∧ PiFrame.images a' = ∅ ∧ heap s = ∅
        ∧ ∃ loader,
            shown (PiFrame.calls a')
            = if displayable r decoder
              then (NextImageContext.newImage (PiFrame.nextImage a),
                    Loaded loader) :: shown (PiFrame.calls a)
              else shown (PiFrame.calls a).
Proof.
  intros Hrun Hstep.
  pose proof (step_main_tick _ _ _ Hstep) as Htick.
  unfold PiFrame.step. rewrite Hstep. cbn [mbind option_bind].
  destruct Htick as [H1 H2 | h d n r1 e1 H1 H2 H3 | h d H1 H2 H3 H4 | h d H1 H2].
  - rewrite H1. eexists. split; [done|]. split; [by destruct a|].
    split; [by apply running_frame|].
    intros h r why Ht. rewrite (called_emit _ _ _ Ht) in H1. done.
  - rewrite H2. cbn [PiFrame.dispatch]. rewrite H1. cbn [mbind option_bind].
    pose proof Hrun as [Hc Ho Hd].
    destruct Hc as [iv' Hdl Hh Hi | h0 i img Hdl Hl Hi Hio Hld];
      [by rewrite Hh in H1|].
    destruct (live_options_lookup _ _ _ _ _ H1 Hl) as [-> Hopt].
    rewrite Hopt. cbn. rewrite decide_True by done.
    unfold PiFrame.onImageDownloadProgress. cbn. rewrite Nat2Z.id.
    replace (PiFrame.images (PiFrame.with_downloads s a)) with (PiFrame.images a)
      by (by destruct a).
    rewrite Hi, lookup_singleton_eq. cbn.
    eexists. split; [done|]. split; [by destruct a|].
    split.
    + apply (running_frame _ _ s) in Hrun; [|done].
      destruct Hrun as [Hc' Ho' Hd']. destruct a. split.
      * destruct Hc'; [by eapply cycle_waiting | by eapply cycle_loading].
      * done.
      * by destruct Hd'.
    + intros h r why Ht. rewrite (called_emit _ _ _ Ht) in H2. done.
  - rewrite H2. cbn [PiFrame.dispatch]. rewrite H1. cbn [mbind option_bind].
    pose proof Hrun as [Hc Ho Hd].
    destruct Hc as [iv' Hdl Hh Hi | h0 i img Hdl Hl Hi Hio Hld];
      [by rewrite Hh in H1|].
    destruct (live_options_lookup _ _ _ _ _ H1 Hl) as [-> Hopt].
    pose proof (live_options_delete _ _ _ _ Hl H4) as Hempty.
    rewrite Hopt. cbn. rewrite decide_True by done.
    unfold PiFrame.onImageDownloadComplete. cbn. rewrite Nat2Z.id.
    replace (PiFrame.images (PiFrame.with_downloads s a)) with (PiFrame.images a)
      by (by destruct a).
    rewrite Hi, lookup_singleton_eq. cbn.
    destruct a as [s0 im ni nx dl cs]. destruct nx as [o n ns p ps c].
    destruct img as [io il idl irc]. cbn in *. subst.
    destruct Hd as [D1 D2 D3 D4 D5]. cbn in *. subst.
    unfold displayable.
    destruct (Download.result d =? CURLE_OK) eqn:Er,
      (PiFrame.accepted decoder) eqn:Ea,
      (PiFrame.has_pixbuf decoder) eqn:Ep; cbn.
    all: unfold PiFrame.complete; cbn.
    all: eexists; split; [done|]; split; [done|].
    all: split.
    all: try (intros h r why Ht; rewrite H3 in Ht; simplify_eq; cbn;
              rewrite ?Er, ?Ea, ?Ep; cbn;
              rewrite ?delete_singleton_eq;
              repeat split; try done; by eexists).
    all: split; cbn;
      [eapply cycle_waiting; cbn; [done | done | apply delete_singleton_eq]
      |done|].
    all: split; cbn; rewrite ?D1; try done.
  - pose proof Hrun as [Hc Ho Hd].
    destruct Hc as [iv' Hdl Hh Hi | h0 i img Hdl Hl Hi Hio Hld];
      [by rewrite Hh in H1|].
    destruct (live_options_lookup _ _ _ _ _ H1 Hl) as [-> Hopt].
    by rewrite Hopt in H2.
Qed.

Lemma step_running (options : AppOptions.t) (size_bits : Z)
    (l : PiFrame.Label) (a a' : PiFrame.App) :
  running options a → PiFrame.step size_bits l a = Some a' →
  running options a'.
Proof.
  intros Hrun Hstep. destruct l as [k| |decoder|i].
  - cbn in Hstep. repeat case_match; simplify_eq.
    by apply onNextDownloadDelay_running.
  - unfold PiFrame.step in Hstep.
    destruct (step size_bits Timeout (PiFrame.downloads a)) as [s|] eqn:E;
      [|done].
    cbn in Hstep. simplify_eq. apply running_frame; [done|].
    cbn in E. repeat case_match; simplify_eq.
    by destruct (PiFrame.downloads a).
  - destruct (step size_bits Main (PiFrame.downloads a)) as [s|] eqn:E.
    + destruct (foreground_cases options size_bits decoder a s Hrun E)
        as (a'' & Hs & _ & Hr & _).
      by simplify_eq.
    + unfold PiFrame.step in Hstep. by rewrite E in Hstep.
  - unfold PiFrame.step, step in Hstep.
    destruct (curlThread size_bits i (PiFrame.downloads a)) as [s|] eqn:E;
      [|done].
    cbn in Hstep. simplify_eq. apply running_frame; [done|].
    by eapply curlThread_options.
Qed.

Lemma running_main (options : AppOptions.t) : running options (PiFrame.main options).
Proof.
  split; [by eapply cycle_waiting | done | by split].
Qed.

Lemma run_running (options : AppOptions.t) (size_bits : Z)
    (ls : list PiFrame.Label) (a a' : PiFrame.App) :
  running options a → PiFrame.run size_bits ls a = Some a' →
  running options a'.
Proof.
  revert a. induction ls as [|l ls IH]; intros a Hrun H; cbn in H.
  - by simplify_eq.
  - destruct (PiFrame.step size_bits l a) as [a1|] eqn:E; [|done].
    cbn in H. eapply IH; [|done]. by eapply step_running.
Qed.

Lemma reachable_running (options : AppOptions.t) (size_bits : Z)
    (a : PiFrame.App) :
  PiFrame.reachable size_bits options a → running options a.
Proof. intros [ls H]. eapply run_running; [apply running_main | done]. Qed.


(** X15. PiFrame has one request at a time: either one delay is pending
    and no [Download] and no [ImageDownload] exists, or no delay is pending
    and exactly one [Download] and exactly one [ImageDownload] exist; and
    every [Download] asks for the service URL of the options. *)
Theorem one_request_at_a_time (size_bits : Z) (options : AppOptions.t)
    (a : PiFrame.App) :
  PiFrame.reachable size_bits options a →
  ((length (PiFrame.delays a) = 1%nat ∧ heap (PiFrame.downloads a) = ∅
    ∧ PiFrame.images a = ∅)
   ∨ (PiFrame.delays a = [] ∧ size (heap (PiFrame.downloads a)) = 1%nat
      ∧ size (PiFrame.images a) = 1%nat))
  ∧ ∀ h d, heap (PiFrame.downloads a) !! h = Some d →
      DownloadOptions.url (Download.options d)
      = AppOptions.serviceURL options.
Proof.
  intros [Hc _ _]%reachable_running.
  destruct Hc as [iv' Hdl Hh Hi | h i img Hdl Hl Hi Hio Hld].
  - split; [left; by rewrite Hdl|].
    intros h d Hd. by rewrite Hh in Hd.
  - split.
    + right. split; [done|]. split.
      * rewrite <- (map_size_fmap Download.options).
        fold (live_options (PiFrame.downloads a)).
        rewrite Hl. apply map_size_singleton.
      * rewrite Hi. apply map_size_singleton.
    + intros h' d Hd.
      destruct (live_options_lookup _ _ _ _ _ Hd Hl) as [_ Ho].
      by rewrite Ho.
Qed.

Lemma one_request_at_a_time_witness :
  (length (PiFrame.delays before_completion_state) = 1%nat
   ∧ heap (PiFrame.downloads before_completion_state) = ∅
   ∧ PiFrame.images before_completion_state = ∅)
  ∨ (PiFrame.delays before_completion_state = []
     ∧ size (heap (PiFrame.downloads before_completion_state)) = 1%nat
     ∧ size (PiFrame.images before_completion_state) = 1%nat).
Proof.
  apply (one_request_at_a_time 32 frame_options).
  exists before_completion. reflexivity.
Defined.





(** X18. The images go to the two widgets in turn, the first one to
    [topImage]; [newImage] is the widget the next image goes to,
    [previousImage] the other one, and [previousSourcePixbuf] is the image
    set last, or the startup image. *)
Theorem images_alternate_between_widgets (size_bits : Z)
    (options : AppOptions.t) (a : PiFrame.App) :
  PiFrame.reachable size_bits options a →
  (shown (PiFrame.calls a)).*1 = alternate (length (shown (PiFrame.calls a)))
  ∧ NextImageContext.newImage (PiFrame.nextImage a)
    = widget (length (shown (PiFrame.calls a)))
  ∧ NextImageContext.previousImage (PiFrame.nextImage a)
    = widget (S (length (shown (PiFrame.calls a))))
  ∧ NextImageContext.previousSourcePixbuf (PiFrame.nextImage a)
    = Some (hd Startup (shown (PiFrame.calls a)).*2).
Proof.
  intros [_ _ [D1 D2 D3 D4 D5]]%reachable_running. done.
Qed.

Lemma images_alternate_between_widgets_witness :
  (shown (PiFrame.calls first_image_state)).*1
  = alternate (length (shown (PiFrame.calls first_image_state)))
  ∧ NextImageContext.newImage (PiFrame.nextImage first_image_state)
    = widget (length (shown (PiFrame.calls first_image_state)))
  ∧ NextImageContext.previousImage (PiFrame.nextImage first_image_state)
    = widget (S (length (shown (PiFrame.calls first_image_state))))
  ∧ NextImageContext.previousSourcePixbuf
      (PiFrame.nextImage first_image_state)
    = Some (hd Startup (shown (PiFrame.calls first_image_state)).*2).
Proof.
  apply (images_alternate_between_widgets 32 frame_options).
  exists first_image. reflexivity.
Defined.

(** ** Command-line options *)

Lemma parse_delays (atoi : string → Z) (opts : list (Z * string))
    (o : AppOptions.t) :
  fold_left
    (λ o opt,
       if opt.1 =? option_d then
         AppOptions.mk (AppOptions.serviceURL o) (wrap_uint (atoi opt.2))
       else o)
    opts o
  = AppOptions.mk (AppOptions.serviceURL o)
      (from_option (λ optarg, wrap_uint (atoi optarg)) (AppOptions.delayMS o)
         (last (delay_arguments opts))).
Proof.
  revert o. induction opts as [|[c optarg] opts IH]; intros o; cbn.
  - by destruct o.
  - rewrite IH. unfold delay_arguments. cbn.
    destruct (c =? option_d); cbn; [|done].
    fold (delay_arguments opts). rewrite last_cons.
    by destruct (last (delay_arguments opts)).
Qed.

Lemma parse_arguments (arguments : list string) (o : AppOptions.t)
    (warnings : list string) :
  fold_left
    (λ '(o, haveURL, warnings) argument,
       if haveURL : bool then (o, haveURL, warnings ++ [argument])
       else (AppOptions.mk argument (AppOptions.delayMS o), true, warnings))
    arguments (o, true, warnings)
  = (o, true, warnings ++ arguments).
Proof.
  revert warnings. induction arguments as [|x xs IH]; intros warnings; cbn.
  - by rewrite app_nil_r.
  - by rewrite IH, <- app_assoc.
Qed.

Lemma wrap_uint_range (n : Z) : 0 ≤ wrap_uint n < 2 ^ 32.
Proof. unfold wrap_uint, wrap. apply Z.mod_pos_bound. lia. Qed.

(** X19. [parseOptions] takes the first argument that is not an option as
    the service URL and warns about every later one; the last [-d] sets the
    delay, converted to [unsigned int]; what is not given keeps its value,
    and the delay stays in the range of an [unsigned int]. *)
Theorem parseOptions_result (atoi : string → Z) (outOptions : AppOptions.t)
    (opts : list (Z * string)) (arguments : list string) :
  0 ≤ AppOptions.delayMS outOptions < 2 ^ 32 →
  parseOptions atoi outOptions opts arguments
  = (AppOptions.mk (hd (AppOptions.serviceURL outOptions) arguments)
       (from_option (λ optarg, wrap_uint (atoi optarg))
          (AppOptions.delayMS outOptions) (last (delay_arguments opts))),
     tail arguments)
  ∧ 0 ≤ AppOptions.delayMS (parseOptions atoi outOptions opts arguments).1
      < 2 ^ 32.
Proof.
  intros Hd. unfold parseOptions. rewrite parse_delays.
  assert (0 ≤ from_option (λ optarg, wrap_uint (atoi optarg))
                (AppOptions.delayMS outOptions) (last (delay_arguments opts))
          < 2 ^ 32) as Hr.
  { destruct (last (delay_arguments opts)); cbn; [apply wrap_uint_range|done]. }
  destruct arguments as [|url extra]; cbn; [done|].
  by rewrite parse_arguments.
Qed.

Lemma parseOptions_result_witness :
  0 ≤ AppOptions.delayMS defaults < 2 ^ 32
  ∧ parseOptions (λ _, 3000) defaults
      [(option_d, "5"); (63, ""); (option_d, "3000")]
      ["http://frame/next"; "extra"]
    = (AppOptions.mk "http://frame/next" 3000, ["extra"]).
Proof.
  assert (0 ≤ AppOptions.delayMS defaults < 2 ^ 32) as H by (cbn; lia).
  split; [exact H|].
  exact (proj1 (parseOptions_result (λ _, 3000) defaults
                  [(option_d, "5"); (63, ""); (option_d, "3000")]
                  ["http://frame/next"; "extra"] H)).
Defined.
